(** * Verification of package [diff]: Myers' O(ND) longest common subsequence

    The development follows [diff.go]:
    - [Diff] and [common], the search over the edit graph and its backtrace;
    - the adapters [SideBySide] and [Annotate];
    - the test adapter [stringDiff] of the package's test file.

    Go's [int] is modelled by [Z], on the assumption that [2*(n+m)+3], the
    length of the slice that the search allocates for every depth, is a
    length that [make] accepts, and so an [int]: the indices are below that
    length and the values stored are between 0 and [2*(n+m)] (lemma
    [furthest_bounded]), so that no operation of the package wraps around.
    Two slices in memory satisfy the assumption; the theorems about an
    arbitrary implementation of the interface, whose [Lengths] may return
    any two [int]s, have it as the hypothesis [fits].

    Run-time panics (index out of range, the explicit [panic] of [Diff]) are
    results of the error type [Result].  The calls that [Diff] makes to the
    methods [Equal] and [Common] of its argument are recorded, in order, as a
    list of [Event]s. *)

From Stdlib Require Import ZArith List Lia Bool String Ascii Permutation.
Import ListNotations.
Open Scope Z_scope.

Set Implicit Arguments.

(** ** Failures and the two monads *)

Inductive Failure : Type :=
| IndexOutOfRange   (* slice or string index out of range *)
| NegativeLength    (* make with a negative length *)
| NoPathFound       (* panic("diff: no path found") *)
| OutOfFuel.        (* a loop of the model ran out of fuel *)

Inductive Result (A : Type) : Type :=
| Ok (a : A)
| Panic (f : Failure).

Arguments Ok {A} a.
Arguments Panic {A} f.

Definition bindR {A B} (r : Result A) (k : A -> Result B) : Result B :=
  match r with
  | Ok a => k a
  | Panic f => Panic f
  end.

(** A method call made on the [Interface] value. *)
Inductive Event : Type :=
| EvEqual (i j : Z)
| EvCommon (i j n : Z).

(** Computations that may panic and that log the method calls they make. *)
Definition M (A : Type) : Type := Result (A * list Event).

Definition ret {A} (a : A) : M A := Ok (a, []).

Definition tell (evs : list Event) : M unit := Ok (tt, evs).

Definition bindM {A B} (c : M A) (k : A -> M B) : M B :=
  match c with
  | Ok (a, evs) =>
      match k a with
      | Ok (b, evs') => Ok (b, evs ++ evs')
      | Panic f => Panic f
      end
  | Panic f => Panic f
  end.

Declare Scope go_scope.
Delimit Scope go_scope with go.
Notation "x <- c ;; k" := (bindM c (fun x => k))
  (at level 61, c at next level, right associativity) : go_scope.
Notation "' pat <- c ;; k" := (bindM c (fun x => match x with pat => k end))
  (at level 61, pat pattern, c at next level, right associativity) : go_scope.
Notation "x <~ c ;; k" := (bindR c (fun x => k))
  (at level 61, c at next level, right associativity) : go_scope.
Notation "' pat <~ c ;; k" := (bindR c (fun x => match x with pat => k end))
  (at level 61, pat pattern, c at next level, right associativity) : go_scope.
Open Scope go_scope.

(** ** Slices *)

Definition len {X} (l : list X) : Z := Z.of_nat (List.length l).

(** [l[i]]: panics out of range. *)
Definition index {X} (l : list X) (i : Z) : Result X :=
  if i <? 0 then Panic IndexOutOfRange
  else match nth_error l (Z.to_nat i) with
       | Some x => Ok x
       | None => Panic IndexOutOfRange
       end.

Fixpoint assign {X} (i : nat) (x : X) (l : list X) : list X :=
  match l with
  | [] => []
  | h :: t =>
      match i with
      | O => x :: t
      | S i' => h :: assign i' x t
      end
  end.

(** [l[i] = x]: panics out of range. *)
Definition store {X} (l : list X) (i : Z) (x : X) : Result (list X) :=
  if (0 <=? i) && (i <? len l) then Ok (assign (Z.to_nat i) x l)
  else Panic IndexOutOfRange.

(** The elements of [l] from [lo] up to [hi]. *)
Definition part {X} (l : list X) (lo hi : Z) : list X :=
  firstn (Z.to_nat (hi - lo)) (skipn (Z.to_nat lo) l).

(** [l[lo:hi]]: panics unless [0 <= lo <= hi <= len l] (Go allows [hi] up to
    the capacity; the package never slices beyond the length). *)
Definition slice {X} (l : list X) (lo hi : Z) : Result (list X) :=
  if (0 <=? lo) && (lo <=? hi) && (hi <=? len l)
  then Ok (part l lo hi)
  else Panic IndexOutOfRange.

(** [make([]int, L)]. *)
Definition make (L : Z) : Result (list Z) :=
  if L <? 0 then Panic NegativeLength else Ok (repeat 0 (Z.to_nat L)).

(** [copy(dst, src)]: the first [min (len dst) (len src)] elements of [dst]
    are overwritten. *)
Definition copy {X} (dst src : list X) : list X :=
  firstn (List.length dst) src ++ skipn (List.length src) dst.

(** ** The interface

    [Lengths] and [Equal] are the two methods that [Diff] reads results
    from; [Equal] may panic (the adapters index their slices).  [Common]
    returns nothing: the calls to it are recorded as [EvCommon] events and
    replayed on the adapter's state afterwards, see [SideBySide]. *)

Record Interface : Type := {
  Lengths : Z * Z;
  Equal : Z -> Z -> Result bool
}.

Section Engine.

Variable data : Interface.

(** A call [data.Equal(x, y)]. *)
Definition call_equal (x y : Z) : M bool :=
  match Equal data x y with
  | Ok b => Ok (b, [EvEqual x y])
  | Panic f => Panic f
  end.

(** [for x < n && y < m && data.Equal(x, y) { x++; y++ }] *)
Fixpoint snake (fuel : nat) (n m x y : Z) : M (Z * Z) :=
  match fuel with
  | O => Panic OutOfFuel
  | S fuel' =>
      if (x <? n) && (y <? m) then
        b <- call_equal x y ;;
        if b then snake fuel' n m (x + 1) (y + 1) else ret (x, y)
      else ret (x, y)
  end.

(** [k == -d || (k != d && v[K-1] < v[K+1])], evaluated left to right: the
    condition of the [if] in the loop of [Diff] and the value of [insert] in
    [common]. *)
Definition insertion (v : list Z) (d k K : Z) : Result bool :=
  if k =? - d then Ok true
  else if negb (k =? d) then
         a <~ index v (K - 1) ;;
         b <~ index v (K + 1) ;;
         Ok (a <? b)
       else Ok false.

(** Result of the loop over the diagonals of one depth: [Found v] when the
    loop was left through the [if x >= n && y >= m] branch. *)
Inductive Sweep : Type :=
| Found (v : list Z)
| NotFound (v : list Z).

(** [for k := -d; k <= d; k += 2 { ... }].  ([len(v)] is not negative, so
    that [len(v)/2] rounds as [/] on [Z] does.) *)
Fixpoint diagonals (fuel : nat) (n m d k : Z) (v : list Z) : M Sweep :=
  match fuel with
  | O => Panic OutOfFuel
  | S fuel' =>
      if k <=? d then
        let K := len v / 2 + k in
        x <~ (ins <~ insertion v d k K ;;
              if ins : bool then index v (K + 1)
              else a <~ index v (K - 1) ;; Ok (a + 1)) ;;
        let y := x - k in
        ' (x, y) <- snake (S (Z.to_nat (n - x))) n m x y ;;
        v <~ store v K x ;;
        if (n <=? x) && (m <=? y) then ret (Found v)
        else diagonals fuel' n m d (k + 2) v
      else ret (NotFound v)
  end.

(** [for d := 0; d <= m+n; d++ { ... }  panic("diff: no path found")].
    The result is [vs] as it is after [vs = append(vs, v)] in the branch
    [if x >= n && y >= m]; the two statements that follow it there,
    [common(data, vs, n, m, len(vs)-1)] and [return len(vs) - 1], are in
    [Diff] below. *)
Fixpoint search (fuel : nat) (n m d : Z) (vs : list (list Z)) : M (list (list Z)) :=
  match fuel with
  | O => Panic OutOfFuel
  | S fuel' =>
      if d <=? m + n then
        v <~ (v <~ make (2 * (n + m) + 3) ;;
              if d =? 0 then store v 1 0
              else p <~ index vs (d - 1) ;; Ok (copy v p)) ;;
        r <- diagonals (Z.to_nat d + 2) n m d (- d) v ;;
        match r with
        | Found v => ret (vs ++ [v])
        | NotFound v => search fuel' n m (d + 1) (vs ++ [v])
        end
      else Panic NoPathFound
  end.

(** The first half of [common]: the step that led to [(x1, y1)] at depth
    [d].  Returns [(x, y, xm)]. *)
Definition previous (vs : list (list Z)) (x1 y1 d : Z) : Result (Z * Z * Z) :=
  v <~ index vs d ;;
  let k := x1 - y1 in
  let K := len v / 2 + k in
  ins <~ insertion v d k K ;;
  if ins : bool then
    x <~ index v (K + 1) ;; Ok (x, x - (k + 1), x)
  else
    x <~ index v (K - 1) ;; Ok (x, x - (k - 1), x + 1).

(** The last statement of [common]:
    [if n := x1 - xm; n > 0 || d == len(vs)-1 { data.Common(xm, y1-n, n) }] *)
Definition report (vs : list (list Z)) (x1 y1 xm d : Z) : M unit :=
  let n := x1 - xm in
  if (n >? 0) || (d =? len vs - 1) then tell [EvCommon xm (y1 - n) n]
  else ret tt.

Fixpoint common (fuel : nat) (vs : list (list Z)) (x1 y1 d : Z) : M unit :=
  match fuel with
  | O => Panic OutOfFuel
  | S fuel' =>
      ' (x, y, xm) <~ previous vs x1 y1 d ;;
      _ <- (if d >? 0 then common fuel' vs x y (d - 1) else ret tt) ;;
      report vs x1 y1 xm d
  end.

Definition Diff : M Z :=
  let (n, m) := Lengths data in
  vs <- search (Z.to_nat (m + n) + 2) n m 0 [] ;;
  _ <- common (S (Z.to_nat (len vs - 1))) vs n m (len vs - 1) ;;
  ret (len vs - 1).

End Engine.

(** ** Sequences as interfaces

    All adapters of the package wrap two slices and compare their elements:
    [Lengths] returns the two lengths and [Equal(i, j)] compares [a[i]] with
    [b[j]], panicking out of range. *)

Definition slices {X Y} (eqb : X -> Y -> bool) (a : list X) (b : list Y) : Interface :=
  {| Lengths := (len a, len b);
     Equal := fun i j => x <~ index a i ;; y <~ index b j ;; Ok (eqb x y) |}.

(** The [Common] calls of a log, in order. *)
Definition Call : Type := Z * Z * Z.

Fixpoint commons (evs : list Event) : list Call :=
  match evs with
  | [] => []
  | EvEqual _ _ :: r => commons r
  | EvCommon i j n :: r => (i, j, n) :: commons r
  end.

Definition call_event (c : Call) : Event :=
  let '(i, j, n) := c in EvCommon i j n.

(** The [Equal] calls of a log, in order. *)
Fixpoint queries (evs : list Event) : list (Z * Z) :=
  match evs with
  | [] => []
  | EvEqual i j :: r => (i, j) :: queries r
  | EvCommon _ _ _ :: r => queries r
  end.


(** Replaying the [Common] calls on the state of an adapter. *)
Fixpoint replay {S} (handler : S -> Call -> Result S) (cs : list Call) (s : S) : Result S :=
  match cs with
  | [] => Ok s
  | c :: r => s' <~ handler s c ;; replay handler r s'
  end.

(** ** Side-by-side diff *)

Definition NoChange : Z := 0.
Definition Added : Z := 1.
Definition Deleted : Z := 2.
Definition Changed : Z := 3.

Record SideBySideLine : Type := {
  Left : string;
  Right : string;
  Type' : Z
}.

Record sideBySide : Type := {
  sbs_a : list string;
  sbs_b : list string;
  sbs_i : Z;
  sbs_j : Z;
  sbs_lines : list SideBySideLine
}.

Definition sbs_interface (d : sideBySide) : Interface :=
  slices String.eqb (sbs_a d) (sbs_b d).

(** [for d.i < i || d.j < j { ... }] *)
Fixpoint sbs_gap (fuel : nat) (d : sideBySide) (i j : Z) : Result sideBySide :=
  match fuel with
  | O => Panic OutOfFuel
  | S fuel' =>
      if (sbs_i d <? i) || (sbs_j d <? j) then
        let ty := if sbs_i d >=? i then Added
                  else if sbs_j d >=? j then Deleted
                  else Changed in
        ' (l, i') <~ (if sbs_i d <? i
                      then x <~ index (sbs_a d) (sbs_i d) ;; Ok (x, sbs_i d + 1)
                      else Ok (EmptyString, sbs_i d)) ;;
        ' (r, j') <~ (if sbs_j d <? j
                      then y <~ index (sbs_b d) (sbs_j d) ;; Ok (y, sbs_j d + 1)
                      else Ok (EmptyString, sbs_j d)) ;;
        sbs_gap fuel'
          {| sbs_a := sbs_a d; sbs_b := sbs_b d; sbs_i := i'; sbs_j := j';
             sbs_lines := sbs_lines d ++ [{| Left := l; Right := r; Type' := ty |}] |}
          i j
      else Ok d
  end.

(** [for ; n > 0; n-- { ... }] *)
Fixpoint sbs_run (fuel : nat) (d : sideBySide) (n : Z) : Result sideBySide :=
  match fuel with
  | O => Panic OutOfFuel
  | S fuel' =>
      if n >? 0 then
        l <~ index (sbs_a d) (sbs_i d) ;;
        r <~ index (sbs_b d) (sbs_j d) ;;
        sbs_run fuel'
          {| sbs_a := sbs_a d; sbs_b := sbs_b d;
             sbs_i := sbs_i d + 1; sbs_j := sbs_j d + 1;
             sbs_lines := sbs_lines d ++ [{| Left := l; Right := r; Type' := NoChange |}] |}
          (n - 1)
      else Ok d
  end.

Definition sbs_Common (d : sideBySide) (c : Call) : Result sideBySide :=
  let '(i, j, n) := c in
  d <~ sbs_gap (S (Z.to_nat (i - sbs_i d) + Z.to_nat (j - sbs_j d))) d i j ;;
  sbs_run (S (Z.to_nat n)) d n.

(** [Equal] reads the fields [a] and [b] only, which [Common] leaves alone:
    running the [Common] calls after [Diff] has returned gives the state that
    running them inside [Diff] gives. *)
Definition SideBySide (a b : list string) : Result (list SideBySideLine) :=
  let d := {| sbs_a := a; sbs_b := b; sbs_i := 0; sbs_j := 0; sbs_lines := [] |} in
  ' (_, evs) <~ Diff (sbs_interface d) ;;
  d <~ replay sbs_Common (commons evs) d ;;
  Ok (sbs_lines d).

(** ** Annotated diff *)

Record AnnotatedLine : Type := {
  Text : string;
  Version : Z
}.

Record annotate : Type := {
  ann_a : list AnnotatedLine;
  ann_b : list string;
  ann_j : Z;
  ann_version : Z;
  ann_lines : list AnnotatedLine
}.

Definition ann_interface (d : annotate) : Interface :=
  slices (fun l s => String.eqb (Text l) s) (ann_a d) (ann_b d).

(** [for d.j < j { ... }] *)
Fixpoint ann_gap (fuel : nat) (d : annotate) (j : Z) : Result annotate :=
  match fuel with
  | O => Panic OutOfFuel
  | S fuel' =>
      if ann_j d <? j then
        t <~ index (ann_b d) (ann_j d) ;;
        ann_gap fuel'
          {| ann_a := ann_a d; ann_b := ann_b d; ann_j := ann_j d + 1;
             ann_version := ann_version d;
             ann_lines := ann_lines d ++ [{| Text := t; Version := ann_version d |}] |}
          j
      else Ok d
  end.

Definition ann_Common (d : annotate) (c : Call) : Result annotate :=
  let '(i, j, n) := c in
  d <~ ann_gap (S (Z.to_nat (j - ann_j d))) d j ;;
  part <~ slice (ann_a d) i (i + n) ;;
  Ok {| ann_a := ann_a d; ann_b := ann_b d; ann_j := ann_j d + n;
        ann_version := ann_version d;
        ann_lines := ann_lines d ++ part |}.

Definition Annotate (a : list AnnotatedLine) (b : list string) (version : Z)
  : Result (list AnnotatedLine) :=
  let d := {| ann_a := a; ann_b := b; ann_j := 0; ann_version := version;
              ann_lines := [] |} in
  ' (_, evs) <~ Diff (ann_interface d) ;;
  d <~ replay ann_Common (commons evs) d ;;
  Ok (ann_lines d).

(** ** The adapter of the package's test *)

Record stringDiff : Type := {
  sd_a : string;
  sd_b : string;
  lcsa : list string;
  lcsb : list string
}.

(** [s[i]], a byte. *)
Definition byte_at (s : string) (i : Z) : Result ascii :=
  if i <? 0 then Panic IndexOutOfRange
  else match String.get (Z.to_nat i) s with
       | Some c => Ok c
       | None => Panic IndexOutOfRange
       end.

(** [s[lo:hi]] *)
Definition substr (s : string) (lo hi : Z) : Result string :=
  if (0 <=? lo) && (lo <=? hi) && (hi <=? Z.of_nat (String.length s))
  then Ok (substring (Z.to_nat lo) (Z.to_nat (hi - lo)) s)
  else Panic IndexOutOfRange.

Definition sd_interface (d : stringDiff) : Interface :=
  {| Lengths := (Z.of_nat (String.length (sd_a d)), Z.of_nat (String.length (sd_b d)));
     Equal := fun i j =>
       x <~ byte_at (sd_a d) i ;; y <~ byte_at (sd_b d) j ;; Ok (Ascii.eqb x y) |}.

Definition sd_Common (d : stringDiff) (c : Call) : Result stringDiff :=
  let '(i, j, n) := c in
  l <~ substr (sd_a d) i (i + n) ;;
  r <~ substr (sd_b d) j (j + n) ;;
  Ok {| sd_a := sd_a d; sd_b := sd_b d; lcsa := lcsa d ++ [l]; lcsb := lcsb d ++ [r] |}.

(** The body of the loop of [TestDiff]: the number of edits and the final
    [lcsa] and [lcsb]. *)
Definition run_stringDiff (a b : string) : Result (Z * list string * list string) :=
  let d := {| sd_a := a; sd_b := b; lcsa := []; lcsb := [] |} in
  ' (edits, evs) <~ Diff (sd_interface d) ;;
  d <~ replay sd_Common (commons evs) d ;;
  Ok (edits, lcsa d, lcsb d).

(** ** Lists of [Common] calls *)

(** The position after the last call of [cs], [p] when there is none. *)
Fixpoint cursor (p : Z * Z) (cs : list Call) : Z * Z :=
  match cs with
  | [] => p
  | (i, j, c) :: r => cursor (i + c, j + c) r
  end.

(** The number of elements reported as common. *)
Fixpoint total (cs : list Call) : Z :=
  match cs with
  | [] => 0
  | (_, _, c) :: r => c + total r
  end.

(** Every call starts at or after the end [(pi, pj)] of the call before it,
    on both sides, and at least [gap] elements lie between the two. *)
Fixpoint ordered (gap pi pj : Z) (cs : list Call) : Prop :=
  match cs with
  | [] => True
  | (i, j, c) :: r =>
      pi <= i /\ pj <= j /\ pi + pj + gap <= i + j /\ 0 <= c /\
      ordered 1 (i + c) (j + c) r
  end.

Definition positive (c : Call) : Prop := let '(_, _, n) := c in 0 < n.

(** The runs [(start, length)] of [l] with the elements between them:
    from position [pos], the gap before each run and then the run. *)
Fixpoint interleave {X} (l : list X) (pos : Z) (runs : list (Z * Z)) : list X :=
  match runs with
  | [] => []
  | (i, c) :: r => part l pos i ++ part l i (i + c) ++ interleave l (i + c) r
  end.

Definition left_runs (cs : list Call) : list (Z * Z) :=
  map (fun c : Call => let '(i, _, n) := c in (i, n)) cs.

Definition right_runs (cs : list Call) : list (Z * Z) :=
  map (fun c : Call => let '(_, j, n) := c in (j, n)) cs.

(** [lo, lo+1, ..., hi-1] *)
Definition range (lo hi : Z) : list Z :=
  map (fun t => lo + Z.of_nat t) (seq 0 (Z.to_nat (hi - lo))).

(** The pairs of indices of the elements reported as common. *)
Definition matched_pairs (cs : list Call) : list (Z * Z) :=
  flat_map (fun c : Call => let '(i, j, n) := c in
                            map (fun t => (i + t, j + t)) (range 0 n)) cs.

Definition swap (p : Z * Z) : Z * Z := (snd p, fst p).

(** * The edit graph

    The points are the pairs [(x, y)] of natural numbers; a step to the right
    deletes [left[x]], a step down inserts [right[y]], and a diagonal step is
    possible from [(x, y)] when [x < n], [y < m] and the two elements are
    equal.  As in the code, steps to the right and down are not stopped at
    [x = n] or [y = m]. *)

Ltac arith := Z.div_mod_to_equations; lia.

Section EditGraph.

Variables n m : Z.
Variable eq : Z -> Z -> bool.

(** What the loop [snake] computes: the end of the diagonal run that starts
    at [(x, y)]. *)
Fixpoint run (fuel : nat) (x y : Z) : Z :=
  match fuel with
  | O => x
  | S fuel' =>
      if (x <? n) && (y <? m) && eq x y then run fuel' (x + 1) (y + 1) else x
  end.

Definition slide (x y : Z) : Z := run (Z.to_nat (n - x)) x y.

(** The [j] elements from [(x, y)] on are pairwise equal. *)
Definition matching (x y j : Z) : Prop :=
  forall t, 0 <= t < j -> x + t < n /\ y + t < m /\ eq (x + t) (y + t) = true.

(** The test of the [insert] branch, on the values [prev] of the previous
    depth. *)
Definition down_of (prev : Z -> Z) (d k : Z) : bool :=
  (k =? - d) || (negb (k =? d) && (prev (k - 1) <? prev (k + 1))).

Definition start_of (prev : Z -> Z) (d k : Z) : Z :=
  if down_of prev d k then prev (k + 1) else prev (k - 1) + 1.

(** [furthest d k] is the value that the code stores for diagonal [k] at
    depth [d]. *)
Fixpoint furthest (d : nat) (k : Z) : Z :=
  let prev := match d with O => fun _ => 0 | S d' => furthest d' end in
  let x := start_of prev (Z.of_nat d) k in
  slide x (x - k).

Definition before (d : nat) : Z -> Z :=
  match d with O => fun _ => 0 | S d' => furthest d' end.

Definition down (d : nat) (k : Z) : bool := down_of (before d) (Z.of_nat d) k.

Definition start (d : nat) (k : Z) : Z := start_of (before d) (Z.of_nat d) k.

(** The exit test [x >= n && y >= m] on diagonal [k] at depth [d]. *)
Definition hit (d : nat) (k : Z) : bool :=
  (n <=? furthest d k) && (m <=? furthest d k - k).

(** The diagonals that the loop visits at depth [d]. *)
Definition diag (d : nat) (k : Z) : Prop :=
  - Z.of_nat d <= k <= Z.of_nat d /\ (k + Z.of_nat d) mod 2 = 0.

(** [reach d x y]: there is a path from [(0, 0)] to [(x, y)] with exactly [d]
    steps to the right or down. *)
Inductive reach : nat -> Z -> Z -> Prop :=
| reach_origin : reach O 0 0
| reach_right d x y : reach d x y -> reach (S d) (x + 1) y
| reach_down d x y : reach d x y -> reach (S d) x (y + 1)
| reach_diag d x y :
    reach d x y -> x < n -> y < m -> eq x y = true -> reach d (x + 1) (y + 1).

(** What [common] reports from depth [d], diagonal [k], when the search ended
    at depth [D]. *)
Fixpoint backtrace (D : Z) (d : nat) (k : Z) : list Call :=
  match d with
  | O => []
  | S d' => backtrace D d' (if down d k then k + 1 else k - 1)
  end ++
  let c := furthest d k - start d k in
  if (c >? 0) || (Z.of_nat d =? D) then [(start d k, furthest d k - k - c, c)]
  else [].

(** A reported run: inside the sequences, of equal elements, and not
    followed by a further pair of equal elements. *)
Definition run_ok (c : Call) : Prop :=
  let '(i, j, c) := c in
  0 <= i /\ 0 <= j /\ matching i j c /\
  ~ (i + c < n /\ j + c < m /\ eq (i + c) (j + c) = true).

(** ** Invariants of the search *)

(** The events of the search: calls to [Equal], inside the two sequences. *)
Definition in_range (e : Event) : Prop :=
  match e with
  | EvEqual x y => 0 <= x < n /\ 0 <= y < m
  | EvCommon _ _ _ => False
  end.

(** The slice [v] of depth [d] has the values of the previous depth at the
    places that the code reads: the zero of the fresh slice next to the
    middle at depth 0, the furthest points of depth [d-1] after [copy]. *)
Definition holds_before (d : nat) (v : list Z) : Prop :=
  len v = 2 * (n + m) + 3 /\
  match d with
  | O => index v (n + m + 2) = Ok 0
  | S d' => forall k, diag d' k -> index v (n + m + 1 + k) = Ok (furthest d' k)
  end.

(** Diagonals below [k] have been visited at depth [d]. *)
Definition visited (d : nat) (k : Z) (v : list Z) : Prop :=
  forall k', diag d k' -> k' < k -> index v (n + m + 1 + k') = Ok (furthest d k').

(** The exit test failed at all depths below [d], and at depth [d] on the
    diagonals below [k]. *)
Definition no_hit (d : nat) (k : Z) : Prop :=
  (forall d' k', (d' < d)%nat -> diag d' k' -> hit d' k' = false) /\
  (forall k', diag d k' -> k' < k -> hit d k' = false).

Definition snapshots (vs : list (list Z)) : Prop :=
  forall d : nat, (d < List.length vs)%nat ->
    exists v, nth_error vs d = Some v /\ holds_before d v.

End EditGraph.

(** The function that [Equal] computes, for the statements about the edit
    graph. *)
Definition equal_of (data : Interface) (x y : Z) : bool :=
  match Equal data x y with
  | Ok b => b
  | Panic _ => false
  end.

(** A well-behaved implementation: the lengths are not negative and [Equal]
    returns on all pairs of indices inside the two sequences.  ([Equal] is a
    function: it is deterministic.) *)
Definition well_behaved (data : Interface) : Prop :=
  0 <= fst (Lengths data) /\ 0 <= snd (Lengths data) /\
  forall x y, 0 <= x < fst (Lengths data) -> 0 <= y < snd (Lengths data) ->
    exists b, Equal data x y = Ok b.

(** Go's [int] on the 64-bit platforms: the values that [Lengths] can
    return. *)
Definition max_int : Z := 2 ^ 63 - 1.
Definition min_int : Z := - 2 ^ 63.

Definition is_int (z : Z) : Prop := min_int <= z <= max_int.

(** The largest length that [make([]int, _)] accepts there: the 8 bytes of
    every element have to lie in the [2 ^ 48] bytes that the heap can
    address; [make] panics beyond it.  (Whether the memory is there is
    another matter, which the model leaves out as it does for every other
    slice.) *)
Definition max_len : Z := 2 ^ 45.

(** The lengths are small enough for the search: [make] accepts the length
    [2*(n+m)+3] of the slice of every depth.  That length is then an [int],
    and so are [m+n] and, for lengths that are not negative, all the numbers
    that [Diff] and [common] compute: the model in [Z] computes what the
    code does.  At [Lengths() = (2^62, 2^62)] this fails: [m+n] wraps
    around to a negative [int] in the code, the loop is not entered and
    [Diff] panics. *)
Definition fits (data : Interface) : Prop :=
  2 * (fst (Lengths data) + snd (Lengths data)) + 3 <= max_len.

(** * Longest common subsequences and edit scripts *)

Section Sequences.

Context {X Y : Type}.
Variable eqb : X -> Y -> bool.

(** The reference computation of the length of a longest common
    subsequence, by the recurrence of the dynamic-programming table. *)
Fixpoint lcs (a : list X) (b : list Y) : nat :=
  match a with
  | [] => O
  | x :: a' =>
      (fix row (b : list Y) : nat :=
         match b with
         | [] => O
         | y :: b' =>
             if eqb x y then S (lcs a' b')
             else Nat.max (lcs a' b) (row b')
         end) b
  end.

(** [alignment a b d]: [a] and [b] can be aligned, pairing equal elements
    in order, so that [d] elements in all are left unpaired. *)
Inductive alignment : list X -> list Y -> nat -> Prop :=
| align_nil : alignment [] [] O
| align_delete x a b d : alignment a b d -> alignment (x :: a) b (S d)
| align_insert y a b d : alignment a b d -> alignment a (y :: b) (S d)
| align_keep x y a b d :
    eqb x y = true -> alignment a b d -> alignment (x :: a) (y :: b) d.

End Sequences.

(** Edit scripts: keep the next element, delete it, or insert an element. *)
Inductive Edit (X : Type) : Type :=
| Keep
| Delete
| Insert (x : X).

Arguments Keep {X}.
Arguments Delete {X}.
Arguments Insert {X} x.

Fixpoint apply_edits {X} (s : list (Edit X)) (a : list X) : option (list X) :=
  match s, a with
  | [], [] => Some []
  | [], _ :: _ => None
  | Keep :: s', x :: a' => option_map (cons x) (apply_edits s' a')
  | Keep :: _, [] => None
  | Delete :: s', _ :: a' => apply_edits s' a'
  | Delete :: _, [] => None
  | Insert y :: s', _ => option_map (cons y) (apply_edits s' a)
  end.

(** The number of insertions and deletions of a script. *)
Fixpoint cost {X} (s : list (Edit X)) : nat :=
  match s with
  | [] => O
  | Keep :: s' => cost s'
  | _ :: s' => S (cost s')
  end.

(** The equality test of a type with decidable equality. *)
Definition eqb_of {X} (dec : forall x y : X, {x = y} + {x <> y}) (x y : X) : bool :=
  if dec x y then true else false.

(** The pairs of indices that [Diff] reports as common for [a] and [b]. *)
Definition pairs_of {X Y} (eqb : X -> Y -> bool) (a : list X) (b : list Y)
  : list (Z * Z) :=
  match Diff (slices eqb a b) with
  | Ok (_, evs) => matched_pairs (commons evs)
  | Panic _ => []
  end.

(** The arguments [(x1, y1)] with which the recursion of [common], entered
    with [(x1, y1, d)], arrives at depth 0. *)
Fixpoint descend (fuel : nat) (vs : list (list Z)) (x1 y1 d : Z) : Result (Z * Z) :=
  match fuel with
  | O => Panic OutOfFuel
  | S fuel' =>
      if d >? 0 then
        ' (x, y, _) <~ previous vs x1 y1 d ;;
        descend fuel' vs x y (d - 1)
      else Ok (x1, y1)
  end.

(** The invocation of [common] at depth 0 in the run of [Diff], the last of
    the recursion and the first to reach its [if] statement: the calls of
    [Common] that it makes. *)
Definition innermost (data : Interface) : M unit :=
  let (n, m) := Lengths data in
  ' (vs, _) <~ search data (Z.to_nat (m + n) + 2) n m 0 [] ;;
  ' (x, y) <~ descend (S (Z.to_nat (len vs - 1))) vs n m (len vs - 1) ;;
  common 1 vs x y 0.

(** * The derived views, from the words of the specification *)

Definition text_at (l : list string) (i : Z) : string :=
  nth (Z.to_nat i) l EmptyString.

(** The lines for the unmatched rows [i0 .. i-1] of the left and
    [j0 .. j-1] of the right sequence: the rows are paired one to one and
    marked as changed while both sides have rows; the rows that remain on
    the left alone are marked as deleted, those that remain on the right
    alone as added. *)
Definition expected_gap (a b : list string) (i0 j0 i j : Z) : list SideBySideLine :=
  let p := Z.min (i - i0) (j - j0) in
  map (fun t => {| Left := text_at a (i0 + t); Right := text_at b (j0 + t);
                   Type' := Changed |}) (range 0 p) ++
  map (fun x => {| Left := text_at a x; Right := EmptyString;
                   Type' := Deleted |}) (range (i0 + p) i) ++
  map (fun y => {| Left := EmptyString; Right := text_at b y;
                   Type' := Added |}) (range (j0 + p) j).

(** One unchanged line for every row of a matched run. *)
Definition expected_run (a b : list string) (i j n : Z) : list SideBySideLine :=
  map (fun t => {| Left := text_at a (i + t); Right := text_at b (j + t);
                   Type' := NoChange |}) (range 0 n).

(** The table for the runs [cs], from the rows [i0] and [j0] on. *)
Fixpoint expected_table (a b : list string) (i0 j0 : Z) (cs : list Call)
  : list SideBySideLine :=
  match cs with
  | [] => []
  | (i, j, n) :: r =>
      expected_gap a b i0 j0 i j ++ expected_run a b i j n ++
      expected_table a b (i + n) (j + n) r
  end.

(** The annotated lines for the runs [cs], from row [j0] of [b] on: the
    rows of [b] before a run are new and get [version]; the rows of a run
    are the lines of [a], with the versions that they have there. *)
Fixpoint expected_annotation (a : list AnnotatedLine) (b : list string)
    (version j0 : Z) (cs : list Call) : list AnnotatedLine :=
  match cs with
  | [] => []
  | (i, j, n) :: r =>
      map (fun y => {| Text := text_at b y; Version := version |}) (range j0 j) ++
      part a i (i + n) ++
      expected_annotation a b version (j + n) r
  end.

(** * Further notions for the properties of the package *)

(** [subseq s l]: [s] is [l] with some elements left out. *)
Inductive subseq {X : Type} : list X -> list X -> Prop :=
| subseq_nil l : subseq [] l
| subseq_skip s x l : subseq s l -> subseq s (x :: l)
| subseq_take s x l : subseq s l -> subseq (x :: s) (x :: l).

(** The elements of [l] inside the runs [(start, length)], in order. *)
Definition common_part {X} (l : list X) (runs : list (Z * Z)) : list X :=
  flat_map (fun r : Z * Z => part l (fst r) (fst r + snd r)) runs.

(** The left column of a side-by-side table: the left texts of the lines
    that have a left row (all but the added ones); likewise the right
    column. *)
Definition left_column (lines : list SideBySideLine) : list string :=
  map Left (filter (fun l => negb (Type' l =? Added)) lines).

Definition right_column (lines : list SideBySideLine) : list string :=
  map Right (filter (fun l => negb (Type' l =? Deleted)) lines).

(** What the type of a line of a side-by-side table says of its texts: an
    unchanged line has the same text on both sides, a changed line has two
    different texts, an added line has no left text and a deleted line no
    right text. *)
Definition line_agrees (l : SideBySideLine) : Prop :=
  (Type' l = NoChange /\ Left l = Right l) \/
  (Type' l = Changed /\ Left l <> Right l) \/
  (Type' l = Added /\ Left l = EmptyString) \/
  (Type' l = Deleted /\ Right l = EmptyString).

(** The unchanged lines of a side-by-side table. *)
Definition unchanged (lines : list SideBySideLine) : list SideBySideLine :=
  filter (fun l => Type' l =? NoChange) lines.

(** The array that a sweep over the diagonals leaves. *)
Definition swept (r : Sweep) : list Z :=
  match r with Found v => v | NotFound v => v end.

(** A small input for the examples: the byte sequences "ab" and "ba". *)
Definition sample : Interface :=
  slices Ascii.eqb ["a"; "b"]%char ["b"; "a"]%char.

(** * Facts about the edit graph *)

Section EditGraphFacts.

Variables n m : Z.
Variable eq : Z -> Z -> bool.
Hypothesis Hn : 0 <= n.
Hypothesis Hm : 0 <= m.

Local Abbreviation run := (run n m eq).
Local Abbreviation slide := (slide n m eq).
Local Abbreviation matching := (matching n m eq).
Local Abbreviation furthest := (furthest n m eq).
Local Abbreviation before := (before n m eq).
Local Abbreviation down := (down n m eq).
Local Abbreviation start := (start n m eq).
Local Abbreviation hit := (hit n m eq).
Local Abbreviation reach := (reach n m eq).
Local Abbreviation backtrace := (backtrace n m eq).

Lemma run_spec fuel : forall x y,
  (Z.to_nat (n - x) <= fuel)%nat ->
  x <= run fuel x y /\
  matching x y (run fuel x y - x) /\
  ~ (run fuel x y < n /\ run fuel x y - x + y < m /\
     eq (run fuel x y) (run fuel x y - x + y) = true).
Proof.
  induction fuel as [|fuel IH]; intros x y Hfuel; simpl.
  - split; [lia|]. split; [intros t Ht; lia|]. lia.
  - destruct ((x <? n) && (y <? m) && eq x y) eqn:E.
    + apply andb_prop in E. destruct E as [E Heq].
      apply andb_prop in E. destruct E as [Hx Hy].
      apply Z.ltb_lt in Hx. apply Z.ltb_lt in Hy.
      destruct (IH (x + 1) (y + 1)) as (Hle & Hmat & Hstop); [lia|].
      split; [lia|]. split.
      * intros t Ht. destruct (Z.eq_dec t 0) as [->|Hne].
        -- rewrite !Z.add_0_r. auto.
        -- specialize (Hmat (t - 1)).
           replace (x + 1 + (t - 1)) with (x + t) in Hmat by lia.
           replace (y + 1 + (t - 1)) with (y + t) in Hmat by lia.
           apply Hmat. lia.
      * replace (run fuel (x + 1) (y + 1) - x + y)
          with (run fuel (x + 1) (y + 1) - (x + 1) + (y + 1)) by lia.
        exact Hstop.
    + split; [lia|]. split; [intros t Ht; lia|].
      replace (x - x + y) with y by lia.
      intros (Hx & Hy & Heq).
      apply Z.ltb_lt in Hx. apply Z.ltb_lt in Hy.
      rewrite Hx, Hy, Heq in E. discriminate.
Qed.

Lemma slide_ge x y : x <= slide x y.
Proof. apply run_spec. reflexivity. Qed.

Lemma slide_matching x y : matching x y (slide x y - x).
Proof. apply run_spec. reflexivity. Qed.

Lemma slide_stop x y :
  ~ (slide x y < n /\ slide x y - x + y < m /\
     eq (slide x y) (slide x y - x + y) = true).
Proof. apply run_spec. reflexivity. Qed.

(** A run of equal elements that starts at or before [x] on the diagonal of
    [(x, y)] does not end beyond the point that [slide] returns. *)
Lemma slide_furthest x y z j :
  matching z (z - x + y) j -> z <= x -> z + j <= slide x y.
Proof.
  intros Hmat Hz.
  destruct (Z_le_gt_dec (z + j) (slide x y)) as [|Hgt]; [assumption|].
  exfalso. pose proof (slide_ge x y) as Hge.
  apply (slide_stop x y).
  destruct (Hmat (slide x y - z)) as (H1 & H2 & H3); [lia|].
  replace (z + (slide x y - z)) with (slide x y) in * by lia.
  replace (z - x + y + (slide x y - z)) with (slide x y - x + y) in * by lia.
  auto.
Qed.

Lemma furthest_eq d k : furthest d k = slide (start d k) (start d k - k).
Proof. destruct d; reflexivity. Qed.

Lemma matching_extend x y j :
  matching x y j -> x + j < n -> y + j < m -> eq (x + j) (y + j) = true ->
  matching x y (j + 1).
Proof.
  intros Hmat Hx Hy He t Ht.
  destruct (Z.eq_dec t j) as [->|Hne]; [auto|]. apply Hmat. lia.
Qed.

Lemma reach_matching d x y (j : nat) :
  reach d x y -> matching x y (Z.of_nat j) ->
  reach d (x + Z.of_nat j) (y + Z.of_nat j).
Proof.
  intros Hr. induction j as [|j IH]; intros Hmat.
  - rewrite !Z.add_0_r. exact Hr.
  - replace (x + Z.of_nat (S j)) with (x + Z.of_nat j + 1) by lia.
    replace (y + Z.of_nat (S j)) with (y + Z.of_nat j + 1) by lia.
    destruct (Hmat (Z.of_nat j)) as (H1 & H2 & H3); [lia|].
    apply reach_diag; auto.
    apply IH. intros t Ht. apply Hmat. lia.
Qed.

Lemma reach_slide d x y : reach d x y -> reach d (slide x y) (slide x y - x + y).
Proof.
  intros Hr. pose proof (slide_ge x y) as Hge.
  pose proof (slide_matching x y) as Hmat.
  replace (slide x y) with (x + Z.of_nat (Z.to_nat (slide x y - x))) at 1 by lia.
  replace (slide x y - x + y) with (y + Z.of_nat (Z.to_nat (slide x y - x))) by lia.
  apply reach_matching; [exact Hr|].
  rewrite Z2Nat.id by lia. exact Hmat.
Qed.

Lemma reach_bounds d x y : reach d x y -> 0 <= x /\ 0 <= y /\ diag d (x - y).
Proof.
  induction 1; unfold diag in *; arith.
Qed.

(** The two ways in which the code picks the point from which it slides. *)
Lemma start_cases d k :
  diag d k ->
  (down d k = true /\ start d k = before d (k + 1) /\
   ((d = O /\ k = 0) \/
    (exists d', d = S d' /\ diag d' (k + 1) /\
       (k = - Z.of_nat d \/ (diag d' (k - 1) /\ before d (k - 1) < before d (k + 1))))))
  \/
  (down d k = false /\ start d k = before d (k - 1) + 1 /\
   exists d', d = S d' /\ diag d' (k - 1) /\
     (k = Z.of_nat d \/ (diag d' (k + 1) /\ before d (k + 1) <= before d (k - 1)))).
Proof.
  intros Hd. unfold start, start_of, down, down_of.
  destruct (k =? - Z.of_nat d) eqn:E1; cbn [orb andb negb].
  - apply Z.eqb_eq in E1. left. split; [reflexivity|]. split; [reflexivity|].
    destruct d as [|d'].
    + left. unfold diag in Hd. split; [reflexivity|lia].
    + right. exists d'. split; [reflexivity|]. unfold diag in *. split; [arith|].
      left. lia.
  - apply Z.eqb_neq in E1.
    destruct d as [|d']; [unfold diag in Hd; lia|].
    destruct (k =? Z.of_nat (S d')) eqn:E2; cbn [orb andb negb].
    + apply Z.eqb_eq in E2. right. split; [reflexivity|]. split; [reflexivity|].
      exists d'. split; [reflexivity|]. unfold diag in *. split; [arith|]. left. lia.
    + apply Z.eqb_neq in E2.
      assert (diag d' (k - 1) /\ diag d' (k + 1)) as [D1 D2]
        by (unfold diag in *; arith).
      destruct (before (S d') (k - 1) <? before (S d') (k + 1)) eqn:E3.
      * apply Z.ltb_lt in E3. left. split; [reflexivity|]. split; [reflexivity|].
        right. exists d'. split; [reflexivity|]. split; [assumption|]. right. auto.
      * apply Z.ltb_ge in E3. right. split; [reflexivity|]. split; [reflexivity|].
        exists d'. split; [reflexivity|]. split; [assumption|]. right. auto.
Qed.

(** Soundness: the stored value is the end of a path with [d] edits. *)
Lemma start_reach d :
  (forall k, diag d k -> reach d (start d k) (start d k - k)) /\
  (forall k, diag d k -> reach d (furthest d k) (furthest d k - k)).
Proof.
  induction d as [|d IH].
  - assert (forall k, diag O k -> reach O (start O k) (start O k - k)) as H.
    { intros k Hd. assert (k = 0) by (unfold diag in Hd; lia). subst k.
      change (start O 0) with 0. apply reach_origin. }
    split; [exact H|]. intros k Hd. rewrite furthest_eq.
    replace (slide (start O k) (start O k - k) - k)
      with (slide (start O k) (start O k - k) - start O k + (start O k - k)) by lia.
    apply reach_slide. auto.
  - destruct IH as [_ IH].
    assert (forall k, diag (S d) k -> reach (S d) (start (S d) k) (start (S d) k - k)) as H.
    { intros k Hd.
      destruct (start_cases Hd) as [(_ & -> & [[? _]|(d' & E & D1 & _)])
                                   |(_ & -> & d' & E & D1 & _)];
        try discriminate; injection E as <-; simpl before.
      - replace (furthest d (k + 1) - k) with (furthest d (k + 1) - (k + 1) + 1) by lia.
        apply reach_down. auto.
      - replace (furthest d (k - 1) + 1 - k) with (furthest d (k - 1) - (k - 1)) by lia.
        apply reach_right. auto. }
    split; [exact H|]. intros k Hd. rewrite furthest_eq.
    replace (slide (start (S d) k) (start (S d) k - k) - k)
      with (slide (start (S d) k) (start (S d) k - k) - start (S d) k
            + (start (S d) k - k)) by lia.
    apply reach_slide. auto.
Qed.

Lemma furthest_reach d k : diag d k -> reach d (furthest d k) (furthest d k - k).
Proof. apply start_reach. Qed.

(** A path with [d] edits ends with an edit followed by a run of equal
    elements. *)
Lemma reach_last d x y :
  reach d x y ->
  match d with
  | O => x = y /\ 0 <= x /\ matching 0 0 x
  | S d' =>
      exists a b j, reach d' a b /\ 0 <= j /\
        ((x = a + 1 + j /\ y = b + j /\ matching (a + 1) b j) \/
         (x = a + j /\ y = b + 1 + j /\ matching a (b + 1) j))
  end.
Proof.
  induction 1 as [|d x y Hr IH|d x y Hr IH|d x y Hr IH Hx Hy He].
  - split; [reflexivity|]. split; [lia|]. intros t Ht. lia.
  - exists x, y, 0. split; [assumption|]. split; [lia|]. left.
    split; [lia|]. split; [lia|]. intros t Ht. lia.
  - exists x, y, 0. split; [assumption|]. split; [lia|]. right.
    split; [lia|]. split; [lia|]. intros t Ht. lia.
  - destruct d as [|d'].
    + destruct IH as (-> & H0 & Hmat). split; [reflexivity|]. split; [lia|].
      apply matching_extend; auto.
    + destruct IH as (a & b & j & Hab & Hj & [(-> & -> & Hmat)|(-> & -> & Hmat)]);
        exists a, b, (j + 1); (split; [assumption|]); (split; [lia|]).
      * left. split; [lia|]. split; [lia|]. apply matching_extend; auto.
      * right. split; [lia|]. split; [lia|]. apply matching_extend; auto.
Qed.

(** Completeness: no path with [d] edits ends beyond the stored value. *)
Lemma furthest_complete d : forall x y, reach d x y -> x <= furthest d (x - y).
Proof.
  induction d as [|d IH]; intros x y Hr; pose proof (reach_last Hr) as Hl.
  - destruct Hl as (-> & H0 & Hmat). replace (y - y) with 0 by lia.
    change (furthest O 0) with (slide 0 0).
    apply (@slide_furthest 0 0 0 y); [exact Hmat|lia].
  - destruct Hl as (a & b & j & Hab & Hj & Hcase).
    pose proof (IH _ _ Hab) as Ha.
    pose proof (reach_bounds Hab) as (_ & _ & Dab).
    pose proof (reach_bounds Hr) as (_ & _ & Dxy).
    rewrite furthest_eq. set (k := x - y) in *.
    assert (exists z, z <= start (S d) k /\ x = z + j /\ matching z (z - k) j)
      as (z & Hz & -> & Hmat).
    { destruct Hcase as [(Ex & Ey & Hmat)|(Ex & Ey & Hmat)].
      - exists (a + 1). split; [|split; [assumption|]].
        + destruct (start_cases Dxy)
            as [(_ & -> & [[? _]|(d' & E & _ & [Hk|[D1 Hlt]])])
               |(_ & -> & d' & E & _)]; try discriminate; simpl before in *.
          * unfold diag in Dab. lia.
          * replace (k - 1) with (a - b) in Hlt by lia. lia.
          * replace (k - 1) with (a - b) by lia. lia.
        + replace (a + 1 - k) with b by lia. exact Hmat.
      - exists a. split; [|split; [assumption|]].
        + destruct (start_cases Dxy)
            as [(_ & -> & [[? _]|(d' & E & _)])
               |(_ & -> & d' & E & _ & [Hk|[D1 Hle]])]; try discriminate;
            simpl before in *.
          * replace (k + 1) with (a - b) by lia. lia.
          * unfold diag in Dab. lia.
          * replace (k + 1) with (a - b) in Hle by lia. lia.
        + replace (a - k) with (b + 1) by lia. exact Hmat. }
    apply slide_furthest; [|assumption].
    replace (z - start (S d) k + (start (S d) k - k)) with (z - k) by lia.
    exact Hmat.
Qed.

(** Edits beyond the corner [(n, m)] can be left out. *)
Lemma reach_clamp d x y :
  reach d x y ->
  exists d', reach d' (Z.min x n) (Z.min y m) /\
    Z.of_nat d' + Z.max 0 (x - n) + Z.max 0 (y - m) = Z.of_nat d.
Proof.
  induction 1 as [|d x y Hr (d' & IH & E)|d x y Hr (d' & IH & E)
                  |d x y Hr (d' & IH & E) Hx Hy He].
  - exists O. rewrite !Z.min_l by lia. split; [apply reach_origin|lia].
  - destruct (Z_lt_ge_dec x n).
    + exists (S d'). replace (Z.min (x + 1) n) with (Z.min x n + 1) by lia.
      split; [apply reach_right; assumption|lia].
    + exists d'. replace (Z.min (x + 1) n) with (Z.min x n) by lia.
      split; [assumption|lia].
  - destruct (Z_lt_ge_dec y m).
    + exists (S d'). replace (Z.min (y + 1) m) with (Z.min y m + 1) by lia.
      split; [apply reach_down; assumption|lia].
    + exists d'. replace (Z.min (y + 1) m) with (Z.min y m) by lia.
      split; [assumption|lia].
  - exists d'. replace (Z.min (x + 1) n) with (Z.min x n + 1) by lia.
    replace (Z.min (y + 1) m) with (Z.min y m + 1) by lia.
    split; [|lia]. apply reach_diag; try lia; try assumption.
    + rewrite !Z.min_l by lia. exact He.
Qed.

Lemma reach_rights (a : nat) : reach a (Z.of_nat a) 0.
Proof.
  induction a as [|a IH]; [apply reach_origin|].
  replace (Z.of_nat (S a)) with (Z.of_nat a + 1) by lia. apply reach_right, IH.
Qed.

Lemma reach_corner : reach (Z.to_nat (n + m)) n m.
Proof.
  assert (forall a b : nat, reach (b + a) (Z.of_nat a) (Z.of_nat b)) as H.
  { intros a b. induction b as [|b IH]; [apply reach_rights|].
    replace (Z.of_nat (S b)) with (Z.of_nat b + 1) by lia.
    apply reach_down, IH. }
  specialize (H (Z.to_nat n) (Z.to_nat m)).
  rewrite !Z2Nat.id in H by lia.
  replace (Z.to_nat (n + m)) with (Z.to_nat m + Z.to_nat n)%nat by lia.
  exact H.
Qed.

(** The two coordinates of a point add up to the number of edits and twice
    the number of diagonal steps, of which there are at most [min n m]. *)
Lemma reach_sum d x y :
  reach d x y ->
  exists c, 0 <= c <= Z.min x n /\ c <= Z.min y m /\ x + y = Z.of_nat d + 2 * c.
Proof.
  induction 1 as [|d x y Hr (c & H1 & H2 & H3)|d x y Hr (c & H1 & H2 & H3)
                  |d x y Hr (c & H1 & H2 & H3) Hx Hy He].
  - exists 0. lia.
  - exists c. lia.
  - exists c. lia.
  - exists (c + 1). lia.
Qed.

Lemma furthest_bounded d k :
  diag d k -> Z.of_nat d <= n + m ->
  0 <= furthest d k <= 2 * (n + m) /\ 0 <= furthest d k - k <= 2 * (n + m).
Proof.
  intros Hd Hle. pose proof (furthest_reach Hd) as Hr.
  destruct (reach_bounds Hr) as (Hx & Hy & _).
  destruct (reach_sum Hr) as (c & H1 & H2 & H3). lia.
Qed.

Lemma slide_step x y :
  slide x y = if (x <? n) && (y <? m) && eq x y then slide (x + 1) (y + 1) else x.
Proof.
  unfold slide. destruct (Z_lt_ge_dec x n) as [Hlt|Hge].
  - replace (Z.to_nat (n - x)) with (S (Z.to_nat (n - (x + 1)))) by lia.
    reflexivity.
  - replace (Z.to_nat (n - x)) with O by lia. simpl.
    destruct (Z.ltb_spec x n); [lia|reflexivity].
Qed.

Lemma reach_hit d x y :
  reach d x y -> n <= x -> m <= y -> diag d (x - y) /\ hit d (x - y) = true.
Proof.
  intros Hr Hx Hy. pose proof (reach_bounds Hr) as (_ & _ & Hd).
  pose proof (furthest_complete Hr) as Hc. split; [assumption|].
  unfold hit. apply andb_true_intro. split; apply Z.leb_le; lia.
Qed.

(** The first point at or beyond the corner that the search meets is the
    corner itself. *)
Lemma hit_corner d k :
  diag d k -> hit d k = true ->
  (forall d' k', (d' < d)%nat -> diag d' k' -> hit d' k' = false) ->
  furthest d k = n /\ k = n - m.
Proof.
  intros Hd Hh Hfirst. unfold hit in Hh. apply andb_prop in Hh.
  destruct Hh as [Hx Hy]. apply Z.leb_le in Hx. apply Z.leb_le in Hy.
  destruct (reach_clamp (furthest_reach Hd)) as (d' & Hr & E).
  rewrite !Z.min_r in Hr by lia.
  destruct (reach_hit Hr) as [D' H']; [lia|lia|].
  destruct (Nat.lt_ge_cases d' d) as [Hlt|Hge].
  - rewrite (Hfirst _ _ Hlt D') in H'. discriminate.
  - lia.
Qed.

Lemma hit_minimal d :
  (forall d' k', (d' < d)%nat -> diag d' k' -> hit d' k' = false) ->
  forall d', reach d' n m -> (d <= d')%nat.
Proof.
  intros Hfirst d' Hr. destruct (reach_hit Hr) as [D' H']; [lia|lia|].
  destruct (Nat.lt_ge_cases d' d) as [Hlt|Hge]; [|assumption].
  rewrite (Hfirst _ _ Hlt D') in H'. discriminate.
Qed.

Lemma hit_last :
  diag (Z.to_nat (n + m)) (n - m) /\ hit (Z.to_nat (n + m)) (n - m) = true.
Proof. apply reach_hit; [apply reach_corner|lia|lia]. Qed.

End EditGraphFacts.

(** * Slices *)

Section SliceFacts.

Context {X : Type}.
Implicit Types (l : list X) (i j : Z).

Lemma index_Ok l i x :
  index l i = Ok x <-> 0 <= i /\ nth_error l (Z.to_nat i) = Some x.
Proof.
  unfold index. destruct (Z.ltb_spec i 0).
  - split; [discriminate|lia].
  - destruct (nth_error l (Z.to_nat i)) as [x'|].
    + split; [intros [= ->]; auto|intros [_ [= ->]]; reflexivity].
    + split; [discriminate|intros [_ ?]; discriminate].
Qed.

Lemma index_lt l i x : index l i = Ok x -> 0 <= i < len l.
Proof.
  intros H. apply index_Ok in H. destruct H as [H0 H].
  assert (Z.to_nat i < List.length l)%nat
    by (apply nth_error_Some; rewrite H; discriminate).
  unfold len. lia.
Qed.

Lemma index_total l i : 0 <= i < len l -> exists x, index l i = Ok x.
Proof.
  intros H. unfold len in H.
  destruct (nth_error l (Z.to_nat i)) as [x|] eqn:E.
  - exists x. apply index_Ok. split; [lia|assumption].
  - apply nth_error_None in E. lia.
Qed.

Lemma length_assign (p : nat) x l : List.length (assign p x l) = List.length l.
Proof.
  revert p. induction l as [|h t IH]; intros [|p]; simpl; auto.
Qed.

Lemma nth_error_assign_same (p : nat) x l :
  (p < List.length l)%nat -> nth_error (assign p x l) p = Some x.
Proof.
  revert p. induction l as [|h t IH]; intros [|p] H; simpl in *; try lia; auto.
  apply IH. lia.
Qed.

Lemma nth_error_assign_other (p q : nat) x l :
  p <> q -> nth_error (assign p x l) q = nth_error l q.
Proof.
  revert p q. induction l as [|h t IH]; intros [|p] [|q] H; simpl; auto; try lia.
Qed.

Lemma store_Ok l i x :
  0 <= i < len l -> store l i x = Ok (assign (Z.to_nat i) x l).
Proof.
  intros H. unfold store.
  destruct (Z.leb_spec 0 i); [|lia]. destruct (Z.ltb_spec i (len l)); [|lia].
  reflexivity.
Qed.

Lemma len_assign (p : nat) x l : len (assign p x l) = len l.
Proof. unfold len. rewrite length_assign. reflexivity. Qed.

Lemma index_assign_same l i x :
  0 <= i < len l -> index (assign (Z.to_nat i) x l) i = Ok x.
Proof.
  intros H. apply index_Ok. split; [lia|].
  apply nth_error_assign_same. unfold len in H. lia.
Qed.

Lemma index_assign_other l i j x :
  0 <= i -> 0 <= j -> i <> j -> index (assign (Z.to_nat i) x l) j = index l j.
Proof.
  intros Hi Hj Hne. unfold index.
  rewrite nth_error_assign_other by lia. reflexivity.
Qed.

Lemma copy_same (dst src : list X) :
  List.length dst = List.length src -> copy dst src = src.
Proof.
  intros H. unfold copy. rewrite H, firstn_all.
  rewrite <- H, skipn_all. apply app_nil_r.
Qed.

Lemma len_app l l' : len (l ++ l') = len l + len l'.
Proof. unfold len. rewrite length_app. lia. Qed.

End SliceFacts.

Lemma index_repeat (L : nat) i :
  0 <= i < Z.of_nat L -> index (repeat 0 L) i = Ok 0.
Proof.
  intros H. apply index_Ok. split; [lia|].
  apply nth_error_repeat. lia.
Qed.

Lemma len_repeat (L : nat) : len (repeat 0 L) = Z.of_nat L.
Proof. unfold len. rewrite repeat_length. reflexivity. Qed.

(** * The search computes the furthest points *)

Section EngineFacts.

Variable data : Interface.
Hypothesis WB : well_behaved data.

Local Abbreviation n := (fst (Lengths data)).
Local Abbreviation m := (snd (Lengths data)).
Local Abbreviation eq := (equal_of data).
Local Abbreviation slide := (slide n m eq).
Local Abbreviation furthest := (furthest n m eq).
Local Abbreviation before := (before n m eq).
Local Abbreviation down := (down n m eq).
Local Abbreviation start := (start n m eq).
Local Abbreviation hit := (hit n m eq).
Local Abbreviation reach := (reach n m eq).
Local Abbreviation backtrace := (backtrace n m eq).
Local Abbreviation in_range := (in_range n m).
Local Abbreviation holds_before := (holds_before n m eq).
Local Abbreviation visited := (visited n m eq).
Local Abbreviation no_hit := (no_hit n m eq).
Local Abbreviation snapshots := (snapshots n m eq).

Lemma lengths_nonneg : 0 <= n /\ 0 <= m.
Proof. destruct WB as (H1 & H2 & _). auto. Qed.

Lemma call_equal_spec x y :
  0 <= x < n -> 0 <= y < m ->
  call_equal data x y = Ok (eq x y, [EvEqual x y]).
Proof.
  intros Hx Hy. destruct WB as (_ & _ & Htot).
  destruct (Htot x y Hx Hy) as [b Hb].
  unfold call_equal, equal_of. rewrite Hb. reflexivity.
Qed.

Lemma snake_spec fuel : forall x y,
  0 <= x -> 0 <= y -> (Z.to_nat (n - x) < fuel)%nat ->
  exists evs,
    snake data fuel n m x y = Ok ((slide x y, slide x y - x + y), evs) /\
    Forall in_range evs.
Proof.
  induction fuel as [|fuel IH]; intros x y Hx Hy Hfuel; [lia|].
  simpl. rewrite slide_step.
  destruct (Z.ltb_spec x n) as [Hxn|Hxn]; simpl.
  2: { exists []. split; [|constructor]. unfold ret. do 3 f_equal. lia. }
  destruct (Z.ltb_spec y m) as [Hym|Hym]; simpl.
  2: { exists []. split; [|constructor]. unfold ret. do 3 f_equal. lia. }
  rewrite call_equal_spec by lia. unfold bindM.
  destruct (eq x y).
  - destruct (IH (x + 1) (y + 1)) as (evs & -> & Hevs); try lia.
    exists ([EvEqual x y] ++ evs). split.
    + do 3 f_equal. lia.
    + constructor; [simpl; lia|assumption].
  - exists ([EvEqual x y] ++ []). split.
    + unfold ret. do 3 f_equal. lia.
    + constructor; [simpl; lia|constructor].
Qed.

Lemma half_len d v : holds_before d v -> len v / 2 = n + m + 1.
Proof.
  intros [H _]. rewrite H. pose proof lengths_nonneg. arith.
Qed.

Lemma insertion_spec d k v :
  holds_before d v -> diag d k ->
  insertion v (Z.of_nat d) k (len v / 2 + k) = Ok (down d k) /\
  (down d k = true -> index v (len v / 2 + k + 1) = Ok (before d (k + 1))) /\
  (down d k = false -> index v (len v / 2 + k - 1) = Ok (before d (k - 1))).
Proof.
  intros Hv Hd. rewrite (half_len Hv). destruct Hv as [Hlen Hv].
  unfold insertion, down, down_of.
  destruct (Z.eqb_spec k (- Z.of_nat d)) as [E1|E1]; cbn [orb andb negb].
  - split; [reflexivity|]. split; [intros _|discriminate].
    destruct d as [|d'].
    + replace (n + m + 1 + k + 1) with (n + m + 2) by lia. exact Hv.
    + replace (n + m + 1 + k + 1) with (n + m + 1 + (k + 1)) by lia.
      apply Hv. unfold diag in *. arith.
  - destruct d as [|d']; [unfold diag in Hd; lia|].
    destruct (Z.eqb_spec k (Z.of_nat (S d'))) as [E2|E2]; cbn [orb andb negb].
    + split; [reflexivity|]. split; [discriminate|intros _].
      replace (n + m + 1 + k - 1) with (n + m + 1 + (k - 1)) by lia.
      apply Hv. unfold diag in *. arith.
    + assert (diag d' (k - 1) /\ diag d' (k + 1)) as [D1 D2]
        by (unfold diag in *; arith).
      replace (n + m + 1 + k - 1) with (n + m + 1 + (k - 1)) by lia.
      replace (n + m + 1 + k + 1) with (n + m + 1 + (k + 1)) by lia.
      rewrite (Hv _ D1), (Hv _ D2). simpl. auto.
Qed.

Lemma start_spec d k v :
  holds_before d v -> diag d k ->
  (ins <~ insertion v (Z.of_nat d) k (len v / 2 + k) ;;
   if ins : bool then index v (len v / 2 + k + 1)
   else a <~ index v (len v / 2 + k - 1) ;; Ok (a + 1))
  = Ok (start d k).
Proof.
  intros Hv Hd. destruct (insertion_spec Hv Hd) as (-> & Ht & Hf).
  unfold start, start_of. fold (down d k). simpl.
  destruct (down d k).
  - apply Ht. reflexivity.
  - rewrite Hf by reflexivity. reflexivity.
Qed.

Lemma start_nonneg d k : diag d k -> 0 <= start d k /\ 0 <= start d k - k.
Proof.
  intros Hd. pose proof lengths_nonneg as [Hn Hm].
  destruct (start_reach n m eq d) as [H _].
  destruct (reach_bounds (H k Hd)) as (? & ? & _). auto.
Qed.

Lemma holds_before_assign d k v x :
  holds_before d v -> diag d k -> Z.of_nat d <= n + m ->
  holds_before d (assign (Z.to_nat (n + m + 1 + k)) x v).
Proof.
  intros [Hlen Hv] Hd Hle. pose proof lengths_nonneg as [Hn Hm].
  split; [rewrite len_assign; assumption|].
  destruct d as [|d'].
  - rewrite index_assign_other; [assumption| | |]; unfold diag in Hd; lia.
  - intros k' Hd'. rewrite index_assign_other; [auto| | |];
      unfold diag in *; arith.
Qed.

Lemma diagonals_spec fuel : forall (d : nat) k v,
  Z.of_nat d <= n + m ->
  - Z.of_nat d <= k -> (k + Z.of_nat d) mod 2 = 0 ->
  holds_before d v -> visited d k v -> no_hit d k ->
  Z.max 0 (Z.of_nat d - k + 2) < 2 * Z.of_nat fuel ->
  exists r evs,
    diagonals data fuel n m (Z.of_nat d) k v = Ok (r, evs) /\
    Forall in_range evs /\
    match r with
    | Found v' =>
        holds_before d v' /\
        exists kf, diag d kf /\ hit d kf = true /\ no_hit d kf
    | NotFound v' =>
        holds_before d v' /\ visited d (Z.of_nat d + 1) v' /\
        no_hit d (Z.of_nat d + 1)
    end.
Proof.
  pose proof lengths_nonneg as [Hn Hm].
  induction fuel as [|fuel IH]; intros d k v Hle Hk Hpar Hv Hvis Hno Hfuel; [lia|].
  cbn [diagonals]. destruct (Z.leb_spec k (Z.of_nat d)) as [Hkd|Hkd].
  2: { exists (NotFound v), []. split; [reflexivity|]. split; [constructor|].
       split; [assumption|]. split.
       - intros k' Hd' _. apply Hvis; [assumption|]. unfold diag in Hd'. lia.
       - destruct Hno as [H1 H2]. split; [assumption|].
         intros k' Hd' _. apply H2; [assumption|]. unfold diag in Hd'. lia. }
  assert (diag d k) as Hd by (unfold diag; lia).
  rewrite (start_spec Hv Hd). cbn [bindR].
  destruct (start_nonneg Hd) as [Hx0 Hy0].
  destruct (@snake_spec (S (Z.to_nat (n - start d k))) (start d k) (start d k - k))
    as (evs & Hsnake & Hevs); [assumption|assumption|lia|].
  rewrite Hsnake. rewrite <- furthest_eq.
  replace (furthest d k - start d k + (start d k - k)) with (furthest d k - k) by lia.
  cbn [bindM]. rewrite (half_len Hv).
  rewrite store_Ok by (destruct Hv as [-> _]; unfold diag in Hd; lia).
  cbn [bindR]. fold (hit d k).
  set (v' := assign (Z.to_nat (n + m + 1 + k)) (furthest d k) v).
  assert (holds_before d v') as Hv' by (apply holds_before_assign; assumption).
  destruct (hit d k) eqn:Hh.
  - exists (Found v'), (evs ++ []). split; [reflexivity|].
    split; [rewrite app_nil_r; assumption|]. split; [assumption|].
    exists k. auto.
  - destruct (IH d (k + 2) v') as (r & evs' & -> & Hevs' & Hr);
      try assumption; try lia.
    + rewrite <- Hpar. arith.
    + intros k' Hd' Hlt. unfold v'.
      destruct (Z.eq_dec k' k) as [->|Hne].
      * apply index_assign_same. destruct Hv as [-> _]. unfold diag in Hd. lia.
      * rewrite index_assign_other; [| | |]; try (unfold diag in *; lia).
        apply Hvis; [assumption|]. unfold diag in *. arith.
    + destruct Hno as [H1 H2]. split; [assumption|].
      intros k' Hd' Hlt. destruct (Z.eq_dec k' k) as [->|Hne]; [assumption|].
      apply H2; [assumption|]. unfold diag in *. arith.
    + exists r, (evs ++ evs'). split; [reflexivity|].
      split; [apply Forall_app; auto|assumption].
Qed.

Lemma snapshots_app vs v :
  snapshots vs -> holds_before (List.length vs) v -> snapshots (vs ++ [v]).
Proof.
  intros Hvs Hv d Hd. rewrite length_app in Hd. simpl in Hd.
  destruct (Nat.eq_dec d (List.length vs)) as [->|Hne].
  - exists v. split; [|assumption].
    rewrite nth_error_app2 by lia. rewrite Nat.sub_diag. reflexivity.
  - destruct (Hvs d) as (v' & E & Hv'); [lia|].
    exists v'. split; [|assumption]. rewrite nth_error_app1 by lia. exact E.
Qed.

Lemma fresh_slice :
  (v <~ make (2 * (n + m) + 3) ;; store v 1 0)
  = Ok (assign 1 0 (repeat 0 (Z.to_nat (2 * (n + m) + 3)))) /\
  holds_before O (assign 1 0 (repeat 0 (Z.to_nat (2 * (n + m) + 3)))).
Proof.
  pose proof lengths_nonneg as [Hn Hm]. unfold make.
  destruct (Z.ltb_spec (2 * (n + m) + 3) 0); [lia|]. cbn [bindR].
  rewrite store_Ok by (rewrite len_repeat; lia). split; [reflexivity|].
  split.
  - rewrite len_assign, len_repeat. lia.
  - rewrite (@index_assign_other _ _ 1) by lia. apply index_repeat. lia.
Qed.

Lemma search_spec fuel : forall (d : nat) vs,
  Z.of_nat d <= n + m ->
  List.length vs = d -> snapshots vs ->
  match d with
  | O => True
  | S d' => exists v, nth_error vs d' = Some v /\ visited d' (Z.of_nat d' + 1) v
  end ->
  no_hit d (- Z.of_nat d) ->
  n + m - Z.of_nat d + 1 < Z.of_nat fuel ->
  exists vs' evs,
    search data fuel n m (Z.of_nat d) vs = Ok (vs', evs) /\
    Forall in_range evs /\ snapshots vs' /\
    exists (D : nat) kf,
      List.length vs' = S D /\ Z.of_nat D <= n + m /\
      diag D kf /\ hit D kf = true /\ no_hit D kf.
Proof.
  pose proof lengths_nonneg as [Hn Hm].
  induction fuel as [|fuel IH]; intros d vs Hle Hlen Hvs Hfull Hno Hfuel; [lia|].
  cbn [search]. destruct (Z.leb_spec (Z.of_nat d) (m + n)) as [_|]; [|lia].
  assert (exists v,
    (v <~ make (2 * (n + m) + 3) ;;
     if Z.of_nat d =? 0 then store v 1 0
     else p <~ index vs (Z.of_nat d - 1) ;; Ok (copy v p)) = Ok v /\
    holds_before d v) as (v & -> & Hv).
  { destruct d as [|d'].
    - destruct fresh_slice as [E H]. eexists. split; [exact E|exact H].
    - destruct Hfull as (p & Ep & Hp).
      destruct (Hvs d') as (p' & Ep' & [Hlenp _]); [lia|].
      assert (p' = p) by congruence. subst p'.
      exists p. unfold make.
      destruct (Z.ltb_spec (2 * (n + m) + 3) 0); [lia|]. cbn [bindR].
      destruct (Z.eqb_spec (Z.of_nat (S d')) 0); [lia|].
      assert (index vs (Z.of_nat (S d') - 1) = Ok p) as ->.
      { apply index_Ok. split; [lia|].
        replace (Z.to_nat (Z.of_nat (S d') - 1)) with d' by lia. exact Ep. }
      cbn [bindR]. rewrite copy_same.
      2: { rewrite repeat_length. unfold len in Hlenp. lia. }
      split; [reflexivity|]. split; [assumption|].
      intros k Hk. apply Hp; [assumption|]. unfold diag in Hk. lia. }
  cbn [bindR].
  destruct (@diagonals_spec (Z.to_nat (Z.of_nat d) + 2) d (- Z.of_nat d) v)
    as (r & evs & -> & Hevs & Hr); try assumption; try lia.
  { arith. }
  { intros k' Hd' Hlt. unfold diag in Hd'. lia. }
  cbn [bindM]. destruct r as [v'|v'].
  - destruct Hr as (Hv' & kf & Hkf & Hh & Hno').
    exists (vs ++ [v']), (evs ++ []). split; [reflexivity|].
    split; [rewrite app_nil_r; assumption|].
    split; [apply snapshots_app; [assumption|rewrite Hlen; assumption]|].
    exists d, kf. rewrite length_app. simpl.
    split; [lia|]. split; [assumption|]. split; [assumption|].
    split; assumption.
  - destruct Hr as (Hv' & Hvis' & Hno').
    assert (Z.of_nat d < n + m) as Hlt.
    { destruct (Z_lt_ge_dec (Z.of_nat d) (n + m)) as [|Hge]; [assumption|].
      exfalso. destruct (@hit_last n m eq Hn Hm) as [Hd Hh].
      replace (Z.to_nat (n + m)) with d in * by lia.
      destruct Hno' as [_ H2]. rewrite H2 in Hh; [discriminate|assumption|].
      unfold diag in Hd. lia. }
    replace (Z.of_nat d + 1) with (Z.of_nat (S d)) by lia.
    destruct (IH (S d) (vs ++ [v'])) as (vs' & evs' & -> & Hevs' & Hvs' & HD);
      try lia.
    + rewrite length_app. simpl. lia.
    + apply snapshots_app; [assumption|rewrite Hlen; assumption].
    + exists v'. split.
      * rewrite nth_error_app2 by lia. rewrite Hlen, Nat.sub_diag. reflexivity.
      * assumption.
    + destruct Hno' as [H1 H2]. split.
      * intros d' k' Hd' Hk'. destruct (Nat.eq_dec d' d) as [->|Hne].
        -- apply H2; [assumption|]. unfold diag in Hk'. lia.
        -- apply H1; [lia|assumption].
      * intros k' Hk' Hlt'. unfold diag in Hk'. lia.
    + exists vs', (evs ++ evs'). split; [reflexivity|].
      split; [apply Forall_app; auto|]. split; assumption.
Qed.

Lemma previous_spec vs (d : nat) k :
  snapshots vs -> (d < List.length vs)%nat -> diag d k ->
  previous vs (furthest d k) (furthest d k - k) (Z.of_nat d)
  = Ok (if down d k
        then (before d (k + 1), before d (k + 1) - (k + 1), start d k)
        else (before d (k - 1), before d (k - 1) - (k - 1), start d k)).
Proof.
  intros Hvs Hd Hk. destruct (Hvs d Hd) as (v & Ev & Hv).
  unfold previous.
  assert (index vs (Z.of_nat d) = Ok v) as ->
    by (apply index_Ok; split; [lia|rewrite Nat2Z.id; exact Ev]).
  cbn [bindR]. replace (furthest d k - (furthest d k - k)) with k by lia.
  destruct (insertion_spec Hv Hk) as (-> & Ht & Hf). cbn [bindR].
  unfold start, start_of. fold (down d k).
  destruct (down d k).
  - rewrite Ht by reflexivity. reflexivity.
  - rewrite Hf by reflexivity. reflexivity.
Qed.

Lemma common_spec vs (D : nat) fuel : forall (d : nat) k,
  snapshots vs -> List.length vs = S D -> (d <= D)%nat -> diag d k ->
  (d < fuel)%nat ->
  common fuel vs (furthest d k) (furthest d k - k) (Z.of_nat d)
  = Ok (tt, map call_event (backtrace (Z.of_nat D) d k)).
Proof.
  induction fuel as [|fuel IH]; intros d k Hvs Hlen HdD Hk Hfuel; [lia|].
  cbn [common]. rewrite previous_spec by (assumption || lia).
  assert (report vs (furthest d k) (furthest d k - k) (start d k) (Z.of_nat d)
          = Ok (tt, map call_event
                  (let c := furthest d k - start d k in
                   if (c >? 0) || (Z.of_nat d =? Z.of_nat D)
                   then [(start d k, furthest d k - k - c, c)] else []))) as Hrep.
  { unfold report. replace (len vs - 1) with (Z.of_nat D) by (unfold len; lia).
    cbv zeta.
    destruct ((furthest d k - start d k >? 0) || (Z.of_nat d =? Z.of_nat D));
      reflexivity. }
  destruct d as [|d'].
  - destruct (down O k); cbn [bindR]; change (Z.of_nat 0 >? 0) with false;
      cbv iota; unfold ret at 1; cbn [bindM]; rewrite Hrep; reflexivity.
  - assert ((Z.of_nat (S d') >? 0) = true) as -> by (apply Z.gtb_lt; lia).
    replace (Z.of_nat (S d') - 1) with (Z.of_nat d') by lia.
    assert (down (S d') k = true -> diag d' (k + 1)) as Ht.
    { intros E. destruct (@start_cases n m eq _ _ Hk)
        as [(_ & _ & [[? _]|(d'' & Ed & D1 & _)])|(E' & _)];
        [discriminate|injection Ed as <-; assumption|congruence]. }
    assert (down (S d') k = false -> diag d' (k - 1)) as Hf.
    { intros E. destruct (@start_cases n m eq _ _ Hk)
        as [(E' & _)|(_ & _ & d'' & Ed & D1 & _)];
        [congruence|injection Ed as <-; assumption]. }
    cbn [backtrace before]. rewrite map_app.
    destruct (down (S d') k); cbn [bindR].
    + rewrite IH by (auto; lia). cbn [bindM]. rewrite Hrep. reflexivity.
    + rewrite IH by (auto; lia). cbn [bindM]. rewrite Hrep. reflexivity.
Qed.

Lemma Diff_unfold :
  Diff data =
  (vs <- search data (Z.to_nat (m + n) + 2) n m 0 [] ;;
   _ <- common (S (Z.to_nat (len vs - 1))) vs n m (len vs - 1) ;;
   ret (len vs - 1)).
Proof. unfold Diff. destruct (Lengths data). reflexivity. Qed.

Lemma descend_spec vs fuel : forall (d : nat) k,
  snapshots vs -> (d < List.length vs)%nat -> diag d k -> (d < fuel)%nat ->
  descend fuel vs (furthest d k) (furthest d k - k) (Z.of_nat d)
  = Ok (furthest O 0, furthest O 0).
Proof.
  induction fuel as [|fuel IH]; intros d k Hvs Hlen Hk Hfuel; [lia|].
  cbn [descend]. destruct d as [|d'].
  - assert (k = 0) by (unfold diag in Hk; lia). subst k.
    change (Z.of_nat 0 >? 0) with false. cbv iota.
    rewrite Z.sub_0_r. reflexivity.
  - assert ((Z.of_nat (S d') >? 0) = true) as -> by (apply Z.gtb_lt; lia).
    rewrite previous_spec by assumption.
    replace (Z.of_nat (S d') - 1) with (Z.of_nat d') by lia.
    destruct (@start_cases n m eq _ _ Hk)
      as [(-> & _ & [[? _]|(d'' & Ed & D1 & _)])|(-> & _ & d'' & Ed & D1 & _)];
      try discriminate; injection Ed as <-; cbn [bindR]; simpl before;
      apply IH; auto; lia.
Qed.

Lemma innermost_unfold :
  innermost data =
  (' (vs, _) <~ search data (Z.to_nat (m + n) + 2) n m 0 [] ;;
   ' (x, y) <~ descend (S (Z.to_nat (len vs - 1))) vs n m (len vs - 1) ;;
   common 1 vs x y 0).
Proof. unfold innermost. destruct (Lengths data). reflexivity. Qed.

(** The run of [Diff] on a well-behaved implementation. *)
Lemma Diff_spec :
  exists (D : nat) evs,
    Diff data = Ok (Z.of_nat D,
                    evs ++ map call_event (backtrace (Z.of_nat D) D (n - m))) /\
    Forall in_range evs /\
    Z.of_nat D <= n + m /\
    diag D (n - m) /\ furthest D (n - m) = n /\
    reach D n m /\ (forall d, reach d n m -> (D <= d)%nat) /\
    hit D (n - m) = true /\
    (forall d k, (d < D)%nat -> diag d k -> hit d k = false) /\
    innermost data = Ok (tt, map call_event (backtrace (Z.of_nat D) O 0)).
Proof.
  pose proof lengths_nonneg as [Hn Hm]. rewrite Diff_unfold, innermost_unfold.
  destruct (@search_spec (Z.to_nat (m + n) + 2) O [])
    as (vs & evs & Hs & Hevs & Hvs & D & kf & Hlen & HD & Hkf & Hh & Hno);
    try lia; try reflexivity; auto.
  { intros d Hd. simpl in Hd. lia. }
  { split; [intros; lia|]. intros k' Hd' Hlt. unfold diag in Hd'. lia. }
  change (Z.of_nat 0) with 0 in Hs. rewrite Hs. cbn [bindM bindR].
  destruct (@hit_corner n m eq Hn Hm _ _ Hkf Hh (proj1 Hno)) as [Hf Ek]. subst kf.
  replace (len vs - 1) with (Z.of_nat D) by (unfold len; lia).
  pose proof (@common_spec vs D (S (Z.to_nat (Z.of_nat D))) D (n - m)
                Hvs Hlen (Nat.le_refl D) Hkf) as Hc.
  pose proof (@descend_spec vs (S (Z.to_nat (Z.of_nat D))) D (n - m) Hvs) as Hdesc.
  rewrite Hf in Hc, Hdesc. replace (n - (n - m)) with m in Hc, Hdesc by lia.
  rewrite Hc by lia. rewrite Hdesc by (assumption || lia). unfold ret.
  exists D, evs. cbn [bindM bindR].
  split; [rewrite app_nil_r; reflexivity|].
  split; [assumption|]. split; [assumption|]. split; [assumption|].
  split; [assumption|]. split; [|split; [|split; [|split]]].
  - pose proof (@furthest_reach n m eq _ _ Hkf) as Hr. rewrite Hf in Hr.
    replace (n - (n - m)) with m in Hr by lia. exact Hr.
  - apply (@hit_minimal n m eq D). apply Hno.
  - assumption.
  - apply Hno.
  - assert (diag O 0) as H0 by (unfold diag; simpl; split; [lia|reflexivity]).
    pose proof (@common_spec vs D 1 O 0 Hvs Hlen ltac:(lia) H0 ltac:(lia)) as Hc0.
    rewrite Z.sub_0_r in Hc0. exact Hc0.
Qed.

End EngineFacts.

(** * The calls that the backtrace reports *)

Lemma cursor_app cs cs' p : cursor p (cs ++ cs') = cursor (cursor p cs) cs'.
Proof.
  revert p. induction cs as [|[[i j] c] cs IH]; intros p; simpl; auto.
Qed.

Lemma total_app cs cs' : total (cs ++ cs') = total cs + total cs'.
Proof.
  induction cs as [|[[i j] c] cs IH]; simpl; lia.
Qed.

Lemma ordered_app cs cs' : forall g pi pj,
  ordered g pi pj (cs ++ cs') <->
  ordered g pi pj cs /\
  ordered (match cs with [] => g | _ => 1 end)
          (fst (cursor (pi, pj) cs)) (snd (cursor (pi, pj) cs)) cs'.
Proof.
  induction cs as [|[[i j] c] cs IH]; intros g pi pj; simpl.
  - tauto.
  - rewrite IH. destruct cs; tauto.
Qed.

Lemma ordered_cursor cs : forall g pi pj,
  ordered g pi pj cs ->
  pi <= fst (cursor (pi, pj) cs) /\ pj <= snd (cursor (pi, pj) cs).
Proof.
  induction cs as [|[[i j] c] cs IH]; intros g pi pj H; simpl in *; [lia|].
  destruct H as (H1 & H2 & H3 & H4 & H5). specialize (IH _ _ _ H5). lia.
Qed.

Section BacktraceFacts.

Variables n m : Z.
Variable eq : Z -> Z -> bool.

Local Abbreviation slide := (slide n m eq).
Local Abbreviation furthest := (furthest n m eq).
Local Abbreviation before := (before n m eq).
Local Abbreviation down := (down n m eq).
Local Abbreviation start := (start n m eq).
Local Abbreviation reach := (reach n m eq).
Local Abbreviation backtrace := (backtrace n m eq).
Local Abbreviation run_ok := (run_ok n m eq).

(** The run of equal elements of one frame of [common]. *)
Lemma frame_run d k :
  diag d k ->
  let c := furthest d k - start d k in
  0 <= c /\ run_ok (start d k, furthest d k - k - c, c).
Proof.
  intros Hd c. subst c. rewrite furthest_eq.
  set (x := start d k).
  pose proof (slide_ge n m eq x (x - k)) as Hge.
  destruct (start_reach n m eq d) as [Hs _].
  destruct (reach_bounds (Hs k Hd)) as (Hx & Hy & _). fold x in Hx, Hy.
  split; [lia|]. unfold run_ok.
  replace (slide x (x - k) - k - (slide x (x - k) - x)) with (x - k) by lia.
  split; [assumption|]. split; [assumption|]. split.
  - apply slide_matching.
  - replace (x + (slide x (x - k) - x)) with (slide x (x - k)) by lia.
    replace (x - k + (slide x (x - k) - x))
      with (slide x (x - k) - x + (x - k)) by lia.
    apply slide_stop.
Qed.

(** The step of one frame: where the frame below ended. *)
Lemma frame_step d k :
  diag (S d) k ->
  let k' := if down (S d) k then k + 1 else k - 1 in
  diag d k' /\
  furthest d k' <= start (S d) k /\
  furthest d k' - k' <= start (S d) k - k /\
  start (S d) k + (start (S d) k - k) = furthest d k' + (furthest d k' - k') + 1.
Proof.
  intros Hd.
  destruct (start_cases n m eq Hd)
    as [(-> & -> & [[? _]|(d' & E & D1 & _)])|(-> & -> & d' & E & D1 & _)];
    try discriminate; injection E as <-; simpl before; cbv zeta;
    (split; [assumption|lia]).
Qed.

Lemma backtrace_O D k :
  backtrace D O k
  = [] ++
    let c := furthest O k - start O k in
    if (c >? 0) || (Z.of_nat O =? D) then [(start O k, furthest O k - k - c, c)]
    else [].
Proof. reflexivity. Qed.

Lemma backtrace_S D d k :
  backtrace D (S d) k
  = backtrace D d (if down (S d) k then k + 1 else k - 1) ++
    let c := furthest (S d) k - start (S d) k in
    if (c >? 0) || (Z.of_nat (S d) =? D)
    then [(start (S d) k, furthest (S d) k - k - c, c)]
    else [].
Proof. reflexivity. Qed.

(** Adding the call of a frame to the calls of the frames below it. *)
Lemma report_inv (D dz : Z) pre x0 y0 c :
  ordered 0 0 0 pre -> Forall run_ok pre -> Forall positive pre ->
  fst (cursor (0, 0) pre) <= x0 -> snd (cursor (0, 0) pre) <= y0 ->
  (pre <> [] -> fst (cursor (0, 0) pre) + snd (cursor (0, 0) pre) + 1 <= x0 + y0) ->
  0 <= x0 -> 0 <= y0 -> 0 <= c -> run_ok (x0, y0, c) ->
  2 * total pre + dz = x0 + y0 ->
  let cs := pre ++ (if (c >? 0) || (dz =? D) then [(x0, y0, c)] else []) in
  ordered 0 0 0 cs /\ Forall run_ok cs /\
  fst (cursor (0, 0) cs) <= x0 + c /\
  snd (cursor (0, 0) cs) <= y0 + c /\
  2 * total cs + dz = (x0 + c) + (y0 + c) /\
  (dz <> D -> Forall positive cs) /\
  (dz = D -> exists pre', cs = pre' ++ [(x0, y0, c)] /\ Forall positive pre').
Proof.
  intros Hord Hall Hpos Hci Hcj Hgap Hx Hy Hc Hrun Htot cs. subst cs.
  assert (ordered 0 0 0 (pre ++ [(x0, y0, c)])) as Hord'.
  { apply ordered_app. split; [assumption|]. simpl.
    destruct pre as [|c0 pre']; simpl in *; [lia|].
    assert (c0 :: pre' <> []) as Hne by discriminate.
    specialize (Hgap Hne). lia. }
  destruct (Z.gtb_spec c 0) as [Hcpos|Hzero]; cbn [orb].
  - rewrite cursor_app, total_app. cbn [cursor total fst snd].
    split; [assumption|]. split; [apply Forall_app; auto|].
    split; [lia|]. split; [lia|]. split; [lia|]. split.
    + intros _. apply Forall_app. split; [assumption|].
      constructor; [exact Hcpos|constructor].
    + intros _. exists pre. auto.
  - destruct (Z.eqb_spec dz D) as [ED|ED].
    + rewrite cursor_app, total_app. cbn [cursor total fst snd].
      split; [assumption|]. split; [apply Forall_app; auto|].
      split; [lia|]. split; [lia|]. split; [lia|]. split.
      * intros H. contradiction.
      * intros _. exists pre. auto.
    + rewrite app_nil_r.
      split; [assumption|]. split; [assumption|].
      split; [lia|]. split; [lia|]. split; [lia|]. split.
      * intros _. assumption.
      * intros H. contradiction.
Qed.

Lemma backtrace_inv (D : nat) : forall d k,
  (d <= D)%nat -> diag d k ->
  let cs := backtrace (Z.of_nat D) d k in
  ordered 0 0 0 cs /\ Forall run_ok cs /\
  fst (cursor (0, 0) cs) <= furthest d k /\
  snd (cursor (0, 0) cs) <= furthest d k - k /\
  2 * total cs + Z.of_nat d = furthest d k + (furthest d k - k) /\
  ((d < D)%nat -> Forall positive cs) /\
  (d = D ->
   exists pre i j c, cs = pre ++ [(i, j, c)] /\
     i + c = furthest d k /\ j + c = furthest d k - k /\ Forall positive pre).
Proof.
  induction d as [|d IH]; intros k HdD Hd; cbv zeta.
  - (* the frame of depth 0 *)
    assert (k = 0) by (unfold diag in Hd; lia). subst k.
    destruct (frame_run Hd) as [Hc Hrun]. cbv zeta in *.
    assert (start O 0 = 0) as E0 by reflexivity.
    rewrite backtrace_O. cbv zeta.
    pose proof (furthest_eq n m eq O 0) as Ef.
    pose proof (slide_ge n m eq (start O 0) (start O 0 - 0)) as Hge.
    set (c := furthest O 0 - start O 0) in *.
    destruct (@report_inv (Z.of_nat D) (Z.of_nat O) [] (start O 0)
                (furthest O 0 - 0 - c) c)
      as (H1 & H2 & H3 & H4 & H5 & H6 & H7).
    { exact I. }
    { constructor. }
    { constructor. }
    { cbn [cursor fst snd]. lia. }
    { cbn [cursor fst snd]. lia. }
    { intros H. contradiction. }
    { lia. }
    { lia. }
    { lia. }
    { assumption. }
    { cbn [total]. lia. }
    unfold Call in *.
    split; [assumption|]. split; [assumption|].
    split; [lia|]. split; [lia|]. split; [lia|]. split.
    + intros HD. apply H6. lia.
    + intros HD. destruct H7 as (pre & E & Hpre); [lia|].
      exists pre, (start O 0), (furthest O 0 - 0 - c), c.
      split; [assumption|]. split; [lia|]. split; [lia|assumption].
  - (* a frame of depth d+1 *)
    destruct (frame_run Hd) as [Hc Hrun].
    destruct (frame_step Hd) as (Hd' & Hx & Hy & Hsum).
    rewrite backtrace_S. cbv zeta in *.
    set (k' := if down (S d) k then k + 1 else k - 1) in *.
    destruct (IH k') as (Hord & Hall & Hci & Hcj & Htot & Hpos & _);
      [lia|assumption|].
    specialize (Hpos ltac:(lia)).
    set (pre := backtrace (Z.of_nat D) d k') in *.
    set (c := furthest (S d) k - start (S d) k) in *.
    destruct (@start_reach n m eq (S d)) as [Hs _].
    destruct (reach_bounds (Hs k Hd)) as (Hx0 & Hy0 & _).
    destruct (@report_inv (Z.of_nat D) (Z.of_nat (S d)) pre (start (S d) k)
                (furthest (S d) k - k - c) c)
      as (H1 & H2 & H3 & H4 & H5 & H6 & H7);
      try assumption; try lia.
    unfold Call in *.
    split; [assumption|]. split; [assumption|].
    split; [lia|]. split; [lia|]. split; [lia|]. split.
    + intros HD. apply H6. lia.
    + intros HD. destruct H7 as (pre' & E & Hpre); [lia|].
      exists pre', (start (S d) k), (furthest (S d) k - k - c), c.
      split; [assumption|]. split; [lia|]. split; [lia|assumption].
Qed.

End BacktraceFacts.

(** * The run of [Diff] *)

Lemma commons_app evs evs' : commons (evs ++ evs') = commons evs ++ commons evs'.
Proof.
  induction evs as [|[i j|i j c] evs IH]; simpl; [reflexivity|assumption|].
  rewrite IH. reflexivity.
Qed.

Lemma queries_app evs evs' : queries (evs ++ evs') = queries evs ++ queries evs'.
Proof.
  induction evs as [|[i j|i j c] evs IH]; simpl; [reflexivity| |assumption].
  rewrite IH. reflexivity.
Qed.

Lemma commons_calls cs : commons (map call_event cs) = cs.
Proof.
  induction cs as [|[[i j] c] cs IH]; simpl; [reflexivity|]. rewrite IH. reflexivity.
Qed.

Lemma queries_calls cs : queries (map call_event cs) = [].
Proof.
  induction cs as [|[[i j] c] cs IH]; simpl; [reflexivity|assumption].
Qed.

Lemma commons_in_range n m evs : Forall (in_range n m) evs -> commons evs = [].
Proof.
  induction 1 as [|[i j|i j c] evs H _ IH]; simpl; [reflexivity|assumption|].
  destruct H.
Qed.

Lemma queries_in_range n m evs :
  Forall (in_range n m) evs ->
  Forall (fun q => 0 <= fst q < n /\ 0 <= snd q < m) (queries evs).
Proof.
  induction 1 as [|[i j|i j c] evs H _ IH]; simpl; [constructor| |assumption].
  constructor; [exact H|assumption].
Qed.

Section RunFacts.

Variable data : Interface.
Hypothesis WB : well_behaved data.

Local Abbreviation n := (fst (Lengths data)).
Local Abbreviation m := (snd (Lengths data)).
Local Abbreviation eq := (equal_of data).

(** Everything that the later statements use about a run. *)
Lemma Diff_run :
  exists (D : nat) evs cs,
    Diff data = Ok (Z.of_nat D, evs) /\
    commons evs = cs /\
    Forall (fun q => 0 <= fst q < n /\ 0 <= snd q < m) (queries evs) /\
    Z.of_nat D <= n + m /\
    reach n m eq D n m /\ (forall d, reach n m eq d n m -> (D <= d)%nat) /\
    hit n m eq D (n - m) = true /\
    (forall d k, (d < D)%nat -> diag d k -> hit n m eq d k = false) /\
    cs = backtrace n m eq (Z.of_nat D) D (n - m) /\
    diag D (n - m) /\
    ordered 0 0 0 cs /\ Forall (run_ok n m eq) cs /\
    2 * total cs + Z.of_nat D = n + m /\
    (exists pre i j c,
      cs = pre ++ [(i, j, c)] /\ i + c = n /\ j + c = m /\ Forall positive pre) /\
    innermost data = Ok (tt, map call_event (backtrace n m eq (Z.of_nat D) O 0)).
Proof.
  destruct (Diff_spec WB)
    as (D & evs & HD & Hevs & Hle & Hdiag & Hf & Hr & Hmin & Hh & Hfirst & Hinner).
  destruct (@backtrace_inv n m eq D D (n - m) (Nat.le_refl D) Hdiag)
    as (Hord & Hall & _ & _ & Htot & _ & Hlast).
  destruct (Hlast eq_refl) as (pre & i & j & c & E & Hi & Hj & Hpre).
  exists D, (evs ++ map call_event (backtrace n m eq (Z.of_nat D) D (n - m))),
    (backtrace n m eq (Z.of_nat D) D (n - m)).
  split; [assumption|].
  split; [rewrite commons_app, commons_calls, (commons_in_range Hevs); reflexivity|].
  split.
  { rewrite queries_app, queries_calls, app_nil_r. apply queries_in_range, Hevs. }
  split; [assumption|]. split; [assumption|]. split; [assumption|].
  split; [assumption|]. split; [assumption|]. split; [reflexivity|].
  split; [assumption|]. split; [assumption|]. split; [assumption|].
  split; [rewrite Hf in Htot; lia|]. split; [|assumption].
  exists pre, i, j, c. rewrite Hf in *. repeat (split; [assumption || lia|]).
  assumption.
Qed.

End RunFacts.


Lemma sample_well_behaved : well_behaved sample.
Proof.
  split; [change (0 <= 2); lia|]. split; [change (0 <= 2); lia|].
  intros x y Hx Hy. change (0 <= x < 2) in Hx. change (0 <= y < 2) in Hy.
  assert (x = 0 \/ x = 1) as [-> | ->] by lia;
    (assert (y = 0 \/ y = 1) as [-> | ->] by lia); eexists; reflexivity.
Defined.

Lemma sample_fits : fits sample.
Proof. unfold fits, max_len. cbn. lia. Defined.

Lemma max_len_int : max_len <= max_int.
Proof. unfold max_len, max_int. cbn. lia. Qed.

(** * Properties of [Diff] on an arbitrary implementation *)

Lemma backtrace_innermost n m eq D :
  backtrace n m eq D O 0
  = if (slide n m eq 0 0 >? 0) || (D =? 0) then [(0, 0, slide n m eq 0 0)] else [].
Proof.
  cbn [backtrace app]. cbv zeta.
  change (furthest n m eq O 0) with (slide n m eq 0 0).
  change (start n m eq O 0) with 0. change (Z.of_nat 0) with 0.
  rewrite !Z.sub_0_r, Z.sub_diag, (Z.eqb_sym 0 D). reflexivity.
Qed.

(** C9, as stated, fails: an implementation whose [Lengths] and [Equal]
    are deterministic and consistent across calls, but whose second length
    is negative, makes [Diff] skip its loop and reach the [panic] after
    it. *)
Lemma no_path_found_reached :
  Diff {| Lengths := (0, -1); Equal := fun _ _ => Ok false |}
  = Panic NoPathFound.
Proof. vm_compute. reflexivity. Qed.

(** C9, amended: on a well-behaved implementation whose lengths are small
    enough for the search (see [fits]) [Diff] returns: the result [d] is
    the first depth at which the exit test [x >= n && y >= m] succeeds on a
    diagonal, [d <= N + M], and the [panic] after the loop is not reached.
    ([hit N M eq d k] is the exit test on [furthest N M eq d k], the value
    that the loop stores for diagonal [k] at depth [d], see
    [diagonals_spec].) *)
Theorem Diff_terminates (data : Interface) :
  well_behaved data -> fits data ->
  let N := fst (Lengths data) in
  let M := snd (Lengths data) in
  exists (d : nat) evs,
    Diff data = Ok (Z.of_nat d, evs) /\
    Z.of_nat d <= N + M /\
    (exists k, diag d k /\ hit N M (equal_of data) d k = true) /\
    (forall d' k, (d' < d)%nat -> diag d' k -> hit N M (equal_of data) d' k = false) /\
    Diff data <> Panic NoPathFound.
Proof.
  intros WB _ N M.
  destruct (Diff_run WB)
    as (D & evs & cs & HD & _ & _ & Hle & _ & _ & Hh & Hfirst & _ & Hdiag & _).
  exists D, evs. split; [assumption|]. split; [assumption|].
  split; [exists (N - M); auto|]. split; [assumption|].
  rewrite HD. discriminate.
Qed.

Lemma Diff_terminates_witness :
  well_behaved sample /\ fits sample /\
  exists (d : nat) evs,
    Diff sample = Ok (Z.of_nat d, evs) /\
    Z.of_nat d <= 2 + 2 /\
    (exists k, diag d k /\ hit 2 2 (equal_of sample) d k = true) /\
    (forall d' k, (d' < d)%nat -> diag d' k -> hit 2 2 (equal_of sample) d' k = false) /\
    Diff sample <> Panic NoPathFound.
Proof.
  split; [exact sample_well_behaved|]. split; [exact sample_fits|].
  exact (Diff_terminates sample_well_behaved sample_fits).
Defined.

(** C10: every call [Equal(x, y)] that [Diff] makes on a well-behaved
    implementation, with lengths small enough for the search, has
    [0 <= x < N] and [0 <= y < M]. *)
Theorem Equal_calls_in_range (data : Interface) :
  well_behaved data -> fits data ->
  exists d evs,
    Diff data = Ok (d, evs) /\
    Forall (fun q => 0 <= fst q < fst (Lengths data) /\
                     0 <= snd q < snd (Lengths data)) (queries evs).
Proof.
  intros WB _.
  destruct (Diff_run WB) as (D & evs & cs & HD & _ & Hq & _).
  exists (Z.of_nat D), evs. auto.
Qed.

Lemma Equal_calls_in_range_witness :
  well_behaved sample /\ fits sample /\
  exists d evs,
    Diff sample = Ok (d, evs) /\
    Forall (fun q => 0 <= fst q < 2 /\ 0 <= snd q < 2) (queries evs).
Proof.
  split; [exact sample_well_behaved|]. split; [exact sample_fits|].
  exact (Equal_calls_in_range sample_well_behaved sample_fits).
Defined.

Lemma positive_run_inside n m eq c :
  run_ok n m eq c -> positive c -> 0 < n /\ 0 < m.
Proof.
  destruct c as [[i j] c]. intros (Hi & Hj & Hmat & _) Hpos. simpl in Hpos.
  destruct (Hmat 0) as (H1 & H2 & _); lia.
Qed.



(** * Longest common subsequences, alignments and edit scripts *)

Section SequenceFacts.

Context {X Y : Type}.
Variable eqb : X -> Y -> bool.

Local Abbreviation lcs := (lcs eqb).
Local Abbreviation alignment := (alignment eqb).

Lemma lcs_cons x a y b :
  lcs (x :: a) (y :: b)
  = if eqb x y then S (lcs a b) else Nat.max (lcs a (y :: b)) (lcs (x :: a) b).
Proof. reflexivity. Qed.

Lemma lcs_nil_r a : lcs a [] = O.
Proof. destruct a; reflexivity. Qed.

(** One more element changes the length by at most one. *)
Lemma lcs_step (k : nat) : forall a b,
  (List.length a + List.length b < k)%nat ->
  (forall y, lcs a b <= lcs a (y :: b) <= S (lcs a b))%nat /\
  (forall x, lcs a b <= lcs (x :: a) b <= S (lcs a b))%nat.
Proof.
  induction k as [|k IH]; intros a b Hk; [lia|]. split.
  - intros y. destruct a as [|x a']; [simpl; lia|].
    rewrite lcs_cons. simpl in Hk.
    destruct (IH a' b ltac:(lia)) as [H1 H2].
    specialize (H1 y). specialize (H2 x).
    destruct (eqb x y); lia.
  - intros x. destruct b as [|y b']; [rewrite !lcs_nil_r; lia|].
    rewrite lcs_cons. simpl in Hk.
    destruct (IH a b' ltac:(lia)) as [H1 H2].
    specialize (H1 y). specialize (H2 x).
    destruct (eqb x y); lia.
Qed.

Lemma lcs_cons_l x a b : (lcs a b <= lcs (x :: a) b)%nat.
Proof. apply (@lcs_step (S (List.length a + List.length b))). lia. Qed.

Lemma lcs_cons_r y a b : (lcs a b <= lcs a (y :: b))%nat.
Proof. apply (@lcs_step (S (List.length a + List.length b))). lia. Qed.

(** Every alignment leaves at least [|a| + |b| - 2 lcs a b] elements
    unpaired. *)
Lemma alignment_lcs a b d :
  alignment a b d -> (List.length a + List.length b <= d + 2 * lcs a b)%nat.
Proof.
  induction 1 as [|x a b d H IH|y a b d H IH|x y a b d E H IH].
  - cbn [List.length]. lia.
  - pose proof (lcs_cons_l x a b). cbn [List.length]. lia.
  - pose proof (lcs_cons_r y a b). cbn [List.length]. lia.
  - rewrite lcs_cons, E. cbn [List.length]. lia.
Qed.

Lemma alignment_deletes a : alignment a [] (List.length a).
Proof. induction a; simpl; constructor; assumption. Qed.

Lemma alignment_inserts b : alignment [] b (List.length b).
Proof. induction b; simpl; constructor; assumption. Qed.

(** ... and some alignment leaves exactly that many. *)
Lemma lcs_alignment a : forall b,
  exists d, alignment a b d /\ (d + 2 * lcs a b = List.length a + List.length b)%nat.
Proof.
  induction a as [|x a IHa]; intros b.
  - exists (List.length b). split; [apply alignment_inserts|simpl; lia].
  - induction b as [|y b IHb].
    + exists (List.length (x :: a)). split; [apply alignment_deletes|].
      rewrite lcs_nil_r. cbn [List.length]. lia.
    + rewrite lcs_cons. destruct (eqb x y) eqn:E.
      * destruct (IHa b) as (d & Hd & Hl). exists d.
        split; [apply align_keep; assumption|cbn [List.length]; lia].
      * destruct (Nat.max_spec (lcs a (y :: b)) (lcs (x :: a) b)) as [[_ ->]|[_ ->]].
        -- destruct IHb as (d & Hd & Hl). exists (S d).
           split; [apply align_insert; assumption|cbn [List.length] in *; lia].
        -- destruct (IHa (y :: b)) as (d & Hd & Hl). exists (S d).
           split; [apply align_delete; assumption|cbn [List.length] in *; lia].
Qed.

Lemma lcs_le a b : (2 * lcs a b <= List.length a + List.length b)%nat.
Proof. destruct (lcs_alignment a b) as (d & _ & H). lia. Qed.

(** Alignments grow at the end as they do at the front. *)
Lemma alignment_snoc_delete a b d x :
  alignment a b d -> alignment (a ++ [x]) b (S d).
Proof.
  induction 1; simpl.
  - apply align_delete, align_nil.
  - apply align_delete. assumption.
  - apply align_insert. assumption.
  - apply align_keep; assumption.
Qed.

Lemma alignment_snoc_insert a b d y :
  alignment a b d -> alignment a (b ++ [y]) (S d).
Proof.
  induction 1; simpl.
  - apply align_insert, align_nil.
  - apply align_delete. assumption.
  - apply align_insert. assumption.
  - apply align_keep; assumption.
Qed.

Lemma alignment_snoc_keep a b d x y :
  eqb x y = true -> alignment a b d -> alignment (a ++ [x]) (b ++ [y]) d.
Proof.
  intros E. induction 1; simpl.
  - apply align_keep; [assumption|apply align_nil].
  - apply align_delete. assumption.
  - apply align_insert. assumption.
  - apply align_keep; assumption.
Qed.

End SequenceFacts.

Lemma lcs_flip {X Y} (eqb : X -> Y -> bool) a : forall b,
  lcs eqb a b = lcs (fun y x => eqb x y) b a.
Proof.
  induction a as [|x a IHa]; intros b.
  - rewrite lcs_nil_r. reflexivity.
  - induction b as [|y b IHb]; [reflexivity|].
    rewrite !lcs_cons. rewrite IHa, IHb, (IHa (y :: b)).
    destruct (eqb x y); [reflexivity|apply Nat.max_comm].
Qed.

Section ScriptFacts.

Context {X : Type}.
Variable dec : forall x y : X, {x = y} + {x <> y}.

Lemma eqb_of_true x y : eqb_of dec x y = true <-> x = y.
Proof. unfold eqb_of. destruct (dec x y); split; congruence. Qed.

Lemma script_alignment (s : list (Edit X)) : forall a b,
  apply_edits s a = Some b -> alignment (eqb_of dec) a b (cost s).
Proof.
  induction s as [|[| |y] s IH]; intros a b H.
  - destruct a; simpl in H; [|discriminate]. injection H as <-. constructor.
  - destruct a as [|x a]; simpl in H; [discriminate|].
    destruct (apply_edits s a) as [b'|] eqn:E; simpl in H; [|discriminate].
    injection H as <-. simpl. apply align_keep; [apply eqb_of_true; reflexivity|].
    apply IH. assumption.
  - destruct a as [|x a]; simpl in H; [discriminate|].
    simpl. apply align_delete. apply IH. assumption.
  - assert (option_map (cons y) (apply_edits s a) = Some b) as H'
      by (destruct a; exact H).
    destruct (apply_edits s a) as [b'|] eqn:E; simpl in H'; [|discriminate].
    injection H' as <-. simpl. apply align_insert. apply IH. assumption.
Qed.

Lemma alignment_script a b d :
  alignment (eqb_of dec) a b d ->
  exists s : list (Edit X), apply_edits s a = Some b /\ cost s = d.
Proof.
  induction 1 as [|x a b d H (s & Hs & Hc)|y a b d H (s & Hs & Hc)
                  |x y a b d E H (s & Hs & Hc)].
  - exists []. auto.
  - exists (Delete :: s). simpl. auto.
  - exists (Insert y :: s). simpl. rewrite Hs. destruct a; simpl; auto.
  - apply eqb_of_true in E. subst y.
    exists (Keep :: s). simpl. rewrite Hs. auto.
Qed.

End ScriptFacts.

(** * [Diff] on two slices *)

Lemma firstn_succ {X} (l : list X) : forall (p : nat) e,
  nth_error l p = Some e -> firstn (S p) l = firstn p l ++ [e].
Proof.
  induction l as [|h t IH]; intros [|p] e H; simpl in *; try discriminate.
  - injection H as ->. reflexivity.
  - rewrite <- (IH p e H). reflexivity.
Qed.

Lemma index_app_middle {X} (l : list X) x r : index (l ++ x :: r) (len l) = Ok x.
Proof.
  apply index_Ok. unfold len. split; [lia|].
  rewrite Nat2Z.id, nth_error_app2 by lia. rewrite Nat.sub_diag. reflexivity.
Qed.

Section SlicesFacts.

Context {X Y : Type}.
Variable eqb : X -> Y -> bool.

Lemma slices_well_behaved a b : well_behaved (slices eqb a b).
Proof.
  split; [simpl; unfold len; lia|]. split; [simpl; unfold len; lia|].
  intros x y Hx Hy. simpl in *.
  destruct (index_total a Hx) as [ex ->]. destruct (index_total b Hy) as [ey ->].
  eexists. reflexivity.
Qed.

Lemma equal_of_slices a b x y ex ey :
  index a x = Ok ex -> index b y = Ok ey ->
  equal_of (slices eqb a b) x y = eqb ex ey.
Proof.
  intros Hx Hy. unfold equal_of. simpl. rewrite Hx, Hy. reflexivity.
Qed.

(** A path of the edit graph inside the two slices is an alignment of the
    prefixes that it has passed. *)
Lemma reach_alignment a b d x y :
  reach (len a) (len b) (equal_of (slices eqb a b)) d x y ->
  x <= len a -> y <= len b ->
  alignment eqb (firstn (Z.to_nat x) a) (firstn (Z.to_nat y) b) d.
Proof.
  induction 1 as [|d x y Hr IH|d x y Hr IH|d x y Hr IH Hx Hy He]; intros Hxa Hyb.
  - apply align_nil.
  - destruct (reach_bounds Hr) as (Hx0 & Hy0 & _).
    destruct (@index_total _ a x) as [e He]; [lia|].
    apply index_Ok in He. destruct He as [_ He].
    replace (Z.to_nat (x + 1)) with (S (Z.to_nat x)) by lia.
    rewrite (firstn_succ _ _ He). apply alignment_snoc_delete. apply IH; lia.
  - destruct (reach_bounds Hr) as (Hx0 & Hy0 & _).
    destruct (@index_total _ b y) as [e He]; [lia|].
    apply index_Ok in He. destruct He as [_ He].
    replace (Z.to_nat (y + 1)) with (S (Z.to_nat y)) by lia.
    rewrite (firstn_succ _ _ He). apply alignment_snoc_insert. apply IH; lia.
  - destruct (reach_bounds Hr) as (Hx0 & Hy0 & _).
    destruct (@index_total _ a x) as [ex Hex]; [lia|].
    destruct (@index_total _ b y) as [ey Hey]; [lia|].
    rewrite (@equal_of_slices a b x y ex ey Hex Hey) in He.
    apply index_Ok in Hex. destruct Hex as [_ Hex].
    apply index_Ok in Hey. destruct Hey as [_ Hey].
    replace (Z.to_nat (x + 1)) with (S (Z.to_nat x)) by lia.
    replace (Z.to_nat (y + 1)) with (S (Z.to_nat y)) by lia.
    rewrite (firstn_succ _ _ Hex), (firstn_succ _ _ Hey).
    apply alignment_snoc_keep; [assumption|]. apply IH; lia.
Qed.

(** An alignment of what remains of the two slices continues a path. *)
Lemma alignment_reach a2 b2 d2 :
  alignment eqb a2 b2 d2 ->
  forall a1 b1 d1,
    reach (len (a1 ++ a2)) (len (b1 ++ b2))
          (equal_of (slices eqb (a1 ++ a2) (b1 ++ b2))) d1 (len a1) (len b1) ->
    reach (len (a1 ++ a2)) (len (b1 ++ b2))
          (equal_of (slices eqb (a1 ++ a2) (b1 ++ b2))) (d1 + d2)
          (len (a1 ++ a2)) (len (b1 ++ b2)).
Proof.
  induction 1 as [|x a b d H IH|y a b d H IH|x y a b d E H IH]; intros a1 b1 d1 Hr.
  - rewrite !app_nil_r in *. rewrite Nat.add_0_r. exact Hr.
  - specialize (IH (a1 ++ [x]) b1 (S d1)).
    rewrite <- app_assoc in IH. cbn [app] in IH.
    rewrite Nat.add_succ_r. apply IH.
    rewrite (len_app a1 [x]). change (len [x]) with 1.
    apply reach_right. exact Hr.
  - specialize (IH a1 (b1 ++ [y]) (S d1)).
    rewrite <- app_assoc in IH. cbn [app] in IH.
    rewrite Nat.add_succ_r. apply IH.
    rewrite (len_app b1 [y]). change (len [y]) with 1.
    apply reach_down. exact Hr.
  - specialize (IH (a1 ++ [x]) (b1 ++ [y]) d1).
    rewrite <- !app_assoc in IH. cbn [app] in IH.
    apply IH. rewrite (len_app a1 [x]), (len_app b1 [y]).
    change (len [x]) with 1. change (len [y]) with 1.
    apply reach_diag; [exact Hr| | |].
    + rewrite len_app. unfold len. cbn [List.length]. lia.
    + rewrite len_app. unfold len. cbn [List.length]. lia.
    + rewrite (@equal_of_slices _ _ _ _ x y); [assumption| |];
        apply index_app_middle.
Qed.

(** The result of [Diff] is the least number of unpaired elements of an
    alignment. *)
Lemma Diff_alignment a b :
  exists (D : nat) evs,
    Diff (slices eqb a b) = Ok (Z.of_nat D, evs) /\
    alignment eqb a b D /\
    (forall d, alignment eqb a b d -> (D <= d)%nat) /\
    2 * total (commons evs) + Z.of_nat D = len a + len b.
Proof.
  destruct (Diff_run (slices_well_behaved a b))
    as (D & evs & cs & HD & Hcs & _ & _ & Hr & Hmin & _ & _ & _ & _ & _ & _ & Htot & _).
  simpl in Hr, Hmin, Htot.
  exists D, evs. split; [assumption|]. split; [|split].
  - pose proof (reach_alignment Hr (Z.le_refl _) (Z.le_refl _)) as H.
    unfold len in H. rewrite !Nat2Z.id, !firstn_all in H. exact H.
  - intros d Hd. apply Hmin.
    apply (alignment_reach Hd [] [] (d1 := O)). apply reach_origin.
  - rewrite Hcs. exact Htot.
Qed.

Lemma Diff_lcs a b :
  exists evs,
    Diff (slices eqb a b) = Ok (len a + len b - 2 * Z.of_nat (lcs eqb a b), evs) /\
    total (commons evs) = Z.of_nat (lcs eqb a b).
Proof.
  destruct (Diff_alignment a b) as (D & evs & HD & Hal & Hmin & Htot).
  pose proof (alignment_lcs Hal) as H1.
  destruct (lcs_alignment eqb a b) as (d0 & Hd0 & H2).
  pose proof (Hmin _ Hd0) as H3.
  exists evs. unfold len in *.
  replace (Z.of_nat (List.length a) + Z.of_nat (List.length b)
           - 2 * Z.of_nat (lcs eqb a b)) with (Z.of_nat D) by lia.
  split; [assumption|lia].
Qed.

End SlicesFacts.

(** * Properties of [Diff] on two sequences *)

(** C1: for two sequences [a] and [b] of elements with decidable equality,
    [Diff] returns [N + M - 2 * lcs a b], where [lcs] is the reference
    recurrence; this number is the cost of an edit script that transforms
    [a] into [b], and no such script costs less. *)
Theorem Diff_edit_distance {X : Type} (dec : forall x y : X, {x = y} + {x <> y})
    (a b : list X) :
  exists (d : nat) evs,
    Diff (slices (eqb_of dec) a b) = Ok (Z.of_nat d, evs) /\
    Z.of_nat d = len a + len b - 2 * Z.of_nat (lcs (eqb_of dec) a b) /\
    (exists s, apply_edits s a = Some b /\ cost s = d) /\
    (forall s, apply_edits s a = Some b -> (d <= cost s)%nat).
Proof.
  destruct (Diff_alignment (eqb_of dec) a b) as (D & evs & HD & Hal & Hmin & _).
  destruct (Diff_lcs (eqb_of dec) a b) as (evs' & HD' & _).
  exists D, evs. split; [assumption|]. split; [congruence|]. split.
  - apply (alignment_script Hal).
  - intros s Hs. apply Hmin. apply script_alignment. assumption.
Qed.

Lemma Diff_edit_distance_witness :
  exists (d : nat) evs,
    Diff (slices (eqb_of ascii_dec) ["a"; "b"]%char ["b"; "a"]%char)
    = Ok (Z.of_nat d, evs) /\
    Z.of_nat d = 2 + 2 - 2 * Z.of_nat (lcs (eqb_of ascii_dec)
                                         ["a"; "b"]%char ["b"; "a"]%char) /\
    (exists s, apply_edits s ["a"; "b"]%char = Some ["b"; "a"]%char /\ cost s = d) /\
    (forall s, apply_edits s ["a"; "b"]%char = Some ["b"; "a"]%char ->
               (d <= cost s)%nat).
Proof.
  exact (Diff_edit_distance ascii_dec ["a"; "b"]%char ["b"; "a"]%char).
Defined.

(** ** Parts of a slice *)

Section PartFacts.

Context {X : Type}.
Implicit Types (l : list X).

Lemma skipn_nth_error l : forall (p : nat) e,
  nth_error l p = Some e -> skipn p l = e :: skipn (S p) l.
Proof.
  induction l as [|h t IH]; intros [|p] e H; simpl in *; try discriminate.
  - injection H as ->. reflexivity.
  - apply IH. assumption.
Qed.

Lemma firstn_plus l : forall (p q : nat),
  firstn (p + q) l = firstn p l ++ firstn q (skipn p l).
Proof.
  induction l as [|h t IH]; intros [|p] q; simpl; auto.
  - rewrite firstn_nil. reflexivity.
  - rewrite IH. reflexivity.
Qed.

Lemma part_cons l i hi e :
  index l i = Ok e -> i < hi -> part l i hi = e :: part l (i + 1) hi.
Proof.
  intros H Hlt. apply index_Ok in H. destruct H as [H0 H]. unfold part.
  rewrite (skipn_nth_error _ _ H).
  replace (Z.to_nat (hi - i)) with (S (Z.to_nat (hi - (i + 1)))) by lia.
  replace (Z.to_nat (i + 1)) with (S (Z.to_nat i)) by lia. reflexivity.
Qed.

Lemma part_empty l i hi : hi <= i -> part l i hi = [].
Proof.
  intros H. unfold part. replace (Z.to_nat (hi - i)) with O by lia. reflexivity.
Qed.

Lemma part_app l lo mid hi :
  0 <= lo <= mid -> mid <= hi -> part l lo mid ++ part l mid hi = part l lo hi.
Proof.
  intros H1 H2. unfold part.
  replace (Z.to_nat (hi - lo)) with (Z.to_nat (mid - lo) + Z.to_nat (hi - mid))%nat by lia.
  rewrite firstn_plus, skipn_skipn.
  replace (Z.to_nat (mid - lo) + Z.to_nat lo)%nat with (Z.to_nat mid) by lia.
  reflexivity.
Qed.

Lemma part_all l : part l 0 (len l) = l.
Proof.
  unfold part, len. simpl. rewrite Z.sub_0_r, Nat2Z.id. apply firstn_all.
Qed.

Lemma slice_Ok l lo hi :
  0 <= lo <= hi -> hi <= len l -> slice l lo hi = Ok (part l lo hi).
Proof.
  intros H1 H2. unfold slice.
  destruct (Z.leb_spec 0 lo); [|lia]. destruct (Z.leb_spec lo hi); [|lia].
  destruct (Z.leb_spec hi (len l)); [|lia]. reflexivity.
Qed.

End PartFacts.

Lemma range_cons lo hi : lo < hi -> range lo hi = lo :: range (lo + 1) hi.
Proof.
  intros H. unfold range.
  replace (Z.to_nat (hi - lo)) with (S (Z.to_nat (hi - (lo + 1)))) by lia.
  cbn [seq map]. rewrite <- seq_shift, map_map. f_equal; [lia|].
  apply map_ext. intros t. lia.
Qed.

Lemma range_empty lo hi : hi <= lo -> range lo hi = [].
Proof.
  intros H. unfold range. replace (Z.to_nat (hi - lo)) with O by lia. reflexivity.
Qed.

Lemma range_length lo hi : lo <= hi -> Z.of_nat (List.length (range lo hi)) = hi - lo.
Proof. intros H. unfold range. rewrite length_map, length_seq. lia. Qed.

(** ** Order and coverage of the calls *)

Lemma ordered_ends cs : forall g pi pj,
  ordered g pi pj cs ->
  Forall (fun c : Call => let '(i, j, n) := c in
            pi <= i /\ pj <= j /\ 0 <= n /\
            i + n <= fst (cursor (pi, pj) cs) /\
            j + n <= snd (cursor (pi, pj) cs)) cs.
Proof.
  induction cs as [|[[i j] c] cs IH]; intros g pi pj H; [constructor|].
  cbn [ordered] in H. destruct H as (H1 & H2 & H3 & H4 & H5).
  pose proof (ordered_cursor _ _ _ _ H5) as [H6 H7].
  constructor.
  - cbn [cursor]. lia.
  - cbn [cursor]. eapply Forall_impl; [|apply (IH _ _ _ H5)].
    intros [[i' j'] c']. lia.
Qed.

Lemma ordered_adjacent pre : forall g pi pj i j n i' j' n' post,
  ordered g pi pj (pre ++ (i, j, n) :: (i', j', n') :: post) ->
  i + n <= i' /\ j + n <= j' /\ (i + n) + (j + n) < i' + j'.
Proof.
  intros g pi pj i j n i' j' n' post H.
  apply ordered_app in H. destruct H as [_ H]. cbn [ordered] in H. lia.
Qed.

Lemma before_last {A} (pre0 : list A) z pre c1 c2 post :
  pre ++ c1 :: c2 :: post = pre0 ++ [z] -> In c1 pre0.
Proof.
  intros E. destruct (exists_last (l := c2 :: post)) as (l' & z' & El);
    [discriminate|].
  rewrite El in E.
  replace (pre ++ c1 :: l' ++ [z']) with ((pre ++ c1 :: l') ++ [z']) in E
    by (rewrite <- app_assoc; reflexivity).
  apply app_inj_tail in E. destruct E as [<- _].
  apply in_or_app. right. left. reflexivity.
Qed.

Lemma interleave_left {X} (l : list X) cs : forall g pi pj,
  ordered g pi pj cs -> 0 <= pi ->
  interleave l pi (left_runs cs) = part l pi (fst (cursor (pi, pj) cs)).
Proof.
  induction cs as [|[[i j] c] cs IH]; intros g pi pj H Hpi.
  - simpl. rewrite part_empty by lia. reflexivity.
  - cbn [ordered] in H. destruct H as (H1 & H2 & H3 & H4 & H5).
    pose proof (ordered_cursor _ _ _ _ H5) as [H6 H7].
    cbn [left_runs map interleave cursor]. fold (left_runs cs).
    rewrite (IH _ _ _ H5) by lia.
    rewrite !part_app by lia. reflexivity.
Qed.

Lemma interleave_right {X} (l : list X) cs : forall g pi pj,
  ordered g pi pj cs -> 0 <= pj ->
  interleave l pj (right_runs cs) = part l pj (snd (cursor (pi, pj) cs)).
Proof.
  induction cs as [|[[i j] c] cs IH]; intros g pi pj H Hpj.
  - simpl. rewrite part_empty by lia. reflexivity.
  - cbn [ordered] in H. destruct H as (H1 & H2 & H3 & H4 & H5).
    pose proof (ordered_cursor _ _ _ _ H5) as [H6 H7].
    cbn [right_runs map interleave cursor]. fold (right_runs cs).
    rewrite (IH _ _ _ H5) by lia.
    rewrite !part_app by lia. reflexivity.
Qed.

Section RunsOfSlices.

Context {X Y : Type}.
Variable eqb : X -> Y -> bool.
Variables (a : list X) (b : list Y).

Local Abbreviation N := (len a).
Local Abbreviation M := (len b).
Local Abbreviation eq := (equal_of (slices eqb a b)).

Lemma matching_Forall2 (k : nat) : forall i j,
  0 <= i -> 0 <= j -> matching N M eq i j (Z.of_nat k) ->
  Forall2 (fun x y => eqb x y = true)
    (part a i (i + Z.of_nat k)) (part b j (j + Z.of_nat k)).
Proof.
  induction k as [|k IH]; intros i j Hi Hj Hmat.
  - rewrite !part_empty by lia. constructor.
  - destruct (Hmat 0) as (H1 & H2 & H3); [lia|]. rewrite !Z.add_0_r in *.
    destruct (@index_total _ a i) as [ex Hex]; [lia|].
    destruct (@index_total _ b j) as [ey Hey]; [lia|].
    rewrite (@equal_of_slices _ _ eqb _ _ _ _ _ _ Hex Hey) in H3.
    rewrite (part_cons _ Hex), (part_cons _ Hey) by lia.
    constructor; [assumption|].
    replace (i + Z.of_nat (S k)) with (i + 1 + Z.of_nat k) by lia.
    replace (j + Z.of_nat (S k)) with (j + 1 + Z.of_nat k) by lia.
    apply IH; try lia.
    intros t Ht. specialize (Hmat (t + 1)).
    replace (i + (t + 1)) with (i + 1 + t) in Hmat by lia.
    replace (j + (t + 1)) with (j + 1 + t) in Hmat by lia.
    apply Hmat. lia.
Qed.

Lemma run_ok_slices i j c :
  run_ok N M eq (i, j, c) -> 0 <= c ->
  Forall2 (fun x y => eqb x y = true) (part a i (i + c)) (part b j (j + c)) /\
  (forall x y, index a (i + c) = Ok x -> index b (j + c) = Ok y -> eqb x y = false).
Proof.
  intros (Hi & Hj & Hmat & Hstop) Hc. split.
  - replace c with (Z.of_nat (Z.to_nat c)) by lia.
    apply matching_Forall2; try assumption.
    rewrite Z2Nat.id by lia. assumption.
  - intros x y Hx Hy. rewrite (@equal_of_slices _ _ eqb _ _ _ _ _ _ Hx Hy) in Hstop.
    apply index_lt in Hx. apply index_lt in Hy.
    destruct (eqb x y); [|reflexivity]. exfalso. apply Hstop. lia.
Qed.

End RunsOfSlices.

(** C5: the calls of [Common] report runs of pairwise equal elements that
    lie inside the two sequences and are not followed by a further equal
    pair; of two consecutive calls the first reports at least one element
    and the second starts after the end of the first on both sides, with at
    least one unreported element between them; the reported runs with the
    elements between them make up the left sequence, and likewise the right
    one.  The runs are as long as runs can be: together they report as many
    pairs of equal elements as a longest common subsequence of the two
    sequences has, and the elements outside them are the edits that [Diff]
    counts. *)
Theorem common_runs {X Y : Type} (eqb : X -> Y -> bool) (a : list X) (b : list Y) :
  exists d evs,
    Diff (slices eqb a b) = Ok (d, evs) /\
    Forall (fun c : Call => let '(i, j, n) := c in
              0 <= i /\ 0 <= j /\ 0 <= n /\ i + n <= len a /\ j + n <= len b /\
              Forall2 (fun x y => eqb x y = true)
                (part a i (i + n)) (part b j (j + n)) /\
              (forall x y, index a (i + n) = Ok x -> index b (j + n) = Ok y ->
                           eqb x y = false))
           (commons evs) /\
    (forall pre i j n i' j' n' post,
       commons evs = pre ++ (i, j, n) :: (i', j', n') :: post ->
       0 < n /\ i < i' /\ j < j' /\ i + n <= i' /\ j + n <= j' /\
       (i + n) + (j + n) < i' + j') /\
    interleave a 0 (left_runs (commons evs)) = a /\
    interleave b 0 (right_runs (commons evs)) = b /\
    total (commons evs) = Z.of_nat (lcs eqb a b) /\
    d = len a + len b - 2 * total (commons evs).
Proof.
  destruct (Diff_run (slices_well_behaved eqb a b))
    as (D & evs & cs & HD & Hcs & _ & _ & _ & _ & _ & _ & _ & _
        & Hord & Hall & Htot & (pre0 & i0 & j0 & c0 & E & Hi & Hj & Hpre) & _).
  change (fst (Lengths (slices eqb a b))) with (len a) in *.
  change (snd (Lengths (slices eqb a b))) with (len b) in *.
  assert (cursor (0, 0) cs = (len a, len b)) as Hcur.
  { rewrite E, cursor_app. cbn [cursor]. congruence. }
  assert (total cs = Z.of_nat (lcs eqb a b)) as Hlcs.
  { destruct (Diff_lcs eqb a b) as (evs' & HD' & Ht').
    rewrite HD in HD'. assert (evs' = evs) as -> by congruence.
    rewrite Hcs in Ht'. exact Ht'. }
  exists (Z.of_nat D), evs. rewrite Hcs.
  split; [assumption|]. split; [|split; [|split; [|split; [|split]]]];
    [| | | |exact Hlcs|lia].
  - pose proof Hord as Hends. apply ordered_ends in Hends. rewrite Hcur in Hends.
    cbn [fst snd] in Hends.
    rewrite Forall_forall in *. intros [[i j] n] Hin.
    specialize (Hall _ Hin). specialize (Hends _ Hin). cbv beta iota in Hends.
    destruct Hends as (H1 & H2 & H3 & H4 & H5).
    destruct (run_ok_slices Hall H3) as [H6 H7].
    repeat (split; [assumption|]). assumption.
  - intros pre i j n i' j' n' post E'.
    rewrite E' in Hord. apply ordered_adjacent in Hord.
    destruct Hord as (H1 & H2 & H3).
    assert (0 < n) as Hn.
    { rewrite E in E'. symmetry in E'. apply before_last in E'.
      rewrite Forall_forall in Hpre. apply (Hpre _ E'). }
    lia.
  - erewrite interleave_left; [|exact Hord|lia].
    rewrite Hcur. apply part_all.
  - erewrite interleave_right; [|exact Hord|lia].
    rewrite Hcur. apply part_all.
Qed.

(** C2: the fixture of the package's test.  On "abcdefghijk" and
    "abxyzcdxyzfgxyzj" [Diff] returns 13 and calls [Common] five times, the
    last time with [n = 0]; the test adapter collects the slices "ab", "cd",
    "fg", "j" and the empty string on both sides. *)
Theorem harder_case :
  let d := {| sd_a := "abcdefghijk"; sd_b := "abxyzcdxyzfgxyzj";
              lcsa := []; lcsb := [] |} in
  match Diff (sd_interface d) with
  | Ok (edits, evs) =>
      edits = 13 /\
      commons evs = [(0, 0, 2); (2, 5, 2); (5, 10, 2); (9, 15, 1); (11, 16, 0)]
  | Panic _ => False
  end /\
  run_stringDiff "abcdefghijk" "abxyzcdxyzfgxyzj"
  = Ok (13, ["ab"; "cd"; "fg"; "j"; EmptyString]%string,
        ["ab"; "cd"; "fg"; "j"; EmptyString]%string).
Proof.
  split.
  - vm_compute. split; reflexivity.
  - vm_compute. reflexivity.
Qed.

(** ** The frame of depth 0 *)

(** C4, as stated, fails: on the empty left sequence and the right sequence
    "a", [Diff] returns 1 and calls [Common] once, [Common(0, 1, 0)], from
    the frame of depth 1; the frame of depth 0 makes no call. *)
Lemma innermost_makes_no_call :
  Diff (slices Ascii.eqb [] ["a"%char]) = Ok (1, [EvCommon 0 1 0]) /\
  innermost (slices Ascii.eqb [] ["a"%char]) = Ok (tt, []).
Proof. split; vm_compute; reflexivity. Qed.

(** C4, amended: on a well-behaved implementation with lengths small
    enough for the search, the call that always occurs is the last one,
    which the outermost frame of [common] makes (the frame of depth [d], the
    result of [Diff]); every call before it reports at least one element.
    The frame of depth 0 calls [Common] exactly when the two sequences start
    with a pair of equal elements or [d = 0]: it then reports the common
    prefix, [Common(0, 0, c0)]. *)
Theorem outermost_call_always_occurs (data : Interface) :
  well_behaved data -> fits data ->
  let N := fst (Lengths data) in
  let M := snd (Lengths data) in
  let c0 := slide N M (equal_of data) 0 0 in
  exists d evs pre i j c,
    Diff data = Ok (d, evs) /\
    commons evs = pre ++ [(i, j, c)] /\
    i + c = N /\ j + c = M /\
    Forall positive pre /\
    innermost data
    = Ok (tt, if (c0 >? 0) || (d =? 0) then [EvCommon 0 0 c0] else []).
Proof.
  intros WB _ N M c0.
  destruct (Diff_run WB)
    as (D & evs & cs & HD & Hcs & _ & _ & _ & _ & _ & _ & _ & _
        & _ & _ & _ & (pre & i & j & c & E & Hi & Hj & Hpre) & Hinner).
  exists (Z.of_nat D), evs, pre, i, j, c.
  split; [assumption|]. split; [congruence|]. split; [assumption|].
  split; [assumption|]. split; [assumption|].
  rewrite Hinner, backtrace_innermost. fold N M c0.
  destruct ((c0 >? 0) || (Z.of_nat D =? 0)); reflexivity.
Qed.

Lemma outermost_call_always_occurs_witness :
  well_behaved sample /\ fits sample /\
  exists d evs pre i j c,
    Diff sample = Ok (d, evs) /\
    commons evs = pre ++ [(i, j, c)] /\
    i + c = 2 /\ j + c = 2 /\
    Forall positive pre /\
    innermost sample
    = Ok (tt, if (slide 2 2 (equal_of sample) 0 0 >? 0) || (d =? 0)
              then [EvCommon 0 0 (slide 2 2 (equal_of sample) 0 0)] else []).
Proof.
  split; [exact sample_well_behaved|]. split; [exact sample_fits|].
  exact (outermost_call_always_occurs sample_well_behaved sample_fits).
Defined.

(** ** Symmetry *)

Lemma lcs_ext {X Y} (e1 e2 : X -> Y -> bool) :
  (forall x y, e1 x y = e2 x y) -> forall a b, lcs e1 a b = lcs e2 a b.
Proof.
  intros H a. induction a as [|x a IHa]; intros b; [reflexivity|].
  induction b as [|y b IHb]; [reflexivity|].
  rewrite !lcs_cons, H, IHa, IHb, (IHa (y :: b)). reflexivity.
Qed.

Lemma lcs_sym {X} (dec : forall x y : X, {x = y} + {x <> y}) a b :
  lcs (eqb_of dec) a b = lcs (eqb_of dec) b a.
Proof.
  rewrite lcs_flip. apply lcs_ext. intros x y. unfold eqb_of.
  destruct (dec y x), (dec x y); congruence.
Qed.

Lemma matched_pairs_length cs : forall g pi pj,
  ordered g pi pj cs -> Z.of_nat (List.length (matched_pairs cs)) = total cs.
Proof.
  induction cs as [|[[i j] c] cs IH]; intros g pi pj H; [reflexivity|].
  cbn [ordered] in H. destruct H as (_ & _ & _ & Hc & H).
  cbn [matched_pairs flat_map total]. fold (matched_pairs cs).
  rewrite length_app, length_map, Nat2Z.inj_add, (IH _ _ _ H).
  rewrite range_length by lia. lia.
Qed.

Lemma pairs_of_length {X Y} (eqb : X -> Y -> bool) a b :
  List.length (pairs_of eqb a b) = lcs eqb a b.
Proof.
  destruct (Diff_lcs eqb a b) as (evs & HD & Htot).
  destruct (Diff_run (slices_well_behaved eqb a b))
    as (D & evs' & cs & HD' & Hcs & _ & _ & _ & _ & _ & _ & _ & _ & Hord & _).
  assert (evs' = evs) by congruence. subst evs'.
  unfold pairs_of. rewrite HD. rewrite Hcs.
  pose proof (matched_pairs_length _ _ _ _ Hord) as H. rewrite Hcs in Htot. lia.
Qed.

(** C6, as stated, fails: for "ab" and "ba" the element reported as common
    is "b" (the pair (1, 0)), for "ba" and "ab" it is "a" (the pair (1, 0)
    again, (0, 1) after the swap). *)
Lemma matched_pairs_not_symmetric :
  ~ Permutation (pairs_of Ascii.eqb ["a"; "b"]%char ["b"; "a"]%char)
                (map swap (pairs_of Ascii.eqb ["b"; "a"]%char ["a"; "b"]%char)).
Proof.
  assert (pairs_of Ascii.eqb ["a"; "b"]%char ["b"; "a"]%char = [(1, 0)]) as ->
    by (vm_compute; reflexivity).
  assert (pairs_of Ascii.eqb ["b"; "a"]%char ["a"; "b"]%char = [(1, 0)]) as ->
    by (vm_compute; reflexivity).
  intros H. apply Permutation_length_1 in H. discriminate H.
Qed.

(** C6, amended: diffing [a] against [b] and [b] against [a] reports the
    same number of pairs of common elements, the length of a longest common
    subsequence, and returns the same number of edits. *)
Theorem matched_pairs_same_number {X : Type}
    (dec : forall x y : X, {x = y} + {x <> y}) (a b : list X) :
  List.length (pairs_of (eqb_of dec) a b)
  = List.length (map swap (pairs_of (eqb_of dec) b a)) /\
  List.length (pairs_of (eqb_of dec) a b) = lcs (eqb_of dec) a b /\
  exists d evs evs',
    Diff (slices (eqb_of dec) a b) = Ok (d, evs) /\
    Diff (slices (eqb_of dec) b a) = Ok (d, evs').
Proof.
  rewrite length_map, !pairs_of_length. split; [apply lcs_sym|].
  split; [reflexivity|].
  destruct (Diff_lcs (eqb_of dec) a b) as (evs & HD & _).
  destruct (Diff_lcs (eqb_of dec) b a) as (evs' & HD' & _).
  rewrite (lcs_sym dec b a) in HD'.
  replace (len b + len a) with (len a + len b) in HD' by lia.
  eexists _, evs, evs'. split; eassumption.
Qed.

(** * The side-by-side diff *)

Lemma index_text_at l i : 0 <= i < len l -> index l i = Ok (text_at l i).
Proof.
  intros H. apply index_Ok. split; [lia|]. unfold text_at.
  apply nth_error_nth'. unfold len in H. lia.
Qed.

Lemma range_shift lo hi :
  range (lo + 1) (hi + 1) = map (fun t => t + 1) (range lo hi).
Proof.
  unfold range. replace (hi + 1 - (lo + 1)) with (hi - lo) by lia.
  rewrite map_map. apply map_ext. intros t. lia.
Qed.

Section SideBySideFacts.

Variables a b : list string.

Lemma expected_gap_done i j : expected_gap a b i j i j = [].
Proof.
  unfold expected_gap. rewrite !Z.sub_diag. cbn [Z.min Z.compare].
  rewrite !range_empty by lia. reflexivity.
Qed.

Lemma expected_gap_changed i0 j0 i j :
  i0 < i -> j0 < j ->
  expected_gap a b i0 j0 i j
  = {| Left := text_at a i0; Right := text_at b j0; Type' := Changed |}
    :: expected_gap a b (i0 + 1) (j0 + 1) i j.
Proof.
  intros Hi Hj. unfold expected_gap.
  set (p := Z.min (i - i0) (j - j0)).
  replace (Z.min (i - (i0 + 1)) (j - (j0 + 1))) with (p - 1) by lia.
  rewrite (@range_cons 0 p) by lia.
  replace (range (0 + 1) p) with (range (0 + 1) (p - 1 + 1)) by (f_equal; lia).
  rewrite range_shift. cbn [map app]. rewrite !Z.add_0_r. f_equal.
  rewrite map_map.
  replace (i0 + 1 + (p - 1)) with (i0 + p) by lia.
  replace (j0 + 1 + (p - 1)) with (j0 + p) by lia.
  f_equal. apply map_ext. intros t.
  replace (i0 + (t + 1)) with (i0 + 1 + t) by lia.
  replace (j0 + (t + 1)) with (j0 + 1 + t) by lia. reflexivity.
Qed.

Lemma expected_gap_deleted i0 i j :
  i0 < i ->
  expected_gap a b i0 j i j
  = {| Left := text_at a i0; Right := EmptyString; Type' := Deleted |}
    :: expected_gap a b (i0 + 1) j i j.
Proof.
  intros Hi. unfold expected_gap. rewrite !Z.sub_diag.
  rewrite !Z.min_r by lia. rewrite !Z.add_0_r.
  rewrite (@range_cons i0 i) by lia. reflexivity.
Qed.

Lemma expected_gap_added i j0 j :
  j0 < j ->
  expected_gap a b i j0 i j
  = {| Left := EmptyString; Right := text_at b j0; Type' := Added |}
    :: expected_gap a b i (j0 + 1) i j.
Proof.
  intros Hj. unfold expected_gap. rewrite !Z.sub_diag.
  rewrite !Z.min_l by lia. rewrite !Z.add_0_r.
  rewrite (@range_cons j0 j) by lia. rewrite !range_empty by lia. reflexivity.
Qed.

Lemma expected_run_cons i j n :
  0 < n ->
  expected_run a b i j n
  = {| Left := text_at a i; Right := text_at b j; Type' := NoChange |}
    :: expected_run a b (i + 1) (j + 1) (n - 1).
Proof.
  intros Hn. unfold expected_run. rewrite (@range_cons 0 n) by lia.
  replace (range (0 + 1) n) with (range (0 + 1) (n - 1 + 1)) by (f_equal; lia).
  rewrite range_shift. cbn [map]. rewrite !Z.add_0_r. f_equal.
  rewrite map_map. apply map_ext. intros t.
  replace (i + (t + 1)) with (i + 1 + t) by lia.
  replace (j + (t + 1)) with (j + 1 + t) by lia. reflexivity.
Qed.

Lemma sbs_gap_spec fuel : forall i0 j0 lines i j,
  0 <= i0 <= i -> i <= len a -> 0 <= j0 <= j -> j <= len b ->
  (i - i0) + (j - j0) < Z.of_nat fuel ->
  sbs_gap fuel {| sbs_a := a; sbs_b := b; sbs_i := i0; sbs_j := j0;
                  sbs_lines := lines |} i j
  = Ok {| sbs_a := a; sbs_b := b; sbs_i := i; sbs_j := j;
          sbs_lines := lines ++ expected_gap a b i0 j0 i j |}.
Proof.
  induction fuel as [|fuel IH]; intros i0 j0 lines i j Hi Hia Hj Hjb Hfuel; [lia|].
  cbn [sbs_gap sbs_a sbs_b sbs_i sbs_j sbs_lines].
  destruct (Z.ltb_spec i0 i) as [Hlti|Hgei];
    destruct (Z.ltb_spec j0 j) as [Hltj|Hgej]; cbn [orb].
  - destruct (Z.geb_spec i0 i); [lia|]. destruct (Z.geb_spec j0 j); [lia|].
    rewrite !index_text_at by lia. cbn [bindR].
    rewrite IH by lia. rewrite (@expected_gap_changed i0 j0 i j) by lia.
    rewrite <- app_assoc. reflexivity.
  - destruct (Z.geb_spec i0 i); [lia|]. destruct (Z.geb_spec j0 j); [|lia].
    rewrite !index_text_at by lia. cbn [bindR].
    assert (j0 = j) by lia. subst j0.
    rewrite IH by lia. rewrite (@expected_gap_deleted i0 i j) by lia.
    rewrite <- app_assoc. reflexivity.
  - destruct (Z.geb_spec i0 i); [|lia].
    rewrite !index_text_at by lia. cbn [bindR].
    assert (i0 = i) by lia. subst i0.
    rewrite IH by lia. rewrite (@expected_gap_added i j0 j) by lia.
    rewrite <- app_assoc. reflexivity.
  - assert (i0 = i) by lia. assert (j0 = j) by lia. subst i0 j0.
    rewrite expected_gap_done, app_nil_r. reflexivity.
Qed.

Lemma sbs_run_spec fuel : forall i j lines n,
  0 <= i -> 0 <= j -> 0 <= n -> i + n <= len a -> j + n <= len b ->
  n < Z.of_nat fuel ->
  sbs_run fuel {| sbs_a := a; sbs_b := b; sbs_i := i; sbs_j := j;
                  sbs_lines := lines |} n
  = Ok {| sbs_a := a; sbs_b := b; sbs_i := i + n; sbs_j := j + n;
          sbs_lines := lines ++ expected_run a b i j n |}.
Proof.
  induction fuel as [|fuel IH]; intros i j lines n Hi Hj Hn Hia Hjb Hfuel; [lia|].
  cbn [sbs_run sbs_a sbs_b sbs_i sbs_j sbs_lines].
  destruct (Z.gtb_spec n 0) as [Hpos|Hzero].
  - rewrite !index_text_at by lia. cbn [bindR].
    rewrite IH by lia. rewrite (@expected_run_cons i j n) by lia.
    rewrite <- app_assoc. do 2 f_equal; lia.
  - assert (n = 0) by lia. subst n. unfold expected_run.
    rewrite range_empty by lia. cbn [map]. rewrite app_nil_r, !Z.add_0_r.
    reflexivity.
Qed.

Lemma sbs_replay cs : forall g i0 j0 lines,
  ordered g i0 j0 cs -> 0 <= i0 -> 0 <= j0 ->
  fst (cursor (i0, j0) cs) <= len a -> snd (cursor (i0, j0) cs) <= len b ->
  replay sbs_Common cs
    {| sbs_a := a; sbs_b := b; sbs_i := i0; sbs_j := j0; sbs_lines := lines |}
  = Ok {| sbs_a := a; sbs_b := b;
          sbs_i := fst (cursor (i0, j0) cs); sbs_j := snd (cursor (i0, j0) cs);
          sbs_lines := lines ++ expected_table a b i0 j0 cs |}.
Proof.
  induction cs as [|[[i j] n] cs IH]; intros g i0 j0 lines Hord Hi0 Hj0 Hca Hcb.
  - simpl. rewrite app_nil_r. reflexivity.
  - cbn [ordered] in Hord. destruct Hord as (H1 & H2 & _ & H4 & H5).
    cbn [cursor] in Hca, Hcb.
    pose proof (ordered_cursor _ _ _ _ H5) as [H6 H7].
    cbn [replay sbs_Common sbs_i sbs_j].
    rewrite sbs_gap_spec by lia. cbn [bindR].
    rewrite sbs_run_spec by lia. cbn [bindR].
    rewrite (IH _ _ _ _ H5) by lia.
    cbn [cursor expected_table]. rewrite <- !app_assoc. reflexivity.
Qed.

End SideBySideFacts.

(** C7: [SideBySide(a, b)] is the table that the specification describes
    for the runs that [Diff] reports: for every run, after the lines of the
    unmatched rows before it, one unchanged line per row; the unmatched rows
    are paired as changed lines while both sides have some, and the rest are
    deleted lines (left rows) or added lines (right rows).  The two tables
    of the specification are instances. *)
Theorem SideBySide_table :
  (forall a b : list string,
     exists d evs,
       Diff (slices String.eqb a b) = Ok (d, evs) /\
       SideBySide a b = Ok (expected_table a b 0 0 (commons evs))) /\
  SideBySide ["a"; "b"]%string ["a"; "c"]%string
  = Ok [ {| Left := "a"; Right := "a"; Type' := NoChange |};
         {| Left := "b"; Right := "c"; Type' := Changed |} ] /\
  SideBySide ["a"; "b"]%string ["a"; "c"; "b"]%string
  = Ok [ {| Left := "a"; Right := "a"; Type' := NoChange |};
         {| Left := EmptyString; Right := "c"; Type' := Added |};
         {| Left := "b"; Right := "b"; Type' := NoChange |} ].
Proof.
  split; [|split; vm_compute; reflexivity].
  intros a b.
  destruct (Diff_run (slices_well_behaved String.eqb a b))
    as (D & evs & cs & HD & Hcs & _ & _ & _ & _ & _ & _ & _ & _
        & Hord & _ & _ & (pre & i & j & c & E & Hi & Hj & _) & _).
  change (fst (Lengths (slices String.eqb a b))) with (len a) in *.
  change (snd (Lengths (slices String.eqb a b))) with (len b) in *.
  assert (cursor (0, 0) cs = (len a, len b)) as Hcur.
  { rewrite E, cursor_app. cbn [cursor]. congruence. }
  exists (Z.of_nat D), evs. split; [assumption|].
  unfold SideBySide, sbs_interface. cbn [sbs_a sbs_b].
  rewrite HD. cbn [bindR]. rewrite Hcs.
  rewrite (sbs_replay a b _ _ [] Hord) by (rewrite ?Hcur; simpl; lia).
  reflexivity.
Qed.

(** * The annotated diff *)

Lemma map_text_at_range (l : list string) (k : nat) : forall lo,
  0 <= lo -> lo + Z.of_nat k <= len l ->
  map (text_at l) (range lo (lo + Z.of_nat k)) = part l lo (lo + Z.of_nat k).
Proof.
  induction k as [|k IH]; intros lo Hlo Hhi.
  - rewrite range_empty, part_empty by lia. reflexivity.
  - rewrite range_cons by lia. cbn [map].
    rewrite (@part_cons _ l lo _ (text_at l lo)) by (try apply index_text_at; lia).
    replace (lo + Z.of_nat (S k)) with (lo + 1 + Z.of_nat k) by lia.
    rewrite IH by lia. reflexivity.
Qed.

Lemma map_text_at_part (l : list string) lo hi :
  0 <= lo <= hi -> hi <= len l -> map (text_at l) (range lo hi) = part l lo hi.
Proof.
  intros H1 H2. replace hi with (lo + Z.of_nat (Z.to_nat (hi - lo))) by lia.
  apply map_text_at_range; lia.
Qed.

Lemma same_texts (xs : list AnnotatedLine) (ys : list string) :
  Forall2 (fun l s => String.eqb (Text l) s = true) xs ys -> map Text xs = ys.
Proof.
  induction 1 as [|x y xs ys E _ IH]; [reflexivity|].
  apply String.eqb_eq in E. simpl. congruence.
Qed.

Section AnnotateFacts.

Variable a : list AnnotatedLine.
Variable b : list string.
Variable version : Z.

Lemma ann_gap_spec fuel : forall j0 lines j,
  0 <= j0 <= j -> j <= len b -> j - j0 < Z.of_nat fuel ->
  ann_gap fuel {| ann_a := a; ann_b := b; ann_j := j0; ann_version := version;
                  ann_lines := lines |} j
  = Ok {| ann_a := a; ann_b := b; ann_j := j; ann_version := version;
          ann_lines := lines ++
            map (fun y => {| Text := text_at b y; Version := version |})
                (range j0 j) |}.
Proof.
  induction fuel as [|fuel IH]; intros j0 lines j Hj Hjb Hfuel; [lia|].
  cbn [ann_gap ann_a ann_b ann_j ann_version ann_lines].
  destruct (Z.ltb_spec j0 j) as [Hlt|Hge].
  - rewrite index_text_at by lia. cbn [bindR].
    rewrite IH by lia. rewrite (@range_cons j0 j) by lia. cbn [map].
    rewrite <- app_assoc. reflexivity.
  - assert (j0 = j) by lia. subst j0.
    rewrite range_empty by lia. cbn [map]. rewrite app_nil_r. reflexivity.
Qed.

Lemma ann_replay cs : forall g i0 j0 lines,
  ordered g i0 j0 cs -> 0 <= i0 -> 0 <= j0 ->
  fst (cursor (i0, j0) cs) <= len a -> snd (cursor (i0, j0) cs) <= len b ->
  replay ann_Common cs
    {| ann_a := a; ann_b := b; ann_j := j0; ann_version := version;
       ann_lines := lines |}
  = Ok {| ann_a := a; ann_b := b; ann_j := snd (cursor (i0, j0) cs);
          ann_version := version;
          ann_lines := lines ++ expected_annotation a b version j0 cs |}.
Proof.
  induction cs as [|[[i j] n] cs IH]; intros g i0 j0 lines Hord Hi0 Hj0 Hca Hcb.
  - simpl. rewrite app_nil_r. reflexivity.
  - cbn [ordered] in Hord. destruct Hord as (H1 & H2 & _ & H4 & H5).
    cbn [cursor] in Hca, Hcb.
    pose proof (ordered_cursor _ _ _ _ H5) as [H6 H7].
    cbn [replay ann_Common ann_j].
    rewrite ann_gap_spec by lia. cbn [bindR ann_a ann_b ann_j ann_version ann_lines].
    rewrite slice_Ok by lia. cbn [bindR].
    rewrite (IH _ (i + n) _ _ H5) by lia.
    cbn [cursor expected_annotation]. rewrite <- !app_assoc. reflexivity.
Qed.

Lemma expected_annotation_texts cs : forall g i0 j0,
  ordered g i0 j0 cs -> 0 <= i0 -> 0 <= j0 ->
  snd (cursor (i0, j0) cs) <= len b ->
  Forall (fun c : Call => let '(i, j, n) := c in
            Forall2 (fun l s => String.eqb (Text l) s = true)
              (part a i (i + n)) (part b j (j + n))) cs ->
  map Text (expected_annotation a b version j0 cs)
  = interleave b j0 (right_runs cs).
Proof.
  induction cs as [|[[i j] n] cs IH]; intros g i0 j0 Hord Hi0 Hj0 Hcb Hall;
    [reflexivity|].
  cbn [ordered] in Hord. destruct Hord as (H1 & H2 & _ & H4 & H5).
  cbn [cursor] in Hcb. pose proof (ordered_cursor _ _ _ _ H5) as [H6 H7].
  pose proof (Forall_inv Hall) as Hrun. cbv beta iota in Hrun.
  pose proof (Forall_inv_tail Hall) as Hall'.
  cbn [expected_annotation right_runs map interleave]. fold (right_runs cs).
  rewrite !map_app, map_map. cbn [Text].
  rewrite map_text_at_part by lia.
  rewrite (same_texts Hrun).
  rewrite (IH _ (i + n) _ H5) by (assumption || lia). reflexivity.
Qed.

End AnnotateFacts.

(** C8: [Annotate(prevAnnotated, newLines, version)] is, for the runs that
    [Diff] reports, the list made of the rows of [newLines] before each run,
    each with [version], followed by the lines of [prevAnnotated] in the
    run, with their versions; the rows of [prevAnnotated] outside the runs
    are not in it.  The texts of the result are the lines of [newLines]. *)
Theorem Annotate_lines (a : list AnnotatedLine) (b : list string) (version : Z) :
  exists d evs lines,
    Diff (slices (fun l s => String.eqb (Text l) s) a b) = Ok (d, evs) /\
    Annotate a b version = Ok lines /\
    lines = expected_annotation a b version 0 (commons evs) /\
    map Text lines = b.
Proof.
  set (eqb := fun (l : AnnotatedLine) s => String.eqb (Text l) s).
  destruct (Diff_run (slices_well_behaved eqb a b))
    as (D & evs & cs & HD & Hcs & _ & _ & _ & _ & _ & _ & _ & _
        & Hord & Hall & _ & (pre & i & j & c & E & Hi & Hj & _) & _).
  change (fst (Lengths (slices eqb a b))) with (len a) in *.
  change (snd (Lengths (slices eqb a b))) with (len b) in *.
  assert (cursor (0, 0) cs = (len a, len b)) as Hcur.
  { rewrite E, cursor_app. cbn [cursor]. congruence. }
  exists (Z.of_nat D), evs, (expected_annotation a b version 0 cs).
  split; [assumption|]. split; [|split; [rewrite Hcs; reflexivity|]].
  - unfold Annotate, ann_interface. cbn [ann_a ann_b]. fold eqb.
    rewrite HD. cbn [bindR]. rewrite Hcs.
    rewrite (ann_replay a b version _ _ [] Hord) by (rewrite ?Hcur; simpl; lia).
    reflexivity.
  - erewrite expected_annotation_texts;
      [|exact Hord|lia|lia|rewrite Hcur; simpl; lia|].
    + erewrite interleave_right; [|exact Hord|lia].
      rewrite Hcur. apply part_all.
    + pose proof Hord as Hends. apply ordered_ends in Hends.
      rewrite Forall_forall in *. intros [[i' j'] n'] Hin.
      specialize (Hall _ Hin). specialize (Hends _ Hin). cbv beta iota in Hends.
      apply (run_ok_slices Hall). lia.
Qed.

(** The example of the package: three versions of a file. *)
Example Annotate_three_versions :
  (l0 <~ Annotate [] ["0a"; "0b"; "0c"]%string 0 ;;
   l1 <~ Annotate l0 ["1a"; "0a"; "1b"; "0c"; "1c"]%string 1 ;;
   Annotate l1 ["0a"; "1b"; "0c"; "2a"; "2b"; "1c"]%string 2)
  = Ok [ {| Text := "0a"; Version := 0 |}; {| Text := "1b"; Version := 1 |};
         {| Text := "0c"; Version := 0 |}; {| Text := "2a"; Version := 2 |};
         {| Text := "2b"; Version := 2 |}; {| Text := "1c"; Version := 1 |} ].
Proof. vm_compute. reflexivity. Qed.

(** * The tables of the package's tests *)

Example TestDiff_table :
  Forall (fun t : string * string * list string * Z =>
            let '(a, b, l, edits) := t in
            run_stringDiff a b = Ok (edits, l, l))
    [ (EmptyString, EmptyString, [EmptyString], 0);
      (EmptyString, "a", [EmptyString], 1);
      ("a", EmptyString, [EmptyString], 1);
      ("a", "a", ["a"], 0);
      ("ab", "a", ["a"; EmptyString], 1);
      ("a", "ab", ["a"; EmptyString], 1);
      ("abc", "abc", ["abc"], 0);
      ("abc", "ac", ["a"; "c"], 1);
      ("bc", "abc", ["bc"], 1);
      ("ab", "abc", ["ab"; EmptyString], 1) ]%string.
Proof. repeat (constructor; [vm_compute; reflexivity|]). constructor. Qed.

Example TestSideBySide_table :
  SideBySide [] [] = Ok [] /\
  SideBySide ["a"; "b"]%string ["b"]%string
  = Ok [ {| Left := "a"; Right := EmptyString; Type' := Deleted |};
         {| Left := "b"; Right := "b"; Type' := NoChange |} ] /\
  SideBySide ["a"]%string ["b"; "c"]%string
  = Ok [ {| Left := "a"; Right := "b"; Type' := Changed |};
         {| Left := EmptyString; Right := "c"; Type' := Added |} ].
Proof. repeat split; vm_compute; reflexivity. Qed.

(** A run ends where the next pair of elements differs, but it may start
    after a pair of equal elements that the path does not use: for "xy" and
    "xxy" the second run is [(1, 2, 1)], although [left[0] = right[1]]. *)
Example run_after_unused_pair :
  match Diff (slices Ascii.eqb ["x"; "y"]%char ["x"; "x"; "y"]%char) with
  | Ok (d, evs) => d = 1 /\ commons evs = [(0, 0, 1); (1, 2, 1)]
  | Panic _ => False
  end.
Proof. vm_compute. split; reflexivity. Qed.

(** * Further properties of [Diff] *)

Lemma in_range_queries n m evs :
  Forall (in_range n m) evs ->
  evs = map (fun q : Z * Z => EvEqual (fst q) (snd q)) (queries evs).
Proof.
  induction 1 as [|[i j|i j c] evs H _ IH]; simpl; [reflexivity| |destruct H].
  rewrite <- IH. reflexivity.
Qed.

Lemma positive_total pre :
  Forall positive pre -> Z.of_nat (List.length pre) <= total pre.
Proof.
  induction 1 as [|[[i j] c] pre H _ IH]; simpl in *; lia.
Qed.

(** The calls when one of the two sequences is empty. *)
Lemma calls_empty_side (data : Interface) :
  well_behaved data ->
  fst (Lengths data) = 0 \/ snd (Lengths data) = 0 ->
  exists evs,
    Diff data = Ok (fst (Lengths data) + snd (Lengths data), evs) /\
    commons evs = [(fst (Lengths data), snd (Lengths data), 0)].
Proof.
  intros WB Hnm.
  destruct (Diff_run WB)
    as (D & evs & cs & HD & Hcs & _ & _ & _ & _ & _ & _ & _ & _
        & Hord & Hall & Htot & (pre & i & j & c & E & Hi & Hj & Hpre) & _).
  rewrite E in Hord, Hall, Htot.
  apply Forall_app in Hall. destruct Hall as [Hall Hlast].
  pose proof (Forall_inv Hlast) as Hrun. cbn in Hrun.
  destruct Hrun as (Hi0 & Hj0 & Hmat & _).
  apply ordered_app in Hord. destruct Hord as [_ Hord].
  simpl in Hord. destruct Hord as (_ & _ & _ & Hc & _).
  assert (pre = []) as ->.
  { destruct pre as [|c0 pre']; [reflexivity|]. exfalso.
    pose proof (Forall_inv Hall) as H1. pose proof (Forall_inv Hpre) as H2.
    destruct (@positive_run_inside _ _ _ c0 H1 H2). lia. }
  assert (c = 0) as ->.
  { destruct (Z.eq_dec c 0) as [|Hne]; [assumption|]. exfalso.
    destruct (Hmat 0) as (H1 & H2 & _); lia. }
  exists evs. simpl in Htot.
  replace (fst (Lengths data) + snd (Lengths data)) with (Z.of_nat D) by lia.
  split; [assumption|]. rewrite Hcs, E. simpl.
  replace i with (fst (Lengths data)) by lia.
  replace j with (snd (Lengths data)) by lia. reflexivity.
Qed.

(** X1: on a well-behaved implementation with lengths small enough for
    the search, the result of [Diff] lies between the difference and the
    sum of the two lengths and has the parity of their sum; it is the
    number of elements outside the reported runs, [N + M] less twice the
    number of elements reported; and there is at most one call of [Common]
    more than there are elements reported. *)
Theorem edits_and_reported_elements (data : Interface) :
  well_behaved data -> fits data ->
  let N := fst (Lengths data) in
  let M := snd (Lengths data) in
  exists d evs,
    Diff data = Ok (d, evs) /\
    Z.abs (N - M) <= d <= N + M /\
    (d + N + M) mod 2 = 0 /\
    d = N + M - 2 * total (commons evs) /\
    0 <= total (commons evs) <= Z.min N M /\
    len (commons evs) <= total (commons evs) + 1.
Proof.
  intros WB _ N M.
  destruct (Diff_run WB)
    as (D & evs & cs & HD & Hcs & _ & Hle & _ & _ & _ & _ & _ & Hdiag
        & Hord & _ & Htot & (pre & i & j & c & E & Hi & Hj & Hpre) & _).
  fold N in Hle, Hdiag, Htot, Hi. fold M in Hle, Hdiag, Htot, Hj.
  exists (Z.of_nat D), evs. rewrite Hcs.
  assert (0 <= c) as Hc.
  { rewrite E in Hord. apply ordered_app in Hord. destruct Hord as [_ Hord].
    simpl in Hord. lia. }
  pose proof (positive_total Hpre) as Hlen.
  assert (total cs = total pre + c) as Et
    by (rewrite E, total_app; simpl; lia).
  assert (len cs = Z.of_nat (List.length pre) + 1) as El
    by (rewrite E; unfold len; rewrite length_app; simpl; lia).
  unfold diag in Hdiag. unfold Call in *.
  split; [assumption|]. split; [lia|]. split; [arith|]. split; [lia|].
  split; lia.
Qed.

Lemma edits_and_reported_elements_witness :
  well_behaved sample /\ fits sample /\
  exists d evs,
    Diff sample = Ok (d, evs) /\
    Z.abs (2 - 2) <= d <= 2 + 2 /\
    (d + 2 + 2) mod 2 = 0 /\
    d = 2 + 2 - 2 * total (commons evs) /\
    0 <= total (commons evs) <= Z.min 2 2 /\
    len (commons evs) <= total (commons evs) + 1.
Proof.
  split; [exact sample_well_behaved|]. split; [exact sample_fits|].
  exact (edits_and_reported_elements sample_well_behaved sample_fits).
Defined.

(** X2: on a well-behaved implementation with lengths small enough for
    the search, [Diff] makes all its calls of [Equal] before its first call
    of [Common]: the log is the calls of [Equal] followed by the calls of
    [Common]. *)
Theorem Equal_calls_before_Common_calls (data : Interface) :
  well_behaved data -> fits data ->
  exists d evs,
    Diff data = Ok (d, evs) /\
    evs = map (fun q : Z * Z => EvEqual (fst q) (snd q)) (queries evs)
          ++ map call_event (commons evs).
Proof.
  intros WB _.
  destruct (Diff_spec WB) as (D & evs & HD & Hevs & _).
  eexists _, _. split; [exact HD|].
  rewrite commons_app, queries_app, commons_calls, queries_calls, app_nil_r.
  rewrite (commons_in_range Hevs). cbn [app].
  rewrite <- (in_range_queries Hevs). reflexivity.
Qed.

Lemma Equal_calls_before_Common_calls_witness :
  well_behaved sample /\ fits sample /\
  exists d evs,
    Diff sample = Ok (d, evs) /\
    evs = map (fun q : Z * Z => EvEqual (fst q) (snd q)) (queries evs)
          ++ map call_event (commons evs).
Proof.
  split; [exact sample_well_behaved|]. split; [exact sample_fits|].
  exact (Equal_calls_before_Common_calls sample_well_behaved sample_fits).
Defined.

(** X3: when the two lengths are [int]s whose sum is a negative [int],
    [Diff] does not enter its loop and panics with the failure of its last
    statement, "diff: no path found".  (Without the bound on the sum the
    code may do otherwise: for the lengths [min_int] and [-1] the sum wraps
    around to [max_int] in the code.) *)
Theorem negative_lengths_panic (data : Interface) :
  is_int (fst (Lengths data)) -> is_int (snd (Lengths data)) ->
  min_int <= fst (Lengths data) + snd (Lengths data) < 0 ->
  Diff data = Panic NoPathFound.
Proof.
  intros _ _ H. unfold Diff. destruct (Lengths data) as [n m]. simpl in H.
  replace (Z.to_nat (m + n)) with O by lia. cbn [Nat.add search].
  destruct (Z.leb_spec 0 (m + n)); [lia|]. reflexivity.
Qed.

Lemma negative_lengths_panic_witness :
  is_int (-1) /\ is_int 0 /\ min_int <= -1 + 0 < 0 /\
  Diff {| Lengths := (-1, 0); Equal := fun _ _ => Ok true |} = Panic NoPathFound.
Proof.
  assert (is_int (-1)) as H1 by (unfold is_int, min_int, max_int; cbn; lia).
  assert (is_int 0) as H2 by (unfold is_int, min_int, max_int; cbn; lia).
  assert (min_int <= -1 + 0 < 0) as H3 by (unfold min_int; cbn; lia).
  split; [exact H1|]. split; [exact H2|]. split; [exact H3|].
  exact (@negative_lengths_panic
           {| Lengths := (-1, 0); Equal := fun _ _ => Ok true |} H1 H2 H3).
Defined.

(** ** Equal sequences *)

Lemma alignment_Forall2 {X Y} (eqb : X -> Y -> bool) a b d :
  alignment eqb a b d -> d = O -> Forall2 (fun x y => eqb x y = true) a b.
Proof.
  induction 1; intros E; try discriminate; constructor; auto.
Qed.

Lemma Forall2_alignment {X Y} (eqb : X -> Y -> bool) a b :
  Forall2 (fun x y => eqb x y = true) a b -> alignment eqb a b O.
Proof.
  induction 1; [apply align_nil|apply align_keep; assumption].
Qed.

(** What the later statements use about a run on two slices. *)
Lemma slices_run {X Y} (eqb : X -> Y -> bool) (a : list X) (b : list Y) :
  exists (D : nat) evs cs,
    Diff (slices eqb a b) = Ok (Z.of_nat D, evs) /\
    commons evs = cs /\
    ordered 0 0 0 cs /\
    cursor (0, 0) cs = (len a, len b) /\
    Forall (fun c : Call => let '(i, j, n) := c in
              Forall2 (fun x y => eqb x y = true)
                (part a i (i + n)) (part b j (j + n))) cs /\
    total cs = Z.of_nat (lcs eqb a b) /\
    alignment eqb a b D /\
    (forall d, alignment eqb a b d -> (D <= d)%nat) /\
    cs = backtrace (len a) (len b) (equal_of (slices eqb a b))
           (Z.of_nat D) D (len a - len b).
Proof.
  destruct (Diff_run (slices_well_behaved eqb a b))
    as (D & evs & cs & HD & Hcs & _ & _ & _ & _ & _ & _ & Hbt & _
        & Hord & Hall & _ & (pre & i & j & c & E & Hi & Hj & _) & _).
  change (fst (Lengths (slices eqb a b))) with (len a) in *.
  change (snd (Lengths (slices eqb a b))) with (len b) in *.
  destruct (Diff_lcs eqb a b) as (evs1 & HD1 & Htot).
  destruct (Diff_alignment eqb a b) as (D2 & evs2 & HD2 & Hal & Hmin & _).
  assert (evs1 = evs) by congruence. subst evs1.
  assert (D2 = D) by (assert (Z.of_nat D2 = Z.of_nat D) by congruence; lia).
  subst D2.
  exists D, evs, cs. split; [assumption|]. split; [assumption|].
  split; [assumption|]. split.
  { rewrite E, cursor_app. cbn [cursor]. congruence. }
  split.
  { pose proof Hord as Hends. apply ordered_ends in Hends.
    rewrite Forall_forall in *. intros [[i' j'] n'] Hin.
    specialize (Hall _ Hin). specialize (Hends _ Hin). cbv beta iota in Hends.
    apply (run_ok_slices Hall). lia. }
  split; [congruence|]. split; [assumption|]. split; assumption.
Qed.

(** X4: [Diff] returns 0 exactly when the two sequences have the same length
    and equal elements at every index; it then calls [Common] once, for the
    whole of the two sequences. *)
Theorem no_edits_iff_equal {X Y : Type} (eqb : X -> Y -> bool)
    (a : list X) (b : list Y) :
  exists d evs,
    Diff (slices eqb a b) = Ok (d, evs) /\
    (d = 0 <-> Forall2 (fun x y => eqb x y = true) a b) /\
    (d = 0 -> commons evs = [(0, 0, len a)]).
Proof.
  destruct (slices_run eqb a b)
    as (D & evs & cs & HD & Hcs & Hord & Hcur & _ & _ & Hal & Hmin & Hbt).
  exists (Z.of_nat D), evs. split; [assumption|]. split; [split|].
  - intros E. apply (alignment_Forall2 Hal). lia.
  - intros H. apply Forall2_alignment in H. apply Hmin in H. lia.
  - intros E. assert (D = O) by lia. subst D.
    change (Z.of_nat 0) with 0 in Hbt.
    rewrite Hcs, Hbt. rewrite Hbt in Hcur.
    assert (len a - len b = 0) as Ek.
    { pose proof (alignment_Forall2 Hal eq_refl) as H.
      apply Forall2_length in H. unfold len. lia. }
    rewrite Ek in *. rewrite backtrace_innermost in *.
    rewrite orb_true_r in *. cbn [cursor] in Hcur.
    injection Hcur as H1 _. repeat f_equal. lia.
Qed.

(** ** Common subsequences *)

Section SubseqFacts.

Context {X : Type}.
Implicit Types (s l : list X).

Lemma subseq_refl l : subseq l l.
Proof. induction l; constructor; assumption. Qed.

Lemma subseq_app s1 l1 s2 l2 :
  subseq s1 l1 -> subseq s2 l2 -> subseq (s1 ++ s2) (l1 ++ l2).
Proof.
  intros H1 H2. induction H1 as [l|s x l H IH|s x l H IH]; simpl.
  - induction l as [|x l IH]; simpl; [assumption|].
    apply subseq_skip. assumption.
  - apply subseq_skip. assumption.
  - apply subseq_take. assumption.
Qed.

Lemma subseq_singleton e l : In e l -> subseq [e] l.
Proof.
  induction l as [|x l IH]; intros H; [destruct H|].
  destruct H as [->|H].
  - apply subseq_take, subseq_nil.
  - apply subseq_skip, IH, H.
Qed.

Lemma subseq_length s l : subseq s l -> (List.length s <= List.length l)%nat.
Proof. induction 1; simpl; lia. Qed.

Lemma subseq_common_part l runs : forall pos,
  subseq (common_part l runs) (interleave l pos runs).
Proof.
  induction runs as [|[i c] runs IH]; intros pos; [apply subseq_nil|].
  cbn [common_part flat_map interleave fst snd]. fold (common_part l runs).
  apply (@subseq_app [] (part l pos i)); [apply subseq_nil|].
  apply subseq_app; [apply subseq_refl|apply IH].
Qed.

Lemma length_part l lo hi :
  0 <= lo <= hi -> hi <= len l -> Z.of_nat (List.length (part l lo hi)) = hi - lo.
Proof.
  intros H1 H2. unfold part, len in *. rewrite length_firstn, length_skipn. lia.
Qed.

Lemma length_common_part l cs : forall g pi pj,
  ordered g pi pj cs -> 0 <= pi -> fst (cursor (pi, pj) cs) <= len l ->
  Z.of_nat (List.length (common_part l (left_runs cs))) = total cs.
Proof.
  induction cs as [|[[i j] n] cs IH]; intros g pi pj H Hpi Hc; [reflexivity|].
  cbn [ordered] in H. destruct H as (H1 & H2 & _ & H4 & H5).
  cbn [cursor] in Hc. pose proof (ordered_cursor _ _ _ _ H5) as [H6 H7].
  cbn [left_runs map common_part flat_map fst snd total].
  fold (left_runs cs). fold (common_part l (left_runs cs)).
  rewrite length_app, Nat2Z.inj_add, (IH _ _ _ H5) by lia.
  rewrite length_part by lia. lia.
Qed.

Section WithEquality.

Variable eqb : X -> X -> bool.
Hypothesis eqb_eq : forall x y, eqb x y = true <-> x = y.

Lemma Forall2_eqb_eq s l : Forall2 (fun x y => eqb x y = true) s l -> s = l.
Proof.
  induction 1 as [|x y s l E _ IH]; [reflexivity|].
  apply eqb_eq in E. congruence.
Qed.

(** A common subsequence is not longer than [lcs] says. *)
Lemma subseq_lcs s a : subseq s a -> forall b, subseq s b ->
  (List.length s <= lcs eqb a b)%nat.
Proof.
  induction 1 as [l|s x l H IH|s x l H IH]; intros b Hb.
  - simpl. lia.
  - pose proof (IH b Hb). pose proof (lcs_cons_l eqb x l b). lia.
  - remember (x :: s) as xs eqn:E.
    induction Hb as [l'|s' y l' Hb IHb|s' y l' Hb _].
    + discriminate.
    + pose proof (IHb E). pose proof (lcs_cons_r eqb y (x :: l) l'). lia.
    + injection E as -> ->. rewrite lcs_cons.
      assert (eqb x x = true) as -> by (apply eqb_eq; reflexivity).
      pose proof (IH l' Hb). simpl. lia.
Qed.

Lemma common_part_same (a b : list X) cs :
  Forall (fun c : Call => let '(i, j, n) := c in
            Forall2 (fun x y => eqb x y = true)
              (part a i (i + n)) (part b j (j + n))) cs ->
  common_part a (left_runs cs) = common_part b (right_runs cs).
Proof.
  induction 1 as [|[[i j] n] cs H _ IH]; [reflexivity|].
  cbn [left_runs right_runs map common_part flat_map fst snd].
  fold (left_runs cs). fold (right_runs cs).
  fold (common_part a (left_runs cs)). fold (common_part b (right_runs cs)).
  rewrite IH, (Forall2_eqb_eq H). reflexivity.
Qed.

(** The elements that [Diff] reports form a longest common subsequence. *)
Lemma reported_lcs (a b : list X) :
  exists d evs s,
    Diff (slices eqb a b) = Ok (d, evs) /\
    s = common_part a (left_runs (commons evs)) /\
    s = common_part b (right_runs (commons evs)) /\
    subseq s a /\ subseq s b /\
    List.length s = lcs eqb a b /\
    (forall t, subseq t a -> subseq t b -> (List.length t <= List.length s)%nat).
Proof.
  destruct (slices_run eqb a b)
    as (D & evs & cs & HD & Hcs & Hord & Hcur & Hall & Htot & _).
  exists (Z.of_nat D), evs, (common_part a (left_runs cs)). rewrite Hcs.
  assert (List.length (common_part a (left_runs cs)) = lcs eqb a b) as Hlen.
  { pose proof (@length_common_part a cs 0 0 0 Hord) as H.
    rewrite Hcur in H. cbn [fst] in H. unfold len in H. lia. }
  split; [assumption|]. split; [reflexivity|].
  split; [apply common_part_same; assumption|].
  split; [|split; [|split]].
  - pose proof (subseq_common_part a (left_runs cs) 0) as H.
    erewrite interleave_left in H; [|exact Hord|lia].
    rewrite Hcur in H. cbn [fst] in H. rewrite part_all in H. exact H.
  - rewrite (common_part_same a b Hall).
    pose proof (subseq_common_part b (right_runs cs) 0) as H.
    erewrite interleave_right in H; [|exact Hord|lia].
    rewrite Hcur in H. cbn [snd] in H. rewrite part_all in H. exact H.
  - assumption.
  - intros t Ha Hb. rewrite Hlen. apply subseq_lcs; assumption.
Qed.

End WithEquality.

End SubseqFacts.

(** X5: the elements inside the runs that [Diff] reports are the same on
    both sides and form a longest common subsequence of the two sequences:
    a subsequence of both, of the length that [lcs] computes, and no common
    subsequence is longer. *)
Theorem reported_runs_longest_common_subsequence {X : Type}
    (dec : forall x y : X, {x = y} + {x <> y}) (a b : list X) :
  exists d evs s,
    Diff (slices (eqb_of dec) a b) = Ok (d, evs) /\
    s = common_part a (left_runs (commons evs)) /\
    s = common_part b (right_runs (commons evs)) /\
    subseq s a /\ subseq s b /\
    List.length s = lcs (eqb_of dec) a b /\
    (forall t, subseq t a -> subseq t b -> (List.length t <= List.length s)%nat).
Proof. apply reported_lcs. apply eqb_of_true. Qed.

(** ** The elements between two runs *)

Lemma in_part {X} (l : list X) lo hi x e :
  0 <= lo <= x -> x < hi -> index l x = Ok e -> In e (part l lo hi).
Proof.
  intros H1 H2 He. rewrite <- (@part_app _ l lo x hi) by lia.
  rewrite (part_cons _ He) by lia. apply in_or_app. right. left. reflexivity.
Qed.

Lemma common_part_app {X} (l : list X) r1 r2 :
  common_part l (r1 ++ r2) = common_part l r1 ++ common_part l r2.
Proof. unfold common_part. apply flat_map_app. Qed.

Lemma gap_without_common_element {X : Type} (eqb : X -> X -> bool)
    (eqb_eq : forall x y, eqb x y = true <-> x = y) (a b : list X) :
  exists d evs,
    Diff (slices eqb a b) = Ok (d, evs) /\
    forall cs1 i j n cs2 x y ex ey,
      commons evs = cs1 ++ (i, j, n) :: cs2 ->
      fst (cursor (0, 0) cs1) <= x < i ->
      snd (cursor (0, 0) cs1) <= y < j ->
      index a x = Ok ex -> index b y = Ok ey ->
      eqb ex ey = false.
Proof.
  destruct (slices_run eqb a b)
    as (D & evs & cs & HD & Hcs & Hord & Hcur & Hall & Htot & _).
  exists (Z.of_nat D), evs. split; [assumption|].
  intros cs1 i j n cs2 x y ex ey E Hx Hy Hex Hey.
  destruct (eqb ex ey) eqn:Heq; [exfalso|reflexivity].
  apply eqb_eq in Heq. subst ey. rewrite Hcs in E. clear Hcs HD. subst cs.
  apply ordered_app in Hord. destruct Hord as [Ho1 Ho2].
  pose proof (ordered_cursor _ _ _ _ Ho1) as [Hp1 Hp2].
  set (pi := fst (cursor (0, 0) cs1)) in *.
  set (pj := snd (cursor (0, 0) cs1)) in *.
  cbn [ordered] in Ho2. destruct Ho2 as (H1 & H2 & _ & H4 & H5).
  assert (ordered 0 i j ((i, j, n) :: cs2)) as Ho2
    by (cbn [ordered]; repeat (split; [lia|]); assumption).
  rewrite cursor_app in Hcur. cbn [cursor] in Hcur.
  assert (cursor (i, j) ((i, j, n) :: cs2) = (len a, len b)) as Hcur2
    by exact Hcur.
  pose proof (ordered_cursor _ _ _ _ Ho2) as [Hq1 Hq2].
  rewrite Hcur2 in Hq1, Hq2. cbn [fst snd] in Hq1, Hq2.
  apply Forall_app in Hall. destruct Hall as [Hall1 Hall2].
  rewrite total_app in Htot.
  (* the reported elements, with the common element of the gap *)
  set (s1 := common_part a (left_runs cs1)).
  set (s2 := common_part a (left_runs ((i, j, n) :: cs2))).
  assert (subseq (s1 ++ [ex] ++ s2)
            (part a 0 pi ++ part a pi i ++ part a i (len a))) as Ha.
  { apply subseq_app; [|apply subseq_app].
    - pose proof (subseq_common_part a (left_runs cs1) 0) as H.
      erewrite interleave_left in H; [exact H|exact Ho1|lia].
    - apply subseq_singleton. apply (@in_part _ a pi i x ex); [lia|lia|assumption].
    - pose proof (subseq_common_part a (left_runs ((i, j, n) :: cs2)) i) as H.
      erewrite interleave_left in H; [|exact Ho2|lia].
      rewrite Hcur2 in H. exact H. }
  rewrite !part_app, part_all in Ha by lia.
  assert (subseq (s1 ++ [ex] ++ s2)
            (part b 0 pj ++ part b pj j ++ part b j (len b))) as Hb.
  { unfold s1, s2.
    rewrite (@common_part_same _ eqb eqb_eq a b _ Hall1),
      (@common_part_same _ eqb eqb_eq a b _ Hall2).
    apply subseq_app; [|apply subseq_app].
    - pose proof (subseq_common_part b (right_runs cs1) 0) as H.
      erewrite interleave_right in H; [exact H|exact Ho1|lia].
    - apply subseq_singleton. apply (@in_part _ b pj j y ex); [lia|lia|assumption].
    - pose proof (subseq_common_part b (right_runs ((i, j, n) :: cs2)) j) as H.
      erewrite interleave_right in H; [|exact Ho2|lia].
      rewrite Hcur2 in H. exact H. }
  rewrite !part_app, part_all in Hb by lia.
  pose proof (@subseq_lcs _ eqb eqb_eq _ _ Ha _ Hb) as Hle.
  rewrite !length_app in Hle. cbn [List.length] in Hle.
  pose proof (@length_common_part _ a cs1 0 0 0 Ho1) as L1.
  pose proof (@length_common_part _ a ((i, j, n) :: cs2) 0 i j Ho2) as L2.
  rewrite Hcur2 in L2. cbn [fst] in L2. fold pi in L1.
  fold s1 in L1. fold s2 in L2. lia.
Qed.

(** X6: between two consecutive runs that [Diff] reports (and before the
    first one) no element of the left sequence equals an element of the
    right sequence. *)
Theorem no_common_element_between_runs {X : Type}
    (dec : forall x y : X, {x = y} + {x <> y}) (a b : list X) :
  exists d evs,
    Diff (slices (eqb_of dec) a b) = Ok (d, evs) /\
    forall cs1 i j n cs2 x y ex ey,
      commons evs = cs1 ++ (i, j, n) :: cs2 ->
      fst (cursor (0, 0) cs1) <= x < i ->
      snd (cursor (0, 0) cs1) <= y < j ->
      index a x = Ok ex -> index b y = Ok ey ->
      ex <> ey.
Proof.
  destruct (@gap_without_common_element _ (eqb_of dec) (eqb_of_true dec) a b)
    as (d & evs & HD & H).
  exists d, evs. split; [assumption|].
  intros cs1 i j n cs2 x y ex ey E Hx Hy Hex Hey Heq.
  specialize (H _ _ _ _ _ _ _ _ _ E Hx Hy Hex Hey).
  apply (eqb_of_true dec) in Heq. congruence.
Qed.

(** ** The columns of the side-by-side table *)

Lemma SideBySide_run (a b : list string) :
  exists (D : nat) evs cs,
    Diff (slices String.eqb a b) = Ok (Z.of_nat D, evs) /\
    commons evs = cs /\
    ordered 0 0 0 cs /\
    cursor (0, 0) cs = (len a, len b) /\
    SideBySide a b = Ok (expected_table a b 0 0 cs).
Proof.
  destruct (slices_run String.eqb a b)
    as (D & evs & cs & HD & Hcs & Hord & Hcur & _).
  exists D, evs, cs. repeat (split; [assumption|]).
  unfold SideBySide, sbs_interface. cbn [sbs_a sbs_b].
  rewrite HD. cbn [bindR]. rewrite Hcs.
  rewrite (sbs_replay a b _ _ [] Hord) by (rewrite ?Hcur; simpl; lia).
  reflexivity.
Qed.

Lemma range_offset lo p :
  map (fun t => lo + t) (range 0 p) = range lo (lo + p).
Proof.
  unfold range. rewrite map_map.
  replace (lo + p - lo) with (p - 0) by lia. apply map_ext. intros t. lia.
Qed.

Lemma in_range_list lo hi t : In t (range lo hi) -> lo <= t < hi.
Proof.
  unfold range. intros H. apply in_map_iff in H.
  destruct H as (k & <- & Hk). apply in_seq in Hk. lia.
Qed.

Lemma left_column_app l1 l2 :
  left_column (l1 ++ l2) = left_column l1 ++ left_column l2.
Proof. unfold left_column. rewrite filter_app, map_app. reflexivity. Qed.

Lemma right_column_app l1 l2 :
  right_column (l1 ++ l2) = right_column l1 ++ right_column l2.
Proof. unfold right_column. rewrite filter_app, map_app. reflexivity. Qed.

Lemma left_column_map {T} (f g : T -> string) (ty : Z) (l : list T) :
  left_column (map (fun t => {| Left := f t; Right := g t; Type' := ty |}) l)
  = if ty =? Added then [] else map f l.
Proof.
  unfold left_column. induction l as [|t l IH]; simpl.
  - destruct (ty =? Added); reflexivity.
  - destruct (ty =? Added); simpl in *; [assumption|]. rewrite IH. reflexivity.
Qed.

Lemma right_column_map {T} (f g : T -> string) (ty : Z) (l : list T) :
  right_column (map (fun t => {| Left := f t; Right := g t; Type' := ty |}) l)
  = if ty =? Deleted then [] else map g l.
Proof.
  unfold right_column. induction l as [|t l IH]; simpl.
  - destruct (ty =? Deleted); reflexivity.
  - destruct (ty =? Deleted); simpl in *; [assumption|]. rewrite IH. reflexivity.
Qed.

Section ColumnFacts.

Variables a b : list string.

Lemma left_column_gap i0 j0 i j :
  0 <= i0 <= i -> i <= len a -> j0 <= j ->
  left_column (expected_gap a b i0 j0 i j) = part a i0 i.
Proof.
  intros Hi Hia Hj. unfold expected_gap.
  set (p := Z.min (i - i0) (j - j0)).
  rewrite !left_column_app, !left_column_map. cbn [Z.eqb Changed Deleted Added Pos.eqb].
  rewrite app_nil_r.
  rewrite <- (map_map (fun t => i0 + t) (text_at a)), range_offset.
  rewrite !map_text_at_part by lia. apply part_app; lia.
Qed.

Lemma right_column_gap i0 j0 i j :
  0 <= j0 <= j -> j <= len b -> i0 <= i ->
  right_column (expected_gap a b i0 j0 i j) = part b j0 j.
Proof.
  intros Hj Hjb Hi. unfold expected_gap.
  set (p := Z.min (i - i0) (j - j0)).
  rewrite !right_column_app, !right_column_map. cbn [Z.eqb Changed Deleted Added Pos.eqb].
  cbn [app].
  rewrite <- (map_map (fun t => j0 + t) (text_at b)), range_offset.
  rewrite !map_text_at_part by lia. apply part_app; lia.
Qed.

Lemma left_column_run i j n :
  0 <= i -> 0 <= n -> i + n <= len a ->
  left_column (expected_run a b i j n) = part a i (i + n).
Proof.
  intros Hi Hn Hia. unfold expected_run.
  rewrite left_column_map. cbn [Z.eqb NoChange Added].
  rewrite <- (map_map (fun t => i + t) (text_at a)), range_offset.
  apply map_text_at_part; lia.
Qed.

Lemma right_column_run i j n :
  0 <= j -> 0 <= n -> j + n <= len b ->
  right_column (expected_run a b i j n) = part b j (j + n).
Proof.
  intros Hj Hn Hjb. unfold expected_run.
  rewrite right_column_map. cbn [Z.eqb NoChange Deleted].
  rewrite <- (map_map (fun t => j + t) (text_at b)), range_offset.
  apply map_text_at_part; lia.
Qed.

Lemma columns_table cs : forall g i0 j0,
  ordered g i0 j0 cs -> 0 <= i0 -> 0 <= j0 ->
  fst (cursor (i0, j0) cs) <= len a -> snd (cursor (i0, j0) cs) <= len b ->
  left_column (expected_table a b i0 j0 cs) = interleave a i0 (left_runs cs) /\
  right_column (expected_table a b i0 j0 cs) = interleave b j0 (right_runs cs).
Proof.
  induction cs as [|[[i j] n] cs IH]; intros g i0 j0 Hord Hi0 Hj0 Hca Hcb.
  - split; reflexivity.
  - cbn [ordered] in Hord. destruct Hord as (H1 & H2 & _ & H4 & H5).
    cbn [cursor] in Hca, Hcb.
    pose proof (ordered_cursor _ _ _ _ H5) as [H6 H7].
    destruct (@IH _ _ _ H5) as [IHl IHr]; try lia.
    cbn [expected_table left_runs right_runs map interleave].
    fold (left_runs cs). fold (right_runs cs).
    rewrite !left_column_app, !right_column_app.
    rewrite left_column_gap, right_column_gap by lia.
    rewrite left_column_run, right_column_run by lia.
    rewrite IHl, IHr. split; reflexivity.
Qed.

End ColumnFacts.

Lemma length_two_filters {T} (f g : T -> bool) (l : list T) :
  (forall x, f x || g x = true) ->
  (List.length l <= List.length (filter f l) + List.length (filter g l))%nat.
Proof.
  intros H. induction l as [|x l IH]; simpl; [lia|].
  specialize (H x). destruct (f x), (g x); simpl in *; try discriminate; lia.
Qed.

(** X7: the table of [SideBySide(a, b)] has the lines of [a], in order, as
    the left texts of its lines other than the added ones, and the lines of
    [b] as the right texts of its lines other than the deleted ones; it has
    at least as many lines as the longer of [a] and [b] and at most as many
    as the two together. *)
Theorem SideBySide_columns (a b : list string) :
  exists lines,
    SideBySide a b = Ok lines /\
    left_column lines = a /\
    right_column lines = b /\
    Z.max (len a) (len b) <= len lines <= len a + len b.
Proof.
  destruct (SideBySide_run a b) as (D & evs & cs & _ & _ & Hord & Hcur & HS).
  exists (expected_table a b 0 0 cs). split; [assumption|].
  destruct (@columns_table a b cs 0 0 0 Hord) as [Hl Hr];
    try (rewrite ?Hcur; simpl; lia).
  erewrite interleave_left in Hl; [|exact Hord|lia].
  erewrite interleave_right in Hr; [|exact Hord|lia].
  rewrite Hcur in Hl, Hr. cbn [fst snd] in Hl, Hr. rewrite part_all in Hl, Hr.
  split; [assumption|]. split; [assumption|].
  set (lines := expected_table a b 0 0 cs) in *.
  assert (len (left_column lines) <= len lines) as H1.
  { unfold left_column, len. rewrite length_map.
    pose proof (filter_length_le (fun l => negb (Type' l =? Added)) lines). lia. }
  assert (len (right_column lines) <= len lines) as H2.
  { unfold right_column, len. rewrite length_map.
    pose proof (filter_length_le (fun l => negb (Type' l =? Deleted)) lines). lia. }
  assert (len lines <= len (left_column lines) + len (right_column lines)) as H3.
  { unfold left_column, right_column, len. rewrite !length_map.
    pose proof (@length_two_filters _ (fun l => negb (Type' l =? Added))
                  (fun l => negb (Type' l =? Deleted)) lines) as H.
    assert (forall x : SideBySideLine,
               negb (Type' x =? Added) || negb (Type' x =? Deleted) = true) as Hx.
    { intros x. destruct (Z.eqb_spec (Type' x) Added) as [E|E]; [|reflexivity].
      rewrite E. reflexivity. }
    specialize (H Hx). lia. }
  rewrite Hl in H1, H3. rewrite Hr in H2, H3. lia.
Qed.

(** ** The types of the lines of the side-by-side table *)

Lemma map_eq_pointwise {T U} (f g : T -> U) (l : list T) :
  map f l = map g l -> forall x, In x l -> f x = g x.
Proof.
  induction l as [|h t IH]; intros E x Hx; [destruct Hx|].
  simpl in E. injection E as E1 E2. destruct Hx as [<-|Hx]; auto.
Qed.

Lemma Forall_map_range {T} (P : T -> Prop) (f : Z -> T) lo hi :
  (forall t, lo <= t < hi -> P (f t)) -> Forall P (map f (range lo hi)).
Proof.
  intros H. apply Forall_forall. intros x Hx. apply in_map_iff in Hx.
  destruct Hx as (t & <- & Ht). apply H, in_range_list, Ht.
Qed.

Section LineFacts.

Variables a b : list string.

Lemma expected_run_agrees i j n :
  0 <= i -> 0 <= j -> 0 <= n -> i + n <= len a -> j + n <= len b ->
  part a i (i + n) = part b j (j + n) ->
  Forall line_agrees (expected_run a b i j n).
Proof.
  intros Hi Hj Hn Hia Hjb E.
  rewrite <- !map_text_at_part in E by lia.
  rewrite <- !range_offset, !map_map in E.
  unfold expected_run. apply Forall_map_range. intros t Ht.
  left. cbn [Type' Left Right]. split; [reflexivity|].
  apply (map_eq_pointwise _ _ _ E).
  unfold range. apply in_map_iff. exists (Z.to_nat t). split; [lia|].
  apply in_seq. lia.
Qed.

Lemma expected_gap_agrees i0 j0 i j :
  i0 <= i -> j0 <= j ->
  (forall x y, i0 <= x < i -> j0 <= y < j -> text_at a x <> text_at b y) ->
  Forall line_agrees (expected_gap a b i0 j0 i j).
Proof.
  intros Hi Hj H. unfold expected_gap.
  repeat (apply Forall_app; split); apply Forall_map_range; intros t Ht.
  - right. left. cbn [Type' Left Right]. split; [reflexivity|]. apply H; lia.
  - right. right. right. split; reflexivity.
  - right. right. left. split; reflexivity.
Qed.

Lemma expected_table_agrees cs :
  Forall (fun c : Call => let '(i, j, n) := c in
            part a i (i + n) = part b j (j + n)) cs ->
  (forall cs1 i j n cs2 x y,
      cs = cs1 ++ (i, j, n) :: cs2 ->
      fst (cursor (0, 0) cs1) <= x < i -> snd (cursor (0, 0) cs1) <= y < j ->
      text_at a x <> text_at b y) ->
  forall cs2 cs1 g,
    cs = cs1 ++ cs2 ->
    ordered g (fst (cursor (0, 0) cs1)) (snd (cursor (0, 0) cs1)) cs2 ->
    0 <= fst (cursor (0, 0) cs1) -> 0 <= snd (cursor (0, 0) cs1) ->
    fst (cursor (0, 0) cs) <= len a -> snd (cursor (0, 0) cs) <= len b ->
    Forall line_agrees
      (expected_table a b (fst (cursor (0, 0) cs1)) (snd (cursor (0, 0) cs1)) cs2).
Proof.
  intros Hall Hgap.
  induction cs2 as [|[[i j] n] cs2 IH]; intros cs1 g E Hord H1 H2 Ha Hb.
  - constructor.
  - cbn [ordered] in Hord. destruct Hord as (O1 & O2 & _ & O4 & O5).
    assert (cursor (0, 0) (cs1 ++ [(i, j, n)]) = (i + n, j + n)) as Hc.
    { rewrite cursor_app. reflexivity. }
    assert (cs = (cs1 ++ [(i, j, n)]) ++ cs2) as E'.
    { rewrite <- app_assoc. exact E. }
    pose proof (ordered_cursor _ _ _ _ O5) as [O6 O7].
    assert (cursor (0, 0) cs = cursor (i + n, j + n) cs2) as Hcs.
    { rewrite E' at 1. rewrite cursor_app, Hc. reflexivity. }
    pose proof Ha as Ha'. pose proof Hb as Hb'. rewrite Hcs in Ha', Hb'.
    cbn [expected_table]. apply Forall_app. split; [|apply Forall_app; split].
    + apply expected_gap_agrees; try lia. intros x y Hx Hy.
      apply (Hgap cs1 i j n cs2 x y E); assumption.
    + apply expected_run_agrees; try lia.
      rewrite Forall_forall in Hall.
      apply (Hall (i, j, n)). rewrite E. apply in_elt.
    + specialize (IH (cs1 ++ [(i, j, n)]) 1 E').
      rewrite Hc in IH. cbn [fst snd] in IH.
      apply IH; try assumption; lia.
Qed.

End LineFacts.

(** X8: in the table of [SideBySide(a, b)] the type of every line agrees
    with its texts: an unchanged line has the same text left and right, a
    changed line has two different texts, an added line has the empty
    string on the left and a deleted line has it on the right. *)
Theorem SideBySide_line_types (a b : list string) :
  exists lines, SideBySide a b = Ok lines /\ Forall line_agrees lines.
Proof.
  destruct (slices_run String.eqb a b)
    as (D & evs & cs & HD & Hcs & Hord & Hcur & Hall & _).
  destruct (SideBySide_run a b) as (D' & evs' & cs' & HD' & Hcs' & _ & _ & HS).
  destruct (@gap_without_common_element _ String.eqb String.eqb_eq a b)
    as (d2 & evs2 & HD2 & Hgap).
  rewrite HD in HD', HD2.
  injection HD' as _ <-. injection HD2 as _ <-.
  rewrite Hcs in Hcs', Hgap. subst cs'.
  exists (expected_table a b 0 0 cs). split; [assumption|].
  apply (@expected_table_agrees a b cs) with (cs1 := []) (g := 0);
    try (rewrite ?Hcur; cbn [cursor fst snd app]; first [reflexivity | assumption | lia]).
  - eapply Forall_impl; [|exact Hall]. intros [[i j] n] H.
    apply (@Forall2_eqb_eq _ String.eqb String.eqb_eq). exact H.
  - intros cs1 i j n cs2 x y E Hx Hy Heq.
    assert (0 <= fst (cursor (0, 0) cs1) /\ 0 <= snd (cursor (0, 0) cs1) /\
            i <= len a /\ j <= len b) as (B1 & B2 & B3 & B4).
    { pose proof Hord as Ho. pose proof Hcur as Hc. rewrite E in Ho, Hc.
      apply ordered_app in Ho. destruct Ho as [Ho1 Ho2].
      pose proof (ordered_cursor _ _ _ _ Ho1) as [P1 P2].
      cbn [ordered] in Ho2. destruct Ho2 as (_ & _ & _ & Q1 & Q2).
      pose proof (ordered_cursor _ _ _ _ Q2) as [Q3 Q4].
      rewrite cursor_app in Hc. cbn [cursor] in Hc.
      rewrite Hc in Q3, Q4. cbn [fst snd] in *. lia. }
    assert (String.eqb (text_at a x) (text_at b y) = false) as F.
    { apply (Hgap cs1 i j n cs2 x y); try assumption;
        apply index_text_at; lia. }
    rewrite Heq, String.eqb_refl in F. discriminate.
Qed.

(** ** Equal inputs and empty inputs *)

Lemma calls_equal_inputs {X Y} (eqb : X -> Y -> bool) (a : list X) (b : list Y) :
  Forall2 (fun x y => eqb x y = true) a b ->
  exists evs,
    Diff (slices eqb a b) = Ok (0, evs) /\ commons evs = [(0, 0, len a)].
Proof.
  intros H.
  destruct (slices_run eqb a b)
    as (D & evs & cs & HD & Hcs & Hord & Hcur & _ & _ & Hal & Hmin & Hbt).
  assert (D = O) as ->.
  { pose proof H as H0. apply Forall2_alignment in H0. apply Hmin in H0. lia. }
  exists evs. split; [exact HD|].
  change (Z.of_nat 0) with 0 in Hbt.
  rewrite Hcs, Hbt. rewrite Hbt in Hcur.
  assert (len a - len b = 0) as Ek.
  { apply Forall2_length in H. unfold len. lia. }
  rewrite Ek in *. rewrite backtrace_innermost in *.
  rewrite orb_true_r in *. cbn [cursor] in Hcur.
  injection Hcur as H1 _. repeat f_equal. lia.
Qed.

Lemma calls_empty_left {X Y} (eqb : X -> Y -> bool) (b : list Y) :
  exists evs,
    Diff (slices eqb [] b) = Ok (len b, evs) /\ commons evs = [(0, len b, 0)].
Proof.
  destruct (@calls_empty_side (slices eqb [] b)) as (evs & HD & Hcs).
  - apply slices_well_behaved.
  - left. reflexivity.
  - exists evs. split; assumption.
Qed.

Lemma calls_empty_right {X Y} (eqb : X -> Y -> bool) (a : list X) :
  exists evs,
    Diff (slices eqb a []) = Ok (len a, evs) /\ commons evs = [(len a, 0, 0)].
Proof.
  destruct (@calls_empty_side (slices eqb a [])) as (evs & HD & Hcs).
  - apply slices_well_behaved.
  - right. reflexivity.
  - exists evs. split; [|assumption].
    rewrite HD. cbn [slices Lengths fst snd]. change (len []) with 0.
    rewrite Z.add_0_r. reflexivity.
Qed.

Lemma SideBySide_calls (a b : list string) d evs :
  Diff (slices String.eqb a b) = Ok (d, evs) ->
  SideBySide a b = Ok (expected_table a b 0 0 (commons evs)).
Proof.
  intros H.
  destruct (SideBySide_run a b) as (D & evs' & cs & HD & Hcs & _ & _ & HS).
  rewrite H in HD. injection HD as _ <-. rewrite Hcs. exact HS.
Qed.

Lemma map_range_all {T} (f : string -> T) (l : list string) :
  map (fun t => f (text_at l t)) (range 0 (len l)) = map f l.
Proof.
  rewrite <- (map_map (text_at l) f), map_text_at_part by (unfold len; lia).
  rewrite part_all. reflexivity.
Qed.

(** X9: for two equal sequences [SideBySide] gives one unchanged line for
    every line of the input, with the line on both sides. *)
Theorem SideBySide_same (a : list string) :
  SideBySide a a
  = Ok (map (fun s => {| Left := s; Right := s; Type' := NoChange |}) a).
Proof.
  destruct (@calls_equal_inputs _ _ String.eqb a a) as (evs & HD & Hcs).
  { induction a; constructor; [apply String.eqb_refl|assumption]. }
  rewrite (@SideBySide_calls _ _ _ _ HD), Hcs. cbn [expected_table].
  unfold expected_gap, expected_run.
  rewrite !Z.sub_diag, !range_empty by (cbn; lia). cbn [map app].
  rewrite app_nil_r.
  rewrite <- (map_range_all (fun s => {| Left := s; Right := s; Type' := NoChange |}) a).
  reflexivity.
Qed.

(** X10: with an empty left sequence [SideBySide] gives one added line for
    every line of the right sequence, and with an empty right sequence one
    deleted line for every line of the left sequence. *)
Theorem SideBySide_empty_side (l : list string) :
  SideBySide [] l
  = Ok (map (fun s => {| Left := EmptyString; Right := s; Type' := Added |}) l) /\
  SideBySide l []
  = Ok (map (fun s => {| Left := s; Right := EmptyString; Type' := Deleted |}) l).
Proof.
  split.
  - destruct (calls_empty_left String.eqb l) as (evs & HD & Hcs).
    rewrite (@SideBySide_calls _ _ _ _ HD), Hcs. cbn [expected_table].
    unfold expected_gap, expected_run.
    assert (Z.min (0 - 0) (len l - 0) = 0) as -> by (unfold len; lia).
    rewrite !range_empty by lia. cbn [map app]. rewrite !app_nil_r.
    change (0 + 0) with 0.
    apply f_equal.
    apply (map_range_all (fun s => {| Left := EmptyString; Right := s; Type' := Added |}) l).
  - destruct (calls_empty_right String.eqb l) as (evs & HD & Hcs).
    rewrite (@SideBySide_calls _ _ _ _ HD), Hcs. cbn [expected_table].
    unfold expected_gap, expected_run.
    assert (Z.min (len l - 0) (0 - 0) = 0) as -> by (unfold len; lia).
    rewrite !range_empty by lia. cbn [map app]. rewrite !app_nil_r.
    change (0 + 0) with 0.
    apply f_equal.
    apply (map_range_all (fun s => {| Left := s; Right := EmptyString; Type' := Deleted |}) l).
Qed.

(** ** Edge cases and provenance of the annotated lines *)

Lemma Annotate_calls (a : list AnnotatedLine) (b : list string) version d evs :
  Diff (slices (fun l s => String.eqb (Text l) s) a b) = Ok (d, evs) ->
  Annotate a b version = Ok (expected_annotation a b version 0 (commons evs)).
Proof.
  intros H.
  destruct (slices_run (fun l s => String.eqb (Text l) s) a b)
    as (D & evs' & cs & HD & Hcs & Hord & Hcur & _).
  rewrite H in HD. injection HD as _ <-.
  unfold Annotate, ann_interface. cbn [ann_a ann_b].
  rewrite H. cbn [bindR]. rewrite Hcs.
  rewrite (ann_replay a b version _ _ [] Hord) by (rewrite ?Hcur; simpl; lia).
  reflexivity.
Qed.

(** X11: with no old lines [Annotate] gives every line of [b] the new
    version; with no new lines it gives no lines at all. *)
Theorem Annotate_empty_side (a : list AnnotatedLine) (b : list string)
    (version : Z) :
  Annotate [] b version
  = Ok (map (fun s => {| Text := s; Version := version |}) b) /\
  Annotate a [] version = Ok [].
Proof.
  split.
  - destruct (calls_empty_left (fun (l : AnnotatedLine) s => String.eqb (Text l) s) b)
      as (evs & HD & Hcs).
    rewrite (@Annotate_calls _ _ version _ _ HD), Hcs. cbn [expected_annotation].
    rewrite part_empty by lia. cbn [app]. rewrite app_nil_r. apply f_equal.
    apply (map_range_all (fun s => {| Text := s; Version := version |}) b).
  - destruct (calls_empty_right (fun (l : AnnotatedLine) (s : string) =>
                                   String.eqb (Text l) s) a)
      as (evs & HD & Hcs).
    rewrite (@Annotate_calls _ _ version _ _ HD), Hcs. cbn [expected_annotation].
    rewrite range_empty, part_empty by lia. reflexivity.
Qed.

Lemma Annotate_own_texts (a : list AnnotatedLine) (version : Z) :
  Annotate a (map Text a) version = Ok a.
Proof.
  destruct (@calls_equal_inputs _ _ (fun (l : AnnotatedLine) s => String.eqb (Text l) s)
              a (map Text a)) as (evs & HD & Hcs).
  { induction a; constructor; [apply String.eqb_refl|assumption]. }
  rewrite (@Annotate_calls _ _ version _ _ HD), Hcs. cbn [expected_annotation].
  rewrite range_empty by lia. cbn [map app]. rewrite app_nil_r.
  apply f_equal. apply part_all.
Qed.

(** X12: annotating the very texts of the old lines changes nothing: every
    line keeps its version, whatever the new version is. *)
Theorem Annotate_unchanged (a : list AnnotatedLine) (version : Z) :
  Annotate a (map Text a) version = Ok a.
Proof. apply Annotate_own_texts. Qed.

Lemma In_part {T} (l : list T) lo hi e : In e (part l lo hi) -> In e l.
Proof.
  unfold part. intros H.
  rewrite <- (firstn_skipn (Z.to_nat lo) l). apply in_or_app. right.
  rewrite <- (firstn_skipn (Z.to_nat (hi - lo)) (skipn (Z.to_nat lo) l)).
  apply in_or_app. left. exact H.
Qed.

Lemma expected_annotation_provenance (a : list AnnotatedLine) (b : list string)
    version cs : forall g i0 j0,
  ordered g i0 j0 cs -> 0 <= j0 -> snd (cursor (i0, j0) cs) <= len b ->
  Forall (fun l => In l a \/ (Version l = version /\ In (Text l) b))
    (expected_annotation a b version j0 cs).
Proof.
  induction cs as [|[[i j] n] cs IH]; intros g i0 j0 Hord Hj0 Hb.
  - constructor.
  - cbn [ordered] in Hord. destruct Hord as (_ & H2 & _ & H4 & H5).
    cbn [cursor] in Hb.
    pose proof (ordered_cursor _ _ _ _ H5) as [_ H7].
    cbn [expected_annotation]. apply Forall_app. split; [|apply Forall_app; split].
    + apply Forall_map_range. intros t Ht. right. cbn [Version Text].
      split; [reflexivity|]. unfold text_at. apply nth_In. unfold len in *. lia.
    + apply Forall_forall. intros l Hl. left. apply (In_part _ _ _ _ Hl).
    + apply (IH _ _ _ H5); lia.
Qed.

(** X13: every line that [Annotate] returns is a line of [a], with the
    version it has there, or has the new version and the text of a line of
    [b]: no other version and no other text is ever produced. *)
Theorem Annotate_provenance (a : list AnnotatedLine) (b : list string)
    (version : Z) :
  exists lines,
    Annotate a b version = Ok lines /\
    Forall (fun l => In l a \/ (Version l = version /\ In (Text l) b)) lines.
Proof.
  destruct (slices_run (fun l s => String.eqb (Text l) s) a b)
    as (D & evs & cs & HD & Hcs & Hord & Hcur & _).
  exists (expected_annotation a b version 0 cs).
  rewrite (@Annotate_calls _ _ version _ _ HD), Hcs.
  split; [reflexivity|].
  apply (@expected_annotation_provenance a b version cs 0 0 0 Hord);
    rewrite ?Hcur; simpl; lia.
Qed.

(** ** Sequences with nothing in common, and subsequences *)

Lemma Ok_pair_inj {A B} (x x' : A) (y y' : B) :
  @Ok (A * B) (x, y) = Ok (x', y') -> x = x' /\ y = y'.
Proof. intros H. injection H as -> ->. split; reflexivity. Qed.

Lemma subseq_In {X} (s l : list X) : subseq s l -> forall e, In e s -> In e l.
Proof.
  induction 1 as [l|s x l H IH|s x l H IH]; intros e He.
  - destruct He.
  - right. apply IH, He.
  - destruct He as [->|He]; [left; reflexivity|right; apply IH, He].
Qed.

Lemma subseq_same_length {X} (s l : list X) :
  subseq s l -> List.length s = List.length l -> s = l.
Proof.
  induction 1 as [l|s x l H IH|s x l H IH]; intros E.
  - destruct l; [reflexivity|discriminate].
  - apply subseq_length in H. cbn [List.length] in E. lia.
  - cbn [List.length] in E. f_equal. apply IH. lia.
Qed.

Lemma calls_total_zero (data : Interface) d evs :
  well_behaved data -> Diff data = Ok (d, evs) -> total (commons evs) = 0 ->
  commons evs = [(fst (Lengths data), snd (Lengths data), 0)].
Proof.
  intros WB HD Htot.
  destruct (Diff_run WB)
    as (D & evs' & cs & HD' & Hcs & _ & _ & _ & _ & _ & _ & _ & _
        & Hord & _ & _ & (pre & i & j & c & E & Hi & Hj & Hpos) & _).
  rewrite HD in HD'. injection HD' as _ <-.
  rewrite Hcs in *. rewrite E in Htot, Hord. rewrite E.
  rewrite total_app in Htot. cbn [total] in Htot.
  apply ordered_app in Hord. destruct Hord as [_ Hord].
  cbn [ordered] in Hord. destruct Hord as (_ & _ & _ & Hc & _).
  pose proof Hpos as Hp. apply positive_total in Hp.
  destruct pre as [|p pre]; [|cbn [List.length] in Hp; lia].
  cbn [app]. repeat f_equal; lia.
Qed.

Lemma nothing_common {X : Type} (eqb : X -> X -> bool)
    (eqb_eq : forall x y, eqb x y = true <-> x = y) (a b : list X) :
  exists d evs,
    Diff (slices eqb a b) = Ok (d, evs) /\
    (d = len a + len b <-> (forall x, In x a -> ~ In x b)) /\
    (d = len a + len b -> commons evs = [(len a, len b, 0)]).
Proof.
  destruct (@reported_lcs _ eqb eqb_eq a b)
    as (d & evs & s & HD & _ & _ & Hsa & Hsb & Hlen & Hmax).
  destruct (Diff_lcs eqb a b) as (evs' & HD' & Htot).
  rewrite HD in HD'. apply Ok_pair_inj in HD'. destruct HD' as [Hd <-].
  exists d, evs. split; [assumption|]. split; [split|].
  - intros E x Hxa Hxb.
    assert (List.length [x] <= List.length s)%nat as Hle
      by (apply Hmax; apply subseq_singleton; assumption).
    cbn [List.length] in Hle. lia.
  - intros H. destruct s as [|e s]; [cbn [List.length] in Hlen; lia|].
    exfalso. apply (H e).
    + apply (@subseq_In _ _ _ Hsa). left. reflexivity.
    + apply (@subseq_In _ _ _ Hsb). left. reflexivity.
  - intros E.
    apply (@calls_total_zero (slices eqb a b) d evs);
      [apply slices_well_behaved|assumption|lia].
Qed.

(** X14: [Diff] returns the sum of the two lengths exactly when no element
    of the one sequence is equal to an element of the other; it then calls
    [Common] once only, with the two lengths and no element. *)
Theorem all_edits_iff_nothing_common {X : Type}
    (dec : forall x y : X, {x = y} + {x <> y}) (a b : list X) :
  exists d evs,
    Diff (slices (eqb_of dec) a b) = Ok (d, evs) /\
    (d = len a + len b <-> (forall x, In x a -> ~ In x b)) /\
    (d = len a + len b -> commons evs = [(len a, len b, 0)]).
Proof. apply nothing_common. apply eqb_of_true. Qed.

(** X15: when no line of [a] is a line of [b], the table of
    [SideBySide(a, b)] pairs the lines of the two sequences in order as
    changed lines while both have lines, and gives the rest of the longer
    sequence as deleted or as added lines; no line is unchanged. *)
Theorem SideBySide_nothing_common (a b : list string) :
  (forall s, In s a -> ~ In s b) ->
  SideBySide a b = Ok (expected_gap a b 0 0 (len a) (len b)).
Proof.
  intros H.
  destruct (@nothing_common _ String.eqb String.eqb_eq a b)
    as (d & evs & HD & Hd & Hcs).
  rewrite (@SideBySide_calls _ _ _ _ HD), Hcs by (apply Hd, H).
  cbn [expected_table]. unfold expected_run.
  rewrite range_empty by lia. cbn [map]. rewrite !app_nil_r. reflexivity.
Qed.

Lemma SideBySide_nothing_common_witness :
  (forall s, In s ["a"; "b"]%string -> ~ In s ["c"]%string) /\
  SideBySide ["a"; "b"]%string ["c"]%string
  = Ok [ {| Left := "a"; Right := "c"; Type' := Changed |};
         {| Left := "b"; Right := EmptyString; Type' := Deleted |} ].
Proof.
  assert (forall s, In s ["a"; "b"]%string -> ~ In s ["c"]%string) as H.
  { intros s [<-|[<-|[]]] [E|[]]; discriminate E. }
  split; [exact H|].
  rewrite (SideBySide_nothing_common _ _ H). reflexivity.
Defined.

(** X16: [Diff] returns the difference of the two lengths exactly when the
    shorter sequence is the longer one with elements left out: [b] is then
    [a] with insertions only, or [a] with deletions only. *)
Theorem length_difference_iff_subsequence {X : Type}
    (dec : forall x y : X, {x = y} + {x <> y}) (a b : list X) :
  exists d evs,
    Diff (slices (eqb_of dec) a b) = Ok (d, evs) /\
    (d = len b - len a <-> subseq a b) /\
    (d = len a - len b <-> subseq b a).
Proof.
  destruct (@reported_lcs _ (eqb_of dec) (eqb_of_true dec) a b)
    as (d & evs & s & HD & _ & _ & Hsa & Hsb & Hlen & Hmax).
  destruct (Diff_lcs (eqb_of dec) a b) as (evs' & HD' & Htot).
  rewrite HD in HD'. apply Ok_pair_inj in HD'. destruct HD' as [Hd <-].
  pose proof Hsa as La. apply subseq_length in La.
  pose proof Hsb as Lb. apply subseq_length in Lb.
  exists d, evs. split; [assumption|]. unfold len in *. split; split.
  - intros E. assert (s = a) as <-; [|assumption].
    apply subseq_same_length; [assumption|lia].
  - intros H. assert (List.length a <= List.length s)%nat
      by (apply Hmax; [apply subseq_refl|assumption]). lia.
  - intros E. assert (s = b) as <-; [|assumption].
    apply subseq_same_length; [assumption|lia].
  - intros H. assert (List.length b <= List.length s)%nat
      by (apply Hmax; [assumption|apply subseq_refl]). lia.
Qed.

(** ** Annotating twice *)

(** X17: annotating the result of [Annotate(a, b, version)] with the same
    lines [b] again returns it unchanged, for any version: the lines that
    were new keep the version of the first call. *)
Theorem Annotate_again (a : list AnnotatedLine) (b : list string) (version : Z) :
  exists lines,
    Annotate a b version = Ok lines /\
    forall version', Annotate lines b version' = Ok lines.
Proof.
  destruct (slices_run (fun l s => String.eqb (Text l) s) a b)
    as (D & evs & cs & HD & Hcs & Hord & Hcur & Hall & _).
  exists (expected_annotation a b version 0 cs).
  rewrite (@Annotate_calls _ _ version _ _ HD), Hcs.
  split; [reflexivity|]. intros version'.
  assert (map Text (expected_annotation a b version 0 cs) = b) as E.
  { rewrite (@expected_annotation_texts a b version cs 0 0 0 Hord)
      by (rewrite ?Hcur; simpl; try assumption; lia).
    erewrite interleave_right; [|exact Hord|lia].
    rewrite Hcur. apply part_all. }
  pose proof (Annotate_own_texts (expected_annotation a b version 0 cs) version')
    as H.
  rewrite E in H. exact H.
Qed.

(** ** The number of unchanged lines *)

Lemma unchanged_app l1 l2 : unchanged (l1 ++ l2) = unchanged l1 ++ unchanged l2.
Proof. apply filter_app. Qed.

Lemma unchanged_map {T} (f g : T -> string) (ty : Z) (l : list T) :
  len (unchanged (map (fun t => {| Left := f t; Right := g t; Type' := ty |}) l))
  = if ty =? NoChange then len l else 0.
Proof.
  unfold unchanged, len. induction l as [|t l IH]; cbn [map filter Type'].
  - destruct (ty =? NoChange); reflexivity.
  - destruct (ty =? NoChange); cbn [List.length] in *; lia.
Qed.

Lemma unchanged_table (a b : list string) cs : forall g i0 j0,
  ordered g i0 j0 cs ->
  len (unchanged (expected_table a b i0 j0 cs)) = total cs.
Proof.
  induction cs as [|[[i j] n] cs IH]; intros g i0 j0 Hord; [reflexivity|].
  cbn [ordered] in Hord. destruct Hord as (_ & _ & _ & Hn & H5).
  cbn [expected_table total]. rewrite !unchanged_app.
  unfold expected_gap, expected_run. rewrite !unchanged_app.
  unfold len in *. rewrite !length_app.
  pose proof (@unchanged_map Z) as U. unfold len in U.
  rewrite !Nat2Z.inj_add, !U.
  cbn [Z.eqb Changed Deleted Added NoChange].
  rewrite range_length by lia. rewrite (IH _ _ _ H5). lia.
Qed.

(** X18: the number of unchanged lines in the table of [SideBySide(a, b)]
    is the length of a longest common subsequence of [a] and [b]: no
    table that pairs equal lines in order has more of them. *)
Theorem SideBySide_unchanged_lines (a b : list string) :
  exists lines,
    SideBySide a b = Ok lines /\
    List.length (unchanged lines) = lcs String.eqb a b.
Proof.
  destruct (slices_run String.eqb a b)
    as (D & evs & cs & HD & Hcs & Hord & _ & _ & Htot & _).
  exists (expected_table a b 0 0 cs).
  rewrite (@SideBySide_calls _ _ _ _ HD), Hcs. split; [reflexivity|].
  pose proof (@unchanged_table a b cs 0 0 0 Hord) as H. unfold len in H. lia.
Qed.

(** ** The triangle inequality *)

Section Triangle.

Context {X : Type}.
Variable eqb : X -> X -> bool.
Hypothesis eqb_eq : forall x y, eqb x y = true <-> x = y.

Lemma alignment_trans a b d1 :
  alignment eqb a b d1 ->
  forall c d2, alignment eqb b c d2 ->
  exists d, alignment eqb a c d /\ (d <= d1 + d2)%nat.
Proof.
  induction 1 as [|x a b d1 H1 IH|y a b d1 H1 IH|x y a b d1 Exy H1 IH].
  - intros c d2 H2. exists d2. split; [assumption|lia].
  - intros c d2 H2. destruct (IH c d2 H2) as (d & Hd & Hle).
    exists (S d). split; [constructor; assumption|lia].
  - intros c d2 H2. remember (y :: b) as bb eqn:Ebb.
    induction H2 as [|y' b' c d2 H2 IH2|z b' c d2 H2 IH2|y' z b' c d2 Eyz H2 IH2].
    + discriminate Ebb.
    + injection Ebb as -> ->. destruct (IH c d2 H2) as (d & Hd & Hle).
      exists d. split; [assumption|lia].
    + destruct (IH2 Ebb) as (d & Hd & Hle).
      exists (S d). split; [constructor; assumption|lia].
    + injection Ebb as -> ->. destruct (IH c d2 H2) as (d & Hd & Hle).
      exists (S d). split; [constructor; assumption|lia].
  - intros c d2 H2. remember (y :: b) as bb eqn:Ebb.
    induction H2 as [|y' b' c d2 H2 IH2|z b' c d2 H2 IH2|y' z b' c d2 Eyz H2 IH2].
    + discriminate Ebb.
    + injection Ebb as -> ->. destruct (IH c d2 H2) as (d & Hd & Hle).
      exists (S d). split; [constructor; assumption|lia].
    + destruct (IH2 Ebb) as (d & Hd & Hle).
      exists (S d). split; [constructor; assumption|lia].
    + injection Ebb as -> ->. destruct (IH c d2 H2) as (d & Hd & Hle).
      exists d. split; [|lia]. apply align_keep; [|assumption].
      apply eqb_eq in Exy, Eyz. apply eqb_eq. congruence.
Qed.

End Triangle.

(** X19: the numbers of edits that [Diff] returns satisfy the triangle
    inequality: going from [a] to [c] never takes more edits than going
    from [a] to [b] and then from [b] to [c]. *)
Theorem Diff_triangle {X : Type}
    (dec : forall x y : X, {x = y} + {x <> y}) (a b c : list X) :
  exists d1 d2 d3 e1 e2 e3,
    Diff (slices (eqb_of dec) a b) = Ok (d1, e1) /\
    Diff (slices (eqb_of dec) b c) = Ok (d2, e2) /\
    Diff (slices (eqb_of dec) a c) = Ok (d3, e3) /\
    d3 <= d1 + d2.
Proof.
  destruct (Diff_alignment (eqb_of dec) a b) as (D1 & e1 & H1 & A1 & _).
  destruct (Diff_alignment (eqb_of dec) b c) as (D2 & e2 & H2 & A2 & _).
  destruct (Diff_alignment (eqb_of dec) a c) as (D3 & e3 & H3 & _ & M3 & _).
  destruct (@alignment_trans _ (eqb_of dec) (eqb_of_true dec) _ _ _ A1 _ _ A2)
    as (d & Hd & Hle).
  apply M3 in Hd.
  exists (Z.of_nat D1), (Z.of_nat D2), (Z.of_nat D3), e1, e2, e3.
  repeat (split; [assumption|]). lia.
Qed.

(** ** Interfaces with the same lengths and the same answers *)

Section SameAnswers.

Variables data data' : Interface.
Hypothesis same_lengths : Lengths data = Lengths data'.
Hypothesis same_answers : forall x y, Equal data x y = Equal data' x y.

Lemma call_equal_same x y : call_equal data x y = call_equal data' x y.
Proof. unfold call_equal. rewrite same_answers. reflexivity. Qed.

Lemma snake_same fuel : forall n m x y,
  snake data fuel n m x y = snake data' fuel n m x y.
Proof.
  induction fuel as [|fuel IH]; intros n m x y; [reflexivity|].
  cbn [snake]. rewrite call_equal_same.
  destruct ((x <? n) && (y <? m)); [|reflexivity].
  destruct (call_equal data' x y) as [[[|] evs]|f]; cbn [bindM];
    rewrite ?IH; reflexivity.
Qed.

Lemma diagonals_same fuel : forall n m d k v,
  diagonals data fuel n m d k v = diagonals data' fuel n m d k v.
Proof.
  induction fuel as [|fuel IH]; intros n m d k v; [reflexivity|].
  cbn [diagonals]. destruct (k <=? d); [|reflexivity].
  destruct (bindR (insertion v d k (len v / 2 + k)) _) as [x|f];
    cbn [bindR]; [|reflexivity].
  rewrite snake_same.
  destruct (snake data' _ n m x (x - k)) as [[[x' y'] evs]|f];
    cbn [bindM]; [|reflexivity].
  destruct (store v (len v / 2 + k) x') as [v'|f]; cbn [bindR]; [|reflexivity].
  destruct ((n <=? x') && (m <=? y')); [reflexivity|].
  rewrite IH. reflexivity.
Qed.

Lemma search_same fuel : forall n m d vs,
  search data fuel n m d vs = search data' fuel n m d vs.
Proof.
  induction fuel as [|fuel IH]; intros n m d vs; [reflexivity|].
  cbn [search]. destruct (d <=? m + n); [|reflexivity].
  destruct (bindR (make (2 * (n + m) + 3)) _) as [v|f]; cbn [bindR]; [|reflexivity].
  rewrite diagonals_same.
  destruct (diagonals data' _ n m d (- d) v) as [[[v'|v'] evs]|f];
    cbn [bindM]; rewrite ?IH; reflexivity.
Qed.

Lemma Diff_same : Diff data = Diff data'.
Proof.
  unfold Diff. rewrite same_lengths. destruct (Lengths data') as [n m].
  rewrite search_same. reflexivity.
Qed.

End SameAnswers.

(** ** The adapter of the package's test, for all strings *)

Lemma get_nth_error s : forall k,
  String.get k s = nth_error (list_ascii_of_string s) k.
Proof.
  induction s as [|c s IH]; intros [|k]; cbn; auto.
Qed.

Lemma length_list_ascii s :
  List.length (list_ascii_of_string s) = String.length s.
Proof. induction s as [|c s IH]; cbn; [reflexivity|]. rewrite IH. reflexivity. Qed.

Lemma byte_at_index s i : byte_at s i = index (list_ascii_of_string s) i.
Proof. unfold byte_at, index. rewrite get_nth_error. reflexivity. Qed.

Lemma substring_part s : forall k c,
  substring k c s
  = string_of_list_ascii (firstn c (skipn k (list_ascii_of_string s))).
Proof.
  induction s as [|h s IH]; intros [|k] [|c]; cbn; try reflexivity.
  - rewrite IH. reflexivity.
  - apply IH.
  - apply IH.
Qed.

Lemma substr_part s lo hi :
  0 <= lo <= hi -> hi <= len (list_ascii_of_string s) ->
  substr s lo hi = Ok (string_of_list_ascii (part (list_ascii_of_string s) lo hi)).
Proof.
  intros H1 H2. unfold substr, len in *. rewrite length_list_ascii in H2.
  destruct (Z.leb_spec 0 lo); [|lia]. destruct (Z.leb_spec lo hi); [|lia].
  destruct (Z.leb_spec hi (Z.of_nat (String.length s))); [|lia].
  cbn [andb]. rewrite substring_part. reflexivity.
Qed.

Lemma sd_interface_slices (a b : string) l1 l2 :
  Diff (sd_interface {| sd_a := a; sd_b := b; lcsa := l1; lcsb := l2 |})
  = Diff (slices Ascii.eqb (list_ascii_of_string a) (list_ascii_of_string b)).
Proof.
  apply Diff_same.
  - unfold sd_interface, slices, len. cbn [Lengths sd_a sd_b].
    rewrite !length_list_ascii. reflexivity.
  - intros x y. unfold sd_interface, slices. cbn [Equal sd_a sd_b].
    rewrite !byte_at_index. reflexivity.
Qed.

Lemma sd_replay (a b : string) cs : forall g i0 j0 l1 l2,
  ordered g i0 j0 cs -> 0 <= i0 -> 0 <= j0 ->
  fst (cursor (i0, j0) cs) <= len (list_ascii_of_string a) ->
  snd (cursor (i0, j0) cs) <= len (list_ascii_of_string b) ->
  replay sd_Common cs {| sd_a := a; sd_b := b; lcsa := l1; lcsb := l2 |}
  = Ok {| sd_a := a; sd_b := b;
          lcsa := l1 ++ map (fun r : Z * Z => string_of_list_ascii
                    (part (list_ascii_of_string a) (fst r) (fst r + snd r)))
                    (left_runs cs);
          lcsb := l2 ++ map (fun r : Z * Z => string_of_list_ascii
                    (part (list_ascii_of_string b) (fst r) (fst r + snd r)))
                    (right_runs cs) |}.
Proof.
  induction cs as [|[[i j] n] cs IH]; intros g i0 j0 l1 l2 Hord Hi0 Hj0 Ha Hb.
  - cbn. rewrite !app_nil_r. reflexivity.
  - cbn [ordered] in Hord. destruct Hord as (H1 & H2 & _ & H4 & H5).
    cbn [cursor] in Ha, Hb.
    pose proof (ordered_cursor _ _ _ _ H5) as [H6 H7].
    cbn [replay sd_Common sd_a sd_b lcsa lcsb].
    rewrite !substr_part by lia. cbn [bindR].
    rewrite (IH _ _ _ _ _ H5) by lia.
    cbn [left_runs right_runs map fst snd]. rewrite <- !app_assoc. reflexivity.
Qed.

Lemma flat_map_strings (l : list ascii) (runs : list (Z * Z)) :
  flat_map list_ascii_of_string
    (map (fun r : Z * Z => string_of_list_ascii (part l (fst r) (fst r + snd r))) runs)
  = common_part l runs.
Proof.
  unfold common_part. induction runs as [|r runs IH]; [reflexivity|].
  cbn [map flat_map]. rewrite IH, list_ascii_of_string_of_list_ascii. reflexivity.
Qed.

Lemma map_runs_same (a b : list ascii) cs :
  Forall (fun c : Call => let '(i, j, n) := c in
            Forall2 (fun x y => Ascii.eqb x y = true)
              (part a i (i + n)) (part b j (j + n))) cs ->
  map (fun r : Z * Z => string_of_list_ascii (part a (fst r) (fst r + snd r)))
    (left_runs cs)
  = map (fun r : Z * Z => string_of_list_ascii (part b (fst r) (fst r + snd r)))
      (right_runs cs).
Proof.
  induction 1 as [|[[i j] n] cs H _ IH]; [reflexivity|].
  unfold left_runs, right_runs in *. cbn [map fst snd]. rewrite IH.
  rewrite (@Forall2_eqb_eq _ Ascii.eqb Ascii.eqb_eq _ _ H). reflexivity.
Qed.

(** X20: for any two strings the adapter of the package's test collects the
    same strings in [lcsa] and in [lcsb]; joined, they are a common
    subsequence of the bytes of the two strings, as long as any, and the
    number of edits counts the bytes of the two strings outside it. *)
Theorem stringDiff_common_strings (a b : string) :
  exists edits l,
    run_stringDiff a b = Ok (edits, l, l) /\
    subseq (flat_map list_ascii_of_string l) (list_ascii_of_string a) /\
    subseq (flat_map list_ascii_of_string l) (list_ascii_of_string b) /\
    List.length (flat_map list_ascii_of_string l)
    = lcs Ascii.eqb (list_ascii_of_string a) (list_ascii_of_string b) /\
    edits = Z.of_nat (String.length a) + Z.of_nat (String.length b)
            - 2 * Z.of_nat (List.length (flat_map list_ascii_of_string l)).
Proof.
  set (la := list_ascii_of_string a). set (lb := list_ascii_of_string b).
  destruct (slices_run Ascii.eqb la lb)
    as (D & evs & cs & HD & Hcs & Hord & Hcur & Hall & Htot & _).
  destruct (Diff_lcs Ascii.eqb la lb) as (evs' & HD' & _).
  rewrite HD in HD'. apply Ok_pair_inj in HD'. destruct HD' as [Hd _].
  exists (Z.of_nat D),
    (map (fun r : Z * Z => string_of_list_ascii (part la (fst r) (fst r + snd r)))
       (left_runs cs)).
  assert (List.length (common_part la (left_runs cs)) = lcs Ascii.eqb la lb) as Hlen.
  { pose proof (@length_common_part _ la cs 0 0 0 Hord) as H.
    rewrite Hcur in H. cbn [fst] in H. unfold len in H. lia. }
  split; [|rewrite flat_map_strings; split; [|split; [|split]]].
  - unfold run_stringDiff. rewrite sd_interface_slices. fold la lb.
    rewrite HD. cbn [bindR]. rewrite Hcs.
    rewrite (@sd_replay a b cs 0 0 0 [] [] Hord)
      by (fold la lb; rewrite ?Hcur; simpl; lia).
    cbn [bindR lcsa lcsb app]. fold la lb.
    rewrite <- (@map_runs_same la lb cs Hall). reflexivity.
  - pose proof (subseq_common_part la (left_runs cs) 0) as H.
    erewrite interleave_left in H; [|exact Hord|lia].
    rewrite Hcur in H. cbn [fst] in H. rewrite part_all in H. exact H.
  - rewrite (@common_part_same _ Ascii.eqb Ascii.eqb_eq la lb cs Hall).
    pose proof (subseq_common_part lb (right_runs cs) 0) as H.
    erewrite interleave_right in H; [|exact Hord|lia].
    rewrite Hcur in H. cbn [snd] in H. rewrite part_all in H. exact H.
  - exact Hlen.
  - rewrite Hlen, Hd. unfold len, la, lb. rewrite !length_list_ascii. reflexivity.
Qed.

(** ** A bound on the number of [Equal] calls *)

Lemma bindM_Ok {A B} (c : M A) (k : A -> M B) b evs :
  bindM c k = Ok (b, evs) ->
  exists a e1 e2, c = Ok (a, e1) /\ k a = Ok (b, e2) /\ evs = e1 ++ e2.
Proof.
  unfold bindM. destruct c as [[a e1]|f]; [|discriminate].
  destruct (k a) as [[b' e2]|f] eqn:E; [|discriminate].
  intros H. injection H as <- <-. exists a, e1, e2. auto.
Qed.

Lemma bindR_Ok {A B} (c : Result A) (k : A -> Result B) b :
  bindR c k = Ok b -> exists a, c = Ok a /\ k a = Ok b.
Proof.
  unfold bindR. destruct c as [a|f]; [|discriminate]. intros H. exists a. auto.
Qed.

Lemma index_In {X} (l : list X) i x : index l i = Ok x -> In x l.
Proof.
  unfold index. destruct (i <? 0); [discriminate|].
  destruct (nth_error l (Z.to_nat i)) as [y|] eqn:E; [|discriminate].
  intros H. injection H as <-. apply (@nth_error_In _ _ _ _ E).
Qed.

Lemma Forall_assign {X} (P : X -> Prop) x : forall (p : nat) l,
  P x -> Forall P l -> Forall P (assign p x l).
Proof.
  intros p l Hx H. revert p. induction H as [|h t Hh Ht IH]; intros p.
  - destruct p; constructor.
  - destruct p; cbn [assign]; constructor; auto.
Qed.

Lemma Forall_store {X} (P : X -> Prop) l i x l' :
  P x -> Forall P l -> store l i x = Ok l' -> Forall P l'.
Proof.
  intros Hx Hl. unfold store.
  destruct ((0 <=? i) && (i <? len l)); [|discriminate].
  intros H. injection H as <-. apply Forall_assign; assumption.
Qed.

Lemma Forall_copy {X} (P : X -> Prop) (dst src : list X) :
  Forall P dst -> Forall P src -> Forall P (copy dst src).
Proof.
  intros H1 H2. unfold copy. apply Forall_app. split.
  - apply Forall_forall. intros x Hx. rewrite Forall_forall in H2.
    apply H2. rewrite <- (firstn_skipn (List.length dst) src).
    apply in_or_app. left. exact Hx.
  - apply Forall_forall. intros x Hx. rewrite Forall_forall in H1.
    apply H1. rewrite <- (firstn_skipn (List.length src) dst).
    apply in_or_app. right. exact Hx.
Qed.

Section Counting.

Variable data : Interface.

Lemma snake_count fuel : forall n m x y x' y' evs,
  snake data fuel n m x y = Ok ((x', y'), evs) ->
  len evs <= Z.max 0 (n - x) /\ x <= x'.
Proof.
  induction fuel as [|fuel IH]; intros n m x y x' y' evs H; [discriminate|].
  cbn [snake] in H.
  destruct (Z.ltb_spec x n) as [Hx|Hx]; cbn [andb] in H.
  - destruct (y <? m).
    + apply bindM_Ok in H. destruct H as (b & e1 & e2 & H1 & H2 & ->).
      assert (len e1 = 1) as L1.
      { unfold call_equal in H1. destruct (Equal data x y); [|discriminate].
        injection H1 as _ <-. reflexivity. }
      rewrite len_app, L1. destruct b.
      * apply IH in H2. lia.
      * injection H2 as <- _ <-. change (len []) with 0. lia.
    + injection H as <- _ <-. change (len []) with 0. lia.
  - injection H as <- _ <-. change (len []) with 0. lia.
Qed.

Lemma diagonals_count fuel : forall n m d k v r evs,
  0 <= n -> Forall (fun x => 0 <= x) v ->
  diagonals data fuel n m d k v = Ok (r, evs) ->
  len evs <= n * Z.max 0 ((d - k) / 2 + 1) /\ Forall (fun x => 0 <= x) (swept r).
Proof.
  induction fuel as [|fuel IH]; intros n m d k v r evs Hn Hv H; [discriminate|].
  cbn [diagonals] in H.
  destruct (Z.leb_spec k d) as [Hk|Hk].
  - apply bindR_Ok in H. destruct H as (x & Hx & H).
    assert (0 <= x) as Hx0.
    { apply bindR_Ok in Hx. destruct Hx as ([|] & _ & Hx).
      - apply index_In in Hx. rewrite Forall_forall in Hv. apply (Hv _ Hx).
      - apply bindR_Ok in Hx. destruct Hx as (a & Ha & Hx).
        injection Hx as <-. apply index_In in Ha.
        rewrite Forall_forall in Hv. specialize (Hv _ Ha). cbv beta in Hv. lia. }
    apply bindM_Ok in H. destruct H as ([x' y'] & e1 & e2 & H1 & H2 & ->).
    apply snake_count in H1. destruct H1 as [L1 Hx'].
    apply bindR_Ok in H2. destruct H2 as (v' & Hv' & H2).
    assert (Forall (fun x => 0 <= x) v') as Fv'.
    { apply (@Forall_store _ (fun x => 0 <= x) v (len v / 2 + k) x' v');
        [lia|assumption|assumption]. }
    rewrite len_app.
    assert (1 <= (d - k) / 2 + 1) as Hq by arith.
    destruct ((n <=? x') && (m <=? y')).
    + injection H2 as <- <-. change (len []) with 0. split; [nia|assumption].
    + apply IH in H2; [|assumption|assumption]. destruct H2 as [L2 F2].
      split; [|assumption].
      replace ((d - (k + 2)) / 2 + 1) with ((d - k) / 2) in L2 by arith.
      nia.
  - injection H as <- <-. change (len []) with 0. split; [|assumption].
    nia.
Qed.

Lemma search_count fuel : forall n m d vs vs' evs,
  0 <= n -> 0 <= d -> len vs = d ->
  Forall (Forall (fun x => 0 <= x)) vs ->
  search data fuel n m d vs = Ok (vs', evs) ->
  d < len vs' /\
  2 * len evs <= n * (len vs' * (len vs' + 1) - d * (d + 1)).
Proof.
  induction fuel as [|fuel IH]; intros n m d vs vs' evs Hn Hd Hlen Hvs H;
    [discriminate|].
  cbn [search] in H.
  destruct (d <=? m + n); [|discriminate].
  apply bindR_Ok in H. destruct H as (v & Hv & H).
  assert (Forall (fun x => 0 <= x) v) as Fv.
  { apply bindR_Ok in Hv. destruct Hv as (v0 & Hv0 & Hv).
    assert (Forall (fun x => 0 <= x) v0) as F0.
    { unfold make in Hv0. destruct (_ <? 0); [discriminate|].
      injection Hv0 as <-. apply Forall_forall. intros x Hx.
      apply repeat_spec in Hx. lia. }
    destruct (d =? 0).
    - apply (@Forall_store _ (fun x => 0 <= x) v0 1 0 v); [lia|assumption|assumption].
    - apply bindR_Ok in Hv. destruct Hv as (p & Hp & Hv). injection Hv as <-.
      apply Forall_copy; [assumption|]. apply index_In in Hp.
      rewrite Forall_forall in Hvs. apply (Hvs _ Hp). }
  apply bindM_Ok in H. destruct H as (r & e1 & e2 & H1 & H2 & ->).
  apply diagonals_count in H1; [|assumption|assumption].
  destruct H1 as [L1 F1].
  replace ((d - - d) / 2 + 1) with (d + 1) in L1 by arith.
  rewrite Z.max_r in L1 by lia.
  rewrite len_app.
  destruct r as [v'|v']; cbn [swept] in F1.
  - injection H2 as <- <-. change (len []) with 0.
    rewrite len_app. change (len [v']) with 1. split; [lia|]. nia.
  - assert (len (vs ++ [v']) = d + 1) as Hl
      by (rewrite len_app; change (len [v']) with 1; lia).
    assert (Forall (Forall (fun x => 0 <= x)) (vs ++ [v'])) as Hf.
    { apply Forall_app. split; [assumption|]. constructor; [assumption|constructor]. }
    assert (0 <= d + 1) as Hd' by lia.
    destruct (@IH n m (d + 1) (vs ++ [v']) vs' e2 Hn Hd' Hl Hf H2) as [G L2].
    split; [lia|]. nia.
Qed.

Lemma common_no_queries fuel : forall vs x1 y1 d u evs,
  common fuel vs x1 y1 d = Ok (u, evs) -> queries evs = [].
Proof.
  induction fuel as [|fuel IH]; intros vs x1 y1 d u evs H; [discriminate|].
  cbn [common] in H.
  apply bindR_Ok in H. destruct H as ([[x y] xm] & _ & H).
  apply bindM_Ok in H. destruct H as (u1 & e1 & e2 & H1 & H2 & ->).
  rewrite queries_app.
  assert (queries e1 = []) as ->.
  { destruct (d >? 0); [apply (@IH _ _ _ _ _ _ H1)|].
    injection H1 as _ <-. reflexivity. }
  unfold report in H2. destruct (_ || _).
  - injection H2 as _ <-. reflexivity.
  - injection H2 as _ <-. reflexivity.
Qed.

Lemma queries_length evs : len (queries evs) <= len evs.
Proof.
  unfold len. induction evs as [|[i j|i j n] evs IH]; cbn [queries List.length]; lia.
Qed.

Lemma Diff_count d evs :
  0 <= fst (Lengths data) ->
  Diff data = Ok (d, evs) ->
  0 <= d /\
  2 * len (queries evs) <= fst (Lengths data) * ((d + 1) * (d + 2)).
Proof.
  intros Hn H. unfold Diff in H. destruct (Lengths data) as [n m].
  cbn [fst] in *.
  apply bindM_Ok in H. destruct H as (vs & e1 & e2 & H1 & H2 & ->).
  apply bindM_Ok in H2. destruct H2 as (u & e3 & e4 & H3 & H4 & ->).
  injection H4 as <- <-.
  apply search_count in H1; try assumption; try lia;
    [|reflexivity|constructor].
  destruct H1 as [G L].
  rewrite app_nil_r, queries_app, (@common_no_queries _ _ _ _ _ _ _ H3), app_nil_r.
  pose proof (queries_length e1). split; [lia|]. nia.
Qed.

End Counting.

(** X21: on a well-behaved implementation with lengths small enough for
    the search, [Diff] calls [Equal] at most [N * (d + 1) * (d + 2) / 2]
    times, where [N] is the first length and [d] the number of edits that
    it returns: at most [N] times when the sequences are equal. *)
Theorem Equal_calls_bound (data : Interface) :
  well_behaved data -> fits data ->
  exists d evs,
    Diff data = Ok (d, evs) /\
    2 * len (queries evs) <= fst (Lengths data) * ((d + 1) * (d + 2)).
Proof.
  intros WB _.
  destruct (Diff_run WB) as (D & evs & cs & HD & _).
  exists (Z.of_nat D), evs. split; [assumption|].
  apply (@Diff_count data (Z.of_nat D) evs); [apply WB|assumption].
Qed.

Lemma Equal_calls_bound_witness :
  well_behaved sample /\ fits sample /\
  exists d evs,
    Diff sample = Ok (d, evs) /\
    2 * len (queries evs) <= fst (Lengths sample) * ((d + 1) * (d + 2)).
Proof.
  split; [exact sample_well_behaved|]. split; [exact sample_fits|].
  exact (Equal_calls_bound sample_well_behaved sample_fits).
Defined.

(** ** A panic of the first comparison *)

(** X22: when both lengths are positive, and small enough for the search,
    and [Equal(0, 0)] panics, [Diff] panics with the same failure: it does
    not recover from it. *)
Theorem first_Equal_panic (data : Interface) (f : Failure) :
  0 < fst (Lengths data) -> 0 < snd (Lengths data) -> fits data ->
  Equal data 0 0 = Panic f ->
  Diff data = Panic f.
Proof.
  intros Hn Hm _ Hf. unfold Diff. destruct (Lengths data) as [n m].
  cbn [fst snd] in Hn, Hm.
  replace (Z.to_nat (m + n) + 2)%nat with (S (S (Z.to_nat (m + n)))) by lia.
  cbn [search].
  destruct (Z.leb_spec 0 (m + n)); [|lia].
  unfold make. destruct (Z.ltb_spec (2 * (n + m) + 3) 0); [lia|]. cbn [bindR].
  change (0 =? 0) with true. cbv iota.
  rewrite store_Ok by (rewrite len_repeat; lia). cbn [bindR].
  change (Z.to_nat 0 + 2)%nat with 2%nat. change (- 0) with 0.
  cbn [diagonals]. change (0 <=? 0) with true. cbv iota.
  unfold insertion. change (0 =? - 0) with true. cbv iota. cbn [bindR].
  rewrite len_assign, len_repeat, Z.add_0_r.
  rewrite index_assign_other by arith.
  rewrite index_repeat by arith. cbn [bindR].
  change (0 - 0) with 0.
  cbn [snake]. destruct (Z.ltb_spec 0 n); [|lia]. destruct (Z.ltb_spec 0 m); [|lia].
  cbn [andb]. unfold call_equal. rewrite Hf. reflexivity.
Qed.

Lemma first_Equal_panic_witness :
  0 < 1 /\ 0 < 1 /\
  fits {| Lengths := (1, 1); Equal := fun _ _ => Panic IndexOutOfRange |} /\
  Diff {| Lengths := (1, 1); Equal := fun _ _ => Panic IndexOutOfRange |}
  = Panic IndexOutOfRange.
Proof.
  assert (fits {| Lengths := (1, 1); Equal := fun _ _ => Panic IndexOutOfRange |})
    as H by (unfold fits, max_len; cbn; lia).
  split; [lia|]. split; [lia|]. split; [exact H|].
  apply (@first_Equal_panic
           {| Lengths := (1, 1); Equal := fun _ _ => Panic IndexOutOfRange |}
           IndexOutOfRange); [cbn; lia|cbn; lia|exact H|reflexivity].
Defined.
